(** * Rule application engine of llm-connector's maintenance scripts

    A shallow embedding of
      - [scripts/fix_message_construction.py]  (structural rewriter), and
      - [scripts/translate_rust_comments.py]   (lexical rewriter),
    followed by the properties the specification states about them and by
    further properties of the two functions and of the [main] of each
    script.

    A Python [str] is a sequence of Unicode code points; it is modelled as a
    list of code points.  The regular expressions of the structural rewriter
    are modelled by a backtracking matcher with Python's priorities (greedy
    quantifiers, leftmost match, non-overlapping substitution). *)

From Stdlib Require Import Ascii String List NArith ZArith Bool Arith Lia.
From Stdlib Require Import DecimalString.
Import ListNotations.

Local Open Scope N_scope.

(** ** Python strings *)

Definition codepoint := N.
Definition str := list codepoint.

(** UTF-8 decoding, used to write the string constants of the sources as
    readable literals. *)
Fixpoint utf8_decode (need : nat) (acc : N) (bs : list N) : str :=
  match bs with
  | [] => []
  | b :: bs' =>
      if b <? 128 then b :: utf8_decode 0 0 bs'
      else if b <? 192 then
        let acc' := acc * 64 + (b - 128) in
        match need with
        | 1%nat => acc' :: utf8_decode 0 0 bs'
        | S n => utf8_decode n acc' bs'
        | O => utf8_decode 0 0 bs'
        end
      else if b <? 224 then utf8_decode 1 (b - 192) bs'
      else if b <? 240 then utf8_decode 2 (b - 224) bs'
      else utf8_decode 3 (b - 240) bs'
  end.

Definition u (s : string) : str :=
  utf8_decode 0 0 (map N_of_ascii (list_ascii_of_string s)).

(** The double quote, as a string and as a code point, and the backslash
    as a string. *)
Definition dq : string := String (ascii_of_nat 34) EmptyString.
Definition bs : string := String (ascii_of_nat 92) EmptyString.
Definition DQ : codepoint := 34.
Definition NL : codepoint := 10.

Definition str_eqb (a b : str) : bool :=
  if list_eq_dec N.eq_dec a b then true else false.

(** [s.startswith(pre)], returning what follows the prefix. *)
Fixpoint strip_prefix (pre s : str) : option str :=
  match pre with
  | [] => Some s
  | p :: pre' =>
      match s with
      | [] => None
      | c :: s' => if c =? p then strip_prefix pre' s' else None
      end
  end.

(** [k in s] for strings: [k] occurs as a substring of [s]. *)
Fixpoint str_contains (k s : str) : bool :=
  match strip_prefix k s with
  | Some _ => true
  | None => match s with
            | [] => false
            | _ :: s' => str_contains k s'
            end
  end.

(** [s.replace(old, new)]: every non-overlapping occurrence of [old], found
    from the left, is replaced.  [skip] counts the characters of the current
    occurrence that are still to be dropped. *)
Fixpoint replace_from (old new : str) (skip : nat) (s : str) : str :=
  match s with
  | [] => []
  | c :: s' =>
      match skip with
      | S n => replace_from old new n s'
      | O =>
          match strip_prefix old s with
          | Some _ => new ++ replace_from old new (length old - 1) s'
          | None => c :: replace_from old new 0 s'
          end
      end
  end.

Definition str_replace (old new s : str) : str :=
  match old with
  | [] => new ++ flat_map (fun c => c :: new) s
  | _ :: _ => replace_from old new 0 s
  end.

(** [s.split(sep)] for a one-character separator: never an empty list. *)
Fixpoint split (sep : codepoint) (s : str) : list str :=
  match s with
  | [] => [[]]
  | c :: s' =>
      if c =? sep then [] :: split sep s'
      else match split sep s' with
           | l :: ls => (c :: l) :: ls
           | [] => [[c]]
           end
  end.

(** [sep.join(parts)]. *)
Fixpoint join (sep : str) (parts : list str) : str :=
  match parts with
  | [] => []
  | [p] => p
  | p :: ps => p ++ sep ++ join sep ps
  end.

(** ** Ordered dictionaries

    A Python [dict] keeps insertion order; a key written twice in a dict
    display keeps its first position and takes the last value. *)
Definition dict := list (str * str).

Fixpoint dict_set (d : dict) (k v : str) : dict :=
  match d with
  | [] => [(k, v)]
  | (k', v') :: d' =>
      if str_eqb k' k then (k', v) :: d' else (k', v') :: dict_set d' k v
  end.

Definition dict_display (entries : list (string * string)) : dict :=
  fold_left (fun d e => dict_set d (u (fst e)) (u (snd e))) entries [].

Definition items (d : dict) : list (str * str) := d.
Definition keys (d : dict) : list str := map fst d.
Definition values (d : dict) : list str := map snd d.

(** ** translate_rust_comments.py *)

Local Open Scope string_scope.

(** The dict display of [TRANSLATIONS], entry by entry as in the source. *)
Definition TRANSLATIONS_display : list (string * string) :=
  [
    (* Module level *)
    ("V2统一客户端 - 下一代LLM客户端接口", "V2 Unified Client - Next-generation LLM client interface");
    ("这个模块提供统一的客户端接口，支持所有LLM服务提供商", "This module provides a unified client interface supporting all LLM service providers");
    (* Struct/Type descriptions *)
    ("统一LLM客户端", "Unified LLM Client");
    ("这个客户端提供统一的接口来访问各种LLM服务", "This client provides a unified interface to access various LLM services");
    ("使用V2架构的清晰抽象层", "using V2 architecture's clean abstraction layer");
    (* Common section headers *)
    ("示例", "Example");
    ("参数", "Parameters");
    ("返回", "Returns");
    ("错误", "Errors");
    (* Provider names *)
    ("阿里云DashScope", "Aliyun DashScope");
    ("智谱GLM", "Zhipu GLM");
    ("火山引擎", "Volcengine");
    ("腾讯云混元", "Tencent Hunyuan");
    ("月之暗面", "Moonshot");
    (* Common phrases - Create *)
    ("从任何Provider创建客户端", "Create client from any Provider");
    ("创建OpenAI客户端", "Create OpenAI client");
    ("创建带有自定义基础URL的OpenAI客户端", "Create OpenAI client with custom base URL");
    ("创建Azure OpenAI客户端", "Create Azure OpenAI client");
    ("创建阿里云DashScope客户端", "Create Aliyun DashScope client");
    ("创建Anthropic Claude客户端", "Create Anthropic Claude client");
    ("创建智谱GLM客户端", "Create Zhipu GLM client");
    ("创建智谱GLM客户端 (OpenAI兼容模式)", "Create Zhipu GLM client (OpenAI compatible mode)");
    ("创建Ollama客户端 (默认本地地址)", "Create Ollama client (default local address)");
    ("创建带有自定义URL的Ollama客户端", "Create Ollama client with custom URL");
    ("创建OpenAI兼容服务客户端", "Create OpenAI-compatible service client");
    ("创建LongCat Anthropic格式客户端", "Create LongCat Anthropic format client");
    ("创建带有自定义配置的LongCat Anthropic客户端", "Create LongCat Anthropic client with custom configuration");
    ("创建火山引擎（Volcengine）客户端", "Create Volcengine client");
    ("创建带有自定义配置的火山引擎客户端", "Create Volcengine client with custom configuration");
    ("创建腾讯云混元（Tencent Hunyuan）客户端", "Create Tencent Hunyuan client");
    ("创建带有自定义配置的腾讯云混元客户端", "Create Tencent Hunyuan client with custom configuration");
    ("创建 Moonshot（月之暗面）客户端", "Create Moonshot client");
    ("创建带有自定义配置的 Moonshot 客户端", "Create Moonshot client with custom configuration");
    ("创建 DeepSeek 客户端", "Create DeepSeek client");
    ("创建带有自定义配置的 DeepSeek 客户端", "Create DeepSeek client with custom configuration");
    (* Advanced constructors *)
    ("高级构造函数 - 自定义配置", "Advanced Constructors - Custom Configuration");
    ("创建带有自定义配置的OpenAI客户端", "Create OpenAI client with custom configuration");
    ("创建带有自定义配置的Aliyun客户端", "Create Aliyun client with custom configuration");
    ("创建Aliyun国际版客户端", "Create Aliyun international client");
    ("创建Aliyun专有云客户端", "Create Aliyun private cloud client");
    ("创建带有自定义超时的Aliyun客户端", "Create Aliyun client with custom timeout");
    ("创建带有自定义配置的Anthropic客户端", "Create Anthropic client with custom configuration");
    ("创建Anthropic Vertex AI客户端", "Create Anthropic Vertex AI client");
    ("创建Anthropic AWS Bedrock客户端", "Create Anthropic AWS Bedrock client");
    ("创建带有自定义超时的Anthropic客户端", "Create Anthropic client with custom timeout");
    ("创建带有自定义配置的Zhipu客户端", "Create Zhipu client with custom configuration");
    ("创建带有自定义超时的Zhipu客户端", "Create Zhipu client with custom timeout");
    ("创建Zhipu企业版客户端", "Create Zhipu enterprise client");
    ("创建带有自定义配置的Ollama客户端", "Create Ollama client with custom configuration");
    (* Methods *)
    ("获取提供商名称", "Get provider name");
    ("发送聊天完成请求", "Send chat completion request");
    ("发送流式聊天完成请求", "Send streaming chat completion request");
    ("获取可用模型列表", "Get available models list");
    ("获取底层提供商的引用 (用于特殊功能访问)", "Get reference to underlying provider (for special feature access)");
    ("类型安全的Provider转换方法", "Type-safe Provider conversion methods");
    ("尝试将客户端转换为OllamaProvider", "Try to convert client to OllamaProvider");
    (* Parameter descriptions *)
    ("OpenAI API密钥", "OpenAI API key");
    ("API密钥", "API key");
    ("自定义基础URL", "Custom base URL");
    ("Azure OpenAI API密钥", "Azure OpenAI API key");
    ("Azure OpenAI端点", "Azure OpenAI endpoint");
    ("API版本", "API version");
    ("Anthropic API密钥 (格式: sk-ant-...)", "Anthropic API key (format: sk-ant-...)");
    ("服务基础URL", "Service base URL");
    ("服务名称", "Service name");
    ("Ollama服务的URL", "Ollama service URL");
    ("聊天请求", "Chat request");
    ("聊天响应", "Chat response");
    ("聊天流", "Chat stream");
    ("模型名称列表", "List of model names");
    (* Return descriptions *)
    ("如果底层Provider是OllamaProvider，返回Some引用，否则返回None", "Returns Some reference if underlying Provider is OllamaProvider, otherwise None");
    ("可以进行类型转换以访问特定提供商的功能", "Can perform type conversion to access provider-specific features");
    (* Common actions *)
    ("创建请求", "Create request");
    ("发送请求", "Send request");
    ("创建", "Create");
    ("获取", "Get");
    ("设置", "Set");
    ("检查", "Check");
    ("验证", "Validate");
    ("转换", "Convert");
    ("解析", "Parse");
    ("构建", "Build");
    ("初始化", "Initialize");
    (* Descriptions *)
    ("火山引擎使用 OpenAI 兼容的 API 格式，但端点路径不同", "Volcengine uses OpenAI-compatible API format, but with different endpoint paths");
    ("腾讯云混元使用 OpenAI 兼容的 API 格式", "Tencent Hunyuan uses OpenAI-compatible API format");
    ("Moonshot 使用 OpenAI 兼容的 API 格式", "Moonshot uses OpenAI-compatible API format");
    ("DeepSeek 使用 OpenAI 兼容的 API 格式，支持推理模型", "DeepSeek uses OpenAI-compatible API format, supports reasoning models");
    ("LongCat的Anthropic端点使用Bearer认证而不是标准的x-api-key认证", "LongCat's Anthropic endpoint uses Bearer authentication instead of standard x-api-key authentication");
    (* Additional translations *)
    ("支持多模态内容，包括文本、图片等", "Supports multi-modal content including text, images, etc.");
    ("一条消息可以包含多个内容块，支持文本、图片等多模态内容", "A message can contain multiple content blocks, supporting multi-modal content like text, images, etc.");
    ("可配置的协议适配器 - 配置驱动的抽象", "Configurable Protocol Adapter - Configuration-driven abstraction");
    ("这个模块提供了一个通用的协议适配器，通过配置来定制行为，", "This module provides a generic protocol adapter that customizes behavior through configuration,");
    ("可配置的协议适配器", "Configurable Protocol Adapter");
    ("包装一个基础协议，通过配置来修改其行为（端点路径、认证方式等）。", "Wraps a base protocol and modifies its behavior through configuration (endpoint paths, authentication methods, etc.).");
    ("协议配置", "Protocol Configuration");
    ("定义协议的静态配置，包括名称、端点、认证方式等。", "Defines static configuration for the protocol, including name, endpoints, authentication methods, etc.");
    ("端点配置", "Endpoint Configuration");
    ("定义 API 端点的路径模板，支持 `{base_url}` 变量替换。", "Defines API endpoint path templates, supporting `{base_url}` variable substitution.");
    ("支持变量: `{base_url}`", "Supports variable: `{base_url}`");
    ("认证配置", "Authentication Configuration");
    ("定义如何处理 API 认证。", "Defines how to handle API authentication.");
    ("Create新的可配置协议适配器", "Create new configurable protocol adapter");
    ("Create一个使用标准 OpenAI 端点和 Bearer 认证的配置。", "Create a configuration using standard OpenAI endpoints and Bearer authentication.");
    ("提供统一的HTTP通信层，支持标准请求和流式请求。", "Provides unified HTTP communication layer, supporting standard and streaming requests.");
    ("封装了HTTP通信的所有细节，包括认证、超时、代理等配置。", "Encapsulates all HTTP communication details, including authentication, timeout, proxy configuration, etc.");
    (* More common phrases *)
    ("支持", "Support");
    ("包含", "Contains");
    ("定义", "Define");
    ("提供", "Provide");
    ("使用", "Use");
    ("通过", "Through");
    ("包括", "Including");
    ("等", "etc.");
    (* Additional core terms *)
    ("协议名称", "Protocol name");
    ("模型列表端点模板（可选）", "Model list endpoint template (optional)");
    ("基础协议实例", "Base protocol instance");
    ("便捷构造器 - OpenAI 兼容协议", "Convenience constructor - OpenAI compatible protocol");
    ("从内部协议提取 token", "Extract token from internal protocol");
    ("这是一个辅助方法，用于从内部协议的认证头中提取 token。", "This is a helper method to extract token from the internal protocol's authentication headers.");
    ("HTTP客户端实现 - V2架构", "HTTP Client Implementation - V2 Architecture");
    ("HTTP客户端", "HTTP Client");
    ("Create新的HTTP客户端", "Create new HTTP client");
    ("Create带有自Define配置的HTTP客户端", "Create HTTP client with custom configuration");
    ("添加请求头", "Add request headers");
    ("添加单个请求头", "Add single request header");
    ("发送GET请求", "Send GET request");
    ("添加所有配置的请求头", "Add all configured request headers");
    ("发送POST请求", "Send POST request");
    ("发送流式POST请求", "Send streaming POST request");
    ("发送带有自Define头的POST请求", "Send POST request with custom headers");
    ("再添加配置的请求头 (可能会覆盖自Define头)", "Then add configured headers (may override custom headers)");
    ("HTTP客户端实现", "HTTP client implementation");
    ("协议trait - Define纯API规范", "Protocol trait - Defines pure API specification");
    ("这个trait代表一个LLM API的协议规范，如OpenAI API、Anthropic APIetc.。", "This trait represents an LLM API protocol specification, such as OpenAI API, Anthropic API, etc.");
    ("协议特定的请求类型", "Protocol-specific request type");
    ("协议特定的响应类型", "Protocol-specific response type");
    (("协议名称 (如 " ++ dq ++ "openai" ++ dq ++ ", " ++ dq ++ "anthropic" ++ dq ++ ")"), ("Protocol name (e.g., " ++ dq ++ "openai" ++ dq ++ ", " ++ dq ++ "anthropic" ++ dq ++ ")"));
    ("Get模型列表的端点URL (可选)", "Get model list endpoint URL (optional)");
    ("Build协议特定的请求", "Build protocol-specific request");
    ("Parse协议特定的响应", "Parse protocol-specific response");
    ("Parse模型列表响应", "Parse model list response");
    ("Parse流式响应 (可选)", "Parse streaming response (optional)");
    ("流式聊天完成", "Streaming chat completion");
    ("Get协议引用", "Get protocol reference");
    ("Get客户端引用", "Get client reference");
    ("Parse响应", "Parse response");
    ("Provide链式调用的 API 来Build Provider，统一处理所有配置项。", "Provides fluent API to build Provider, handling all configuration items uniformly.");
    ("协议实例", "Protocol instance");
    ("注意：这些头部会与协议的认证头部合并。", "Note: These headers will be merged with the protocol's authentication headers.");
    ("配置好的 GenericProvider 实例", "Configured GenericProvider instance");
    ("如果 HTTP 客户端Create失败，ReturnsErrors", "Returns error if HTTP client creation fails");
    ("Create HTTP 客户端", "Create HTTP client");
    ("CreateAliyun DashScope客户端", "Create Aliyun DashScope client");
    ("CreateZhipu GLM客户端", "Create Zhipu GLM client");
    ("CreateZhipu GLM客户端 (OpenAI兼容模式)", "Create Zhipu GLM client (OpenAI compatible mode)");
    ("CreateVolcengine（Volcengine）客户端", "Create Volcengine client");
    ("Create带有自Define配置的Volcengine客户端", "Create Volcengine client with custom configuration");
    ("CreateTencent Hunyuan（Tencent Hunyuan）客户端", "Create Tencent Hunyuan client");
    (* More patterns *)
    ("模型", "model");
    ("配置", "configuration");
    ("客户端", "client");
    ("协议", "protocol");
    ("适配器", "adapter");
    ("提供商", "provider");
    ("请求", "request");
    ("响应", "response");
    ("流式", "streaming");
    ("工具", "tool");
    ("函数", "function");
    ("调用", "call");
    ("端点", "endpoint");
    ("认证", "authentication");
    ("头部", "headers");
    ("实例", "instance");
    ("方法", "method");
    ("辅助", "helper");
    ("构造器", "constructor");
    ("便捷", "convenience");
    ("自Define", "custom");
    ("自定义", "custom");
    ("可选", "optional");
    ("注意", "Note");
    ("如果", "if");
    ("失败", "fails");
    ("成功", "success");
    ("错误", "error");
    ("返回", "return");
    ("等。", "etc.");
    ("如", "such as");
    ("例如", "e.g.");
    ("或", "or");
    ("和", "and");
    ("的", EmptyString);
    ("了", EmptyString);
    ("与", "with");
    ("为", "as");
    ("是", "is");
    ("在", "in");
    ("从", "from");
    ("到", "to");
    ("会", "will");
    ("可能", "may");
    ("所有", "all");
    ("这个", "this");
    ("这些", "these");
    ("一个", "a");
    ("用于", "for");
    ("来", "to");
    (* More specific translations *)
    ("消息内容块Define", "Message Content Block Definition");
    ("消息内容块", "Message Content Block");
    ("文本块", "Text block");
    ("图片块（Base64）", "Image block (Base64)");
    ("图片块（URL）", "Image block (URL)");
    ("图片块（Anthropic 格式）", "Image block (Anthropic format)");
    ("图片 URL 块（OpenAI 格式）", "Image URL block (OpenAI format)");
    ("Create文本块", "Create text block");
    ("Create Base64 图片块（Anthropic 格式）", "Create Base64 image block (Anthropic format)");
    (("媒体类型，such as " ++ dq ++ "image/jpeg" ++ dq ++ ", " ++ dq ++ "image/png" ++ dq), ("Media type, such as " ++ dq ++ "image/jpeg" ++ dq ++ ", " ++ dq ++ "image/png" ++ dq));
    ("Base64 编码图片数据", "Base64 encoded image data");
    ("Create图片 URL 块（Anthropic 格式）", "Create image URL block (Anthropic format)");
    ("Create图片 URL 块（OpenAI 格式）", "Create image URL block (OpenAI format)");
    ("Create图片 URL 块（OpenAI 格式，带 detail Parameters）", "Create image URL block (OpenAI format, with detail parameter)");
    ("图片 URL", "Image URL");
    (("图片细节级别，optional值: " ++ dq ++ "auto" ++ dq ++ ", " ++ dq ++ "low" ++ dq ++ ", " ++ dq ++ "high" ++ dq), ("Image detail level, optional values: " ++ dq ++ "auto" ++ dq ++ ", " ++ dq ++ "low" ++ dq ++ ", " ++ dq ++ "high" ++ dq));
    ("Get文本内容（ifis文本块）", "Get text content (if is text block)");
    ("判断is否as文本块", "Check if is text block");
    ("判断is否as图片块", "Check if is image block");
    ("图片to源（Anthropic 格式）", "Image source (Anthropic format)");
    ("Base64 编码图片", "Base64 encoded image");
    (("媒体类型，such as " ++ dq ++ "image/jpeg" ++ dq ++ ", " ++ dq ++ "image/png" ++ dq), ("Media type, such as " ++ dq ++ "image/jpeg" ++ dq ++ ", " ++ dq ++ "image/png" ++ dq));
    ("图片 URL", "Image URL");
    ("图片细节级别", "Image detail level");
    (("optional值: " ++ dq ++ "auto" ++ dq ++ ", " ++ dq ++ "low" ++ dq ++ ", " ++ dq ++ "high" ++ dq), ("Optional values: " ++ dq ++ "auto" ++ dq ++ ", " ++ dq ++ "low" ++ dq ++ ", " ++ dq ++ "high" ++ dq));
    ("Provider-specific reasoning content (GLM 风格)", "Provider-specific reasoning content (GLM style)");
    ("Provider-specific reasoning (Qwen/DeepSeek/OpenAI o1 通用键)", "Provider-specific reasoning (Qwen/DeepSeek/OpenAI o1 common key)");
    ("Provider-specific thought (OpenAI o1 键)", "Provider-specific thought (OpenAI o1 key)");
    ("Provider-specific thinking (Anthropic 键)", "Provider-specific thinking (Anthropic key)");
    ("Reasoning (Qwen/DeepSeek/OpenAI o1 通用键)", "Reasoning (Qwen/DeepSeek/OpenAI o1 common key)");
    ("Thought (OpenAI o1 键)", "Thought (OpenAI o1 key)");
    ("Thinking (Anthropic 键)", "Thinking (Anthropic key)");
    ("避免as每个 Provider 编写重复样板代码。", "Avoids writing repetitive boilerplate code for each Provider.");
    ("额外静态headers", "Additional static headers");
    ("聊天endpoint模板", "Chat endpoint template");
    (("例such as: `" ++ dq ++ "{base_url}/v1/chat/completions" ++ dq ++ "`"), ("Example: `" ++ dq ++ "{base_url}/v1/chat/completions" ++ dq ++ "`"));
    (("例such as: `" ++ dq ++ "{base_url}/v1/models" ++ dq ++ "`"), ("Example: `" ++ dq ++ "{base_url}/v1/models" ++ dq ++ "`"));
    ("生成: `Authorization: Bearer {token}`", "Generates: `Authorization: Bearer {token}`");
    ("生成: `{header_name}: {token}`", "Generates: `{header_name}: {token}`");
    ("Header 名称", "Header name");
    ("无authentication", "No authentication");
    ("customauthentication（Through闭包）", "Custom authentication (through closure)");
    ("闭包接收 token，Returnsheaders列表", "Closure receives token, returns headers list");
    (* Common word replacements *)
    ("我is豆包", "I am Doubao");
    ("风格", "style");
    ("通用键", "common key");
    ("键", "key");
    ("as", "as");
    ("is", "is");
    ("if", "if");
    ("to", "to");
    ("such as", "such as");
    ("例", "Example");
    ("such as", "such as");
    ("编码", "encoded");
    ("数据", "data");
    ("内容", "content");
    ("判断", "Check");
    ("否", "if");
    ("源", "source");
    ("级别", "level");
    ("值", "values");
    ("额外", "Additional");
    ("静态", "static");
    ("模板", "template");
    ("生成", "Generates");
    ("名称", "name");
    ("无", "No");
    ("接收", "receives");
    ("列表", "list");
    ("避免", "Avoids");
    ("每个", "each");
    ("编写", "writing");
    ("重复", "repetitive");
    ("样板", "boilerplate");
    ("代码", "code")
  ].

Local Close Scope string_scope.

Definition TRANSLATIONS : dict :=
  Eval vm_compute in dict_display TRANSLATIONS_display.

(** The loop of [translate_line], over an arbitrary table. *)
Definition translate_line_with (table : dict) (line : str) : str :=
  fold_left
    (fun line kv =>
       let '(chinese, english) := kv in
       if str_contains chinese line then str_replace chinese english line
       else line)
    (items table) line.

Definition translate_line (line : str) : str :=
  translate_line_with TRANSLATIONS line.

(** The pure part of [translate_file]: split, translate each line, join. *)
Definition translate_content_with (table : dict) (content : str) : str :=
  let lines := split NL content in
  let translated_lines := map (translate_line_with table) lines in
  join [NL] translated_lines.

Definition translate_content (content : str) : str :=
  translate_content_with TRANSLATIONS content.

(** [translate_file] on a file holding [content]: the content of the file
    afterwards and the returned flag.  The file is written only when the
    translation differs. *)
Definition translate_file (content : str) : str * bool :=
  let translated_content := translate_content content in
  if negb (str_eqb translated_content content)
  then (translated_content, true)
  else (content, false).

(** ** Regular expressions, as far as the patterns of the source use them *)

(** [\s] on a [str] pattern: [str.isspace]. *)
Definition is_space (c : codepoint) : bool :=
  ((9 <=? c) && (c <=? 13)) || ((28 <=? c) && (c <=? 32))
  || (c =? 133) || (c =? 160) || (c =? 5760)
  || ((8192 <=? c) && (c <=? 8202))
  || (c =? 8232) || (c =? 8233) || (c =? 8239) || (c =? 8287) || (c =? 12288).

Definition ascii_alnum (c : codepoint) : bool :=
  ((48 <=? c) && (c <=? 57)) || ((65 <=? c) && (c <=? 90))
  || ((97 <=? c) && (c <=? 122)).

(** Character classes: [\w], [\s] and [[^c]]. *)
Inductive cclass : Type := Word | Space | NotChar (c : codepoint).

(** A pattern is a sequence of atoms: a literal character, [class*], or a
    capturing group [(class+)]. *)
Inductive atom : Type :=
| Chr (c : codepoint)
| Star (k : cclass)
| Group (k : cclass).

Definition regex := list atom.

Definition lit (s : string) : regex := map Chr (u s).

(** The characters with a meaning of their own in a pattern. *)
Definition is_special (c : codepoint) : bool :=
  existsb (N.eqb c) (u ".^$*+?{}[]\|()").

Definition is_quantifier (c : codepoint) : bool :=
  existsb (N.eqb c) (u "*+?{").

(** A literal character stands for itself when no quantifier follows. *)
Definition literal (c : codepoint) (rest : str) (p : option regex)
  : option regex :=
  match rest with
  | q :: _ => if is_quantifier q then None else option_map (cons (Chr c)) p
  | [] => option_map (cons (Chr c)) p
  end.

(** [re.compile], on the part of the syntax that the patterns of the source
    are written in: literal characters, escaped special characters, a class
    [\s], [\w] or [[^c]] under [*], and a capturing group around such a
    class under [+].  A pattern outside this part is refused with [None].
    The code points are 92 for the backslash, 115 [s], 119 [w], 42 [*],
    43 [+], 40 and 41 the parentheses, 91 and 93 the brackets, 94 [^]. *)
Fixpoint re_parse (pattern : str) : option regex :=
  match pattern with
  | [] => Some []
  | 92 :: 115 :: 42 :: rest => option_map (cons (Star Space)) (re_parse rest)
  | 92 :: 119 :: 42 :: rest => option_map (cons (Star Word)) (re_parse rest)
  | 91 :: 94 :: c :: 93 :: 42 :: rest =>
      option_map (cons (Star (NotChar c))) (re_parse rest)
  | 40 :: 92 :: 115 :: 43 :: 41 :: rest =>
      option_map (cons (Group Space)) (re_parse rest)
  | 40 :: 92 :: 119 :: 43 :: 41 :: rest =>
      option_map (cons (Group Word)) (re_parse rest)
  | 40 :: 91 :: 94 :: c :: 93 :: 43 :: 41 :: rest =>
      option_map (cons (Group (NotChar c))) (re_parse rest)
  | 92 :: c :: rest =>
      if is_special c then literal c rest (re_parse rest) else None
  | c :: rest =>
      if is_special c then None else literal c rest (re_parse rest)
  end.

Definition groups (p : regex) : nat :=
  List.length (filter (fun a => match a with Group _ => true | _ => false end) p).

(** A replacement template: literal characters and group references [\n]. *)
Inductive titem : Type :=
| TChr (c : codepoint)
| TRef (n : nat).

Definition template := list titem.

(** The template of a replacement string: [\1] to [\9] refer to a group
    (a longer number, and any other escape, is refused); any other character
    stands for itself. *)
Fixpoint template_parse (repl : str) : option template :=
  match repl with
  | [] => Some []
  | 92 :: d :: rest =>
      if (49 <=? d) && (d <=? 57) then
        match rest with
        | d' :: _ =>
            if (48 <=? d') && (d' <=? 57) then None
            else option_map (cons (TRef (N.to_nat (d - 48))))
                   (template_parse rest)
        | [] => Some [TRef (N.to_nat (d - 48))]
        end
      else None
  | c :: rest => option_map (cons (TChr c)) (template_parse rest)
  end.

Inductive exn : Type :=
| re_error_unsupported_pattern
| re_error_unsupported_template
| re_error_invalid_group_reference (n : nat).

Inductive result (A : Type) : Type :=
| Ok (a : A)
| Raise (e : exn).

Arguments Ok {A} a.
Arguments Raise {A} e.

Definition bind {A B : Type} (r : result A) (f : A -> result B) : result B :=
  match r with
  | Ok a => f a
  | Raise e => Raise e
  end.

Notation "x <- r ;; k" := (bind r (fun x => k))
  (at level 61, r at next level, right associativity).

(** The first group reference of a template that the pattern lacks. *)
Fixpoint bad_reference (ngroups : nat) (t : template) : option nat :=
  match t with
  | [] => None
  | TChr _ :: t' => bad_reference ngroups t'
  | TRef n :: t' =>
      if ((1 <=? n) && (n <=? ngroups))%nat then bad_reference ngroups t'
      else Some n
  end.

Definition expand (t : template) (caps : list str) : str :=
  flat_map (fun i => match i with
                     | TChr c => [c]
                     | TRef n => nth (n - 1) caps []
                     end) t.

(** [str.isalnum] beyond ASCII is a table of the Unicode database; the
    development holds for any such table. *)
Class UnicodeData : Type := { unicode_alnum : codepoint -> bool }.

Section Engine.

Context {ud : UnicodeData}.

(** [\w] on a [str] pattern: alphanumeric or underscore. *)
Definition is_word (c : codepoint) : bool :=
  if c <? 128 then ascii_alnum c || (c =? 95) else unicode_alnum c.

Definition in_class (k : cclass) (c : codepoint) : bool :=
  match k with
  | Word => is_word c
  | Space => is_space c
  | NotChar x => negb (c =? x)
  end.

(** Greedy repetition with backtracking: take as many characters of the
    class as possible, and give one back at a time while the continuation
    fails. *)
Fixpoint rep {R : Type} (inclass : codepoint -> bool)
    (cont : str -> str -> option R) (taken s : str) : option R :=
  match s with
  | c :: s' =>
      if inclass c then
        match rep inclass cont (taken ++ [c]) s' with
        | Some r => Some r
        | None => cont taken s
        end
      else cont taken s
  | [] => cont taken s
  end.

(** [pattern.match] at the start of [s]: the captured groups and the text
    left after the match. *)
Fixpoint match_here (p : regex) (caps : list str) (s : str)
  : option (list str * str) :=
  match p with
  | [] => Some (caps, s)
  | Chr c :: p' =>
      match s with
      | x :: s' => if x =? c then match_here p' caps s' else None
      | [] => None
      end
  | Star k :: p' =>
      rep (in_class k) (fun _ rest => match_here p' caps rest) [] s
  | Group k :: p' =>
      rep (in_class k)
        (fun taken rest =>
           match taken with
           | [] => None
           | _ :: _ => match_here p' (caps ++ [taken]) rest
           end) [] s
  end.

Definition re_match (p : regex) (s : str) : option (list str * str) :=
  match_here p [] s.

(** The scan of [re.sub]: at each position the pattern is tried; a match
    is replaced and the scan goes on behind it ([skip] counts the matched
    characters still to pass); an empty match is replaced and the next
    character copied. *)
Fixpoint sub_scan (p : regex) (t : template) (skip : nat) (s : str) : str :=
  match skip with
  | S n =>
      match s with
      | [] => []
      | _ :: s' => sub_scan p t n s'
      end
  | O =>
      match re_match p s with
      | Some (caps, rest) =>
          match s with
          | [] => expand t caps
          | c :: s' =>
              match (List.length s - List.length rest)%nat with
              | O => expand t caps ++ c :: sub_scan p t 0 s'
              | S n => expand t caps ++ sub_scan p t n s'
              end
          end
      | None =>
          match s with
          | [] => []
          | c :: s' => c :: sub_scan p t 0 s'
          end
      end
  end.

(** [re.sub(pattern, repl, string)]: the pattern is compiled and the
    template checked against its groups before the scan. *)
Definition re_sub (pattern repl : str) (s : str) : result str :=
  match re_parse pattern with
  | None => Raise re_error_unsupported_pattern
  | Some p =>
      match template_parse repl with
      | None => Raise re_error_unsupported_template
      | Some t =>
          match bad_reference (groups p) t with
          | Some n => Raise (re_error_invalid_group_reference n)
          | None => Ok (sub_scan p t 0 s)
          end
      end
  end.

(** [re.search(pattern, s) is not None]. *)
Fixpoint re_search (p : regex) (s : str) : bool :=
  match re_match p s with
  | Some _ => true
  | None => match s with
            | [] => false
            | _ :: s' => re_search p s'
            end
  end.

(** ** fix_message_construction.py *)

Local Open Scope string_scope.

(** The patterns and replacements of the source, as written there. *)
Definition pattern1 : str :=
  Eval vm_compute in
  u ("Message\s*\{\s*role:\s*Role::(\w+),\s*content:\s*" ++ dq ++ "([^" ++ dq
     ++ "]+)" ++ dq ++ "\.to_string\(\),\s*\.\.Default::default\(\)\s*\}").

Definition replacement1 : str :=
  Eval vm_compute in
  u ("Message::text(Role::\1, " ++ dq ++ "\2" ++ dq ++ ")").

Definition pattern2 : str :=
  Eval vm_compute in
  u ("Message\s*\{\s*role:\s*Role::(\w+),\s*content:\s*(\w+)"
     ++ "\.to_string\(\),\s*\.\.Default::default\(\)\s*\}").

Definition replacement2 : str :=
  Eval vm_compute in u "Message::text(Role::\1, \2)".

Definition pattern3 : str :=
  Eval vm_compute in
  u ("Message\s*\{\s*role:\s*Role::(\w+),\s*content:\s*" ++ dq ++ "([^" ++ dq
     ++ "]+)" ++ dq ++ "\.to_string\(\),\s*name:\s*None,\s*tool_calls:\s*None,"
     ++ "\s*tool_call_id:\s*None,\s*reasoning_content:\s*None,"
     ++ "\s*reasoning:\s*None,\s*thought:\s*None,\s*thinking:\s*None,\s*\}").

Definition replacement3 : str :=
  Eval vm_compute in
  u ("Message::text(Role::\1, " ++ dq ++ "\2" ++ dq ++ ")").

(** The compiled patterns and templates. *)
Definition compiled (pattern : str) : regex :=
  match re_parse pattern with
  | Some p => p
  | None => []
  end.

Definition template_of (repl : str) : template :=
  match template_parse repl with
  | Some t => t
  | None => []
  end.

Definition regex1 : regex := Eval vm_compute in compiled pattern1.
Definition regex2 : regex := Eval vm_compute in compiled pattern2.
Definition regex3 : regex := Eval vm_compute in compiled pattern3.
Definition template1 : template := Eval vm_compute in template_of replacement1.
Definition template2 : template := Eval vm_compute in template_of replacement2.
Definition template3 : template := Eval vm_compute in template_of replacement3.

(** The parts that the patterns are made of.  DQ stands for the double
    quote in the patterns quoted here. *)
Definition NotDQuote : cclass := NotChar DQ.

(** [Message\s*\{\s*role:\s*Role::(\w+),\s*content:\s*] *)
Definition message_head : regex :=
  Eval vm_compute in
  (lit "Message" ++ [Star Space] ++ lit "{" ++ [Star Space]
   ++ lit "role:" ++ [Star Space] ++ lit "Role::" ++ [Group Word]
   ++ lit "," ++ [Star Space] ++ lit "content:" ++ [Star Space])%list.

(** [DQ([^DQ]+)DQ] *)
Definition quoted_literal : regex :=
  Eval vm_compute in (lit dq ++ [Group NotDQuote] ++ lit dq)%list.

(** [\.to_string\(\),\s*\.\.Default::default\(\)\s*\}] *)
Definition default_tail : regex :=
  Eval vm_compute in
  (lit ".to_string()," ++ [Star Space] ++ lit "..Default::default()"
   ++ [Star Space] ++ lit "}")%list.

(** [\.to_string\(\),\s*name:\s*None,\s*tool_calls:\s*None,\s*tool_call_id:\s*None,\s*reasoning_content:\s*None,\s*reasoning:\s*None,\s*thought:\s*None,\s*thinking:\s*None,\s*\}] *)
Definition explicit_tail : regex :=
  Eval vm_compute in
  (lit ".to_string()," ++ [Star Space]
   ++ lit "name:" ++ [Star Space] ++ lit "None," ++ [Star Space]
   ++ lit "tool_calls:" ++ [Star Space] ++ lit "None," ++ [Star Space]
   ++ lit "tool_call_id:" ++ [Star Space] ++ lit "None," ++ [Star Space]
   ++ lit "reasoning_content:" ++ [Star Space] ++ lit "None," ++ [Star Space]
   ++ lit "reasoning:" ++ [Star Space] ++ lit "None," ++ [Star Space]
   ++ lit "thought:" ++ [Star Space] ++ lit "None," ++ [Star Space]
   ++ lit "thinking:" ++ [Star Space] ++ lit "None," ++ [Star Space]
   ++ lit "}")%list.

Local Close Scope string_scope.

Definition fix_message_construction (content : str) : result str :=
  content <- re_sub pattern1 replacement1 content ;;
  content <- re_sub pattern2 replacement2 content ;;
  content <- re_sub pattern3 replacement3 content ;;
  Ok content.

(** The body of the loop of [main] for one file holding [content]: the
    content of the file afterwards and whether it counted as fixed. *)
Definition fix_file (content : str) : result (str * bool) :=
  new_content <- fix_message_construction content ;;
  if negb (str_eqb content new_content)
  then Ok (new_content, true)
  else Ok (content, false).

(** The three substitutions in the order in which the function performs
    them. *)
Definition rules : list (str * str) :=
  [(pattern1, replacement1); (pattern2, replacement2);
   (pattern3, replacement3)].



(** ** Orchestration *)

Inductive mode : Type := StructuralOnly | LexicalOnly | StructuralThenLexical.

(** Modelled from the spec: the sources hold two scripts, each running one
    policy and comparing its result with the content read; [process] of
    section 4.3 applies 4.1 then 4.2, or either alone depending on the mode,
    and reports [changed] as [result != original]. *)
Definition process (m : mode) (original : str) : result (str * bool) :=
  rewritten <-
    match m with
    | StructuralOnly => fix_message_construction original
    | LexicalOnly => Ok (translate_content original)
    | StructuralThenLexical =>
        text <- fix_message_construction original ;;
        Ok (translate_content text)
    end ;;
  Ok (rewritten, negb (str_eqb rewritten original)).

(** ** Declarative reading of the patterns *)

(** [Matches p m gs]: the text [m] is matched by [p] as a whole, the groups
    capturing [gs]. *)
Inductive Matches : regex -> str -> list str -> Prop :=
| M_nil : Matches [] [] []
| M_chr c p m gs :
    Matches p m gs -> Matches (Chr c :: p) (c :: m) gs
| M_star k p w m gs :
    forallb (in_class k) w = true ->
    Matches p m gs -> Matches (Star k :: p) (w ++ m) gs
| M_group k p w m gs :
    w <> [] -> forallb (in_class k) w = true ->
    Matches p m gs -> Matches (Group k :: p) (w ++ m) (w :: gs).

(** A pattern occurs in a text when some substring matches it. *)
Definition occurs (p : regex) (text : str) : Prop :=
  exists pre m gs post, text = pre ++ m ++ post /\ Matches p m gs.

(** The text of a pattern with the [\s*] of the pattern filled, in order,
    by [gaps] and its groups by [caps]. *)
Fixpoint render (p : regex) (gaps caps : list str) : str :=
  match p with
  | [] => []
  | Chr c :: p' => c :: render p' gaps caps
  | Star _ :: p' => hd [] gaps ++ render p' (tl gaps) caps
  | Group _ :: p' => hd [] caps ++ render p' gaps (tl caps)
  end.

Definition nonempty (s : str) : bool :=
  match s with [] => false | _ :: _ => true end.

Definition all_space (gaps : list str) : bool :=
  forallb (forallb is_space) gaps.

Fixpoint drop {A : Type} (n : nat) (l : list A) : list A :=
  match n with
  | O => l
  | S n' => drop n' (tl l)
  end.

Definition stars (p : regex) : nat :=
  List.length (filter (fun a => match a with Star _ => true | _ => false end) p).

(** The fillings suit the pattern: each gap and each capture is made of
    characters of its class, and a capture is not empty. *)
Fixpoint fits (p : regex) (gaps caps : list str) : bool :=
  match p with
  | [] => true
  | Chr _ :: p' => fits p' gaps caps
  | Star k :: p' =>
      forallb (in_class k) (hd [] gaps) && fits p' (tl gaps) caps
  | Group k :: p' =>
      match hd [] caps with
      | [] => false
      | w => forallb (in_class k) w && fits p' gaps (tl caps)
      end
  end.

(** The captures alone suit the groups of the pattern, and every [class*]
    of the pattern is a [\s*]. *)
Fixpoint caps_fit (p : regex) (caps : list str) : bool :=
  match p with
  | [] => true
  | Chr _ :: p' | Star _ :: p' => caps_fit p' caps
  | Group k :: p' =>
      nonempty (hd [] caps) && forallb (in_class k) (hd [] caps)
      && caps_fit p' (tl caps)
  end.

Definition only_space_stars (p : regex) : bool :=
  forallb (fun a => match a with
                    | Star Space => true
                    | Star _ => false
                    | _ => true
                    end) p.

(** The number of occurrences of a character. *)
Definition count (c : codepoint) (s : str) : nat :=
  List.length (filter (N.eqb c) s).

(** A role name: one or more word characters. *)
Definition role_name (role : str) : bool :=
  nonempty role && forallb is_word role.

(** The content of a quoted literal that the patterns capture: one or more
    characters, none of them a double quote. *)
Definition plain_literal (content : str) : bool :=
  nonempty content && forallb (fun c => negb (c =? DQ)) content.

(** The constructs with a quoted literal: the text of the first and of the
    third pattern, with the white space [gaps] where the pattern has [\s*],
    a role and the content of the literal. *)
Definition shorthand_construct (gaps : list str) (role content : str) : str :=
  render regex1 gaps [role; content].

Definition explicit_construct (gaps : list str) (role content : str) : str :=
  render regex3 gaps [role; content].

(** [Message::text(Role::role, DQ content DQ)] *)
Definition message_text (role content : str) : str :=
  expand template1 [role; content].

(** Every repetition of the pattern is followed by a literal character
    outside its class: the pattern can be read in one way only. *)
Fixpoint deterministic (p : regex) : bool :=
  match p with
  | [] => true
  | Chr _ :: p' => deterministic p'
  | Star k :: p' | Group k :: p' =>
      match p' with
      | Chr x :: _ => negb (in_class k x) && deterministic p'
      | _ => false
      end
  end.



(** The literal characters of a pattern, and whether a class of the pattern
    admits a given character. *)
Definition literals (p : regex) : str :=
  flat_map (fun a => match a with Chr c => [c] | _ => [] end) p.

Definition classes_exclude (c : codepoint) (p : regex) : bool :=
  forallb (fun a => match a with
                    | Chr _ => true
                    | Star k | Group k => negb (in_class k c)
                    end) p.

Definition mem (c : codepoint) (s : str) : bool := existsb (N.eqb c) s.

(** A text on which no rule of either policy has anything to do. *)
Definition no_structural_pattern (s : str) : bool :=
  negb (re_search regex1 s) && negb (re_search regex2 s)
  && negb (re_search regex3 s).

Definition no_table_key (table : dict) (s : str) : bool :=
  forallb (fun k => negb (str_contains k s)) (keys table).

(** As [no_table_key], but a key that maps to itself may occur. *)
Definition no_effective_key (table : dict) (s : str) : bool :=
  forallb (fun kv => negb (str_contains (fst kv) s) || str_eqb (fst kv) (snd kv))
    (items table).

Definition LBRACE : codepoint := 123.
Definition RBRACE : codepoint := 125.

(** No value of the table holds a newline. *)
Definition newline_free_values (table : dict) : bool :=
  forallb (fun v => negb (mem NL v)) (values table).

(** A literal that no pattern can capture as it stands: empty, or holding
    a double quote (and then no brace). *)
Definition unmatched_literal (content : str) : bool :=
  negb (nonempty content)
  || (mem DQ content && negb (mem LBRACE content)
      && negb (mem RBRACE content)).

(** The result of a match, with the text behind a double quote put back
    behind what the match left. *)
Definition behind_quote (rest : str) (o : option (list str * str))
  : option (list str * str) :=
  option_map (fun gr => (fst gr, snd gr ++ DQ :: rest)) o.

(** The literal characters of a template. *)
Definition template_chars (t : template) : str :=
  flat_map (fun i => match i with TChr c => [c] | TRef _ => [] end) t.

(** ** Sample texts *)

Local Open Scope string_scope.

Definition User : str := Eval vm_compute in u "User".
Definition hi : str := Eval vm_compute in u "hi".

(** One space in every gap of a pattern. *)
Definition single_spaces : list str := repeat [32] 20.

(** The scenario of the specification. *)
Definition shorthand_sample : str :=
  Eval vm_compute in
  u ("Message { role: Role::User, content: " ++ dq ++ "hi" ++ dq
     ++ ".to_string(), ..Default::default() }").

Definition shorthand_result : str :=
  Eval vm_compute in
  u ("Message::text(Role::User, " ++ dq ++ "hi" ++ dq ++ ")").

Definition bare_sample : str :=
  Eval vm_compute in
  u "Message { role: Role::User, content: text.to_string(), ..Default::default() }".


(** A role followed by a space before the comma. *)
Definition spaced_comma_sample : str :=
  Eval vm_compute in
  u ("Message { role: Role::User , content: " ++ dq ++ "hi" ++ dq
     ++ ".to_string(), ..Default::default() }").

(** A bare-variable construct, as the content of a literal. *)
Definition bare_construct : str :=
  Eval vm_compute in
  u "Message{role:Role::A,content:v.to_string(),..Default::default()}".


(** The content of the Rust literal that is written
    [DQ x\DQ.to_string(), ..Default::default() }DQ]: an escaped double quote
    followed by the rest of the shorthand. *)
Definition escaped_quote_literal : str :=
  Eval vm_compute in
  u ("x" ++ bs ++ dq ++ ".to_string(), ..Default::default() }").

Definition escaped_quote_result : str :=
  Eval vm_compute in
  u ("Message::text(Role::User, " ++ dq ++ "x" ++ bs ++ dq ++ ")" ++ dq
     ++ ".to_string(), ..Default::default() }").

(** A shorthand construct whose literal is the beginning of another one,
    followed by the end of that other one. *)
Definition chained_sample : str :=
  Eval vm_compute in
  u ("Message { role: Role::A, content: " ++ dq
     ++ "Message { role: Role::B, content: " ++ dq
     ++ ".to_string(), ..Default::default() }" ++ dq
     ++ ".to_string(), ..Default::default() }").



(** A literal with an escaped double quote. *)
Definition escaped_quote_short : str :=
  Eval vm_compute in u ("a" ++ bs ++ dq ++ "b").

Local Close Scope string_scope.

End Engine.

(** A fragment of the Unicode table: the CJK unified ideographs are
    alphanumeric. *)
Definition cjk_alnum (c : codepoint) : bool :=
  (19968 <=? c) && (c <=? 40959).

Definition cjk_table : UnicodeData := {| unicode_alnum := cjk_alnum |}.

(** ** Measures of a text *)

(** The weight of a text under a weight of its characters. *)
Definition weight (w : codepoint -> Z) (s : str) : Z :=
  fold_right (fun c acc => (w c + acc)%Z) 0%Z s.

Definition LPAREN : codepoint := 40.
Definition RPAREN : codepoint := 41.

(** Opening minus closing characters. *)
Definition balance (opening closing : codepoint) (s : str) : Z :=
  (Z.of_nat (count opening s) - Z.of_nat (count closing s))%Z.

Definition balance_weight (opening closing c : codepoint) : Z :=
  if c =? opening then 1%Z else if c =? closing then (-1)%Z else 0%Z.

Definition count_weight (x c : codepoint) : Z :=
  if c =? x then 1%Z else 0%Z.

Definition is_ascii (s : str) : bool := forallb (fun c => c <? 128) s.

(** The number of characters outside ASCII. *)
Definition non_ascii (s : str) : nat :=
  List.length (filter (fun c => 128 <=? c) s).





(** Every entry of the table maps its key to itself, or replaces a key
    that holds a character outside ASCII by ASCII text. *)
Definition ascii_target (table : dict) : bool :=
  forallb (fun kv => str_eqb (fst kv) (snd kv)
                     || (negb (is_ascii (fst kv)) && is_ascii (snd kv)))
    (items table).

(** The group references of a template. *)
Definition refs (t : template) : list nat :=
  flat_map (fun i => match i with TChr _ => [] | TRef n => [n] end) t.

(** The literal text [w] stands in the pattern: at its start, and
    anywhere. *)
Fixpoint starts_with_run (w : str) (p : regex) : bool :=
  match w with
  | [] => true
  | c :: w' =>
      match p with
      | Chr x :: p' => (c =? x) && starts_with_run w' p'
      | _ => false
      end
  end.

Fixpoint has_run (w : str) (p : regex) : bool :=
  starts_with_run w p
  || match p with
     | [] => false
     | _ :: p' => has_run w p'
     end.

(** The last atom of a pattern is the literal character [c]. *)
Fixpoint ends_with_chr (c : codepoint) (p : regex) : bool :=
  match p with
  | [] => false
  | [Chr x] => x =? c
  | _ :: p' => ends_with_chr c p'
  end.

(** The result of a match, with a text put behind what the match left. *)
Definition followed_by (post : str) (o : option (list str * str))
  : option (list str * str) :=
  option_map (fun gr => (fst gr, snd gr ++ post)) o.

(** The letter that every pattern begins with. *)
Definition CAPITAL_M : codepoint := 77.

(** Literal texts that all three patterns hold. *)
Definition keywords : list str :=
  Eval vm_compute in
  map u ["Message"; "role:"; "Role::"; "content:"; ".to_string(),"]%string.

Section Scripts.

Context {ud : UnicodeData}.

(** The construct of the second pattern, with the white space [gaps] where
    the pattern has [\s*], a role and a variable; and the text of the second
    replacement, [Message::text(Role::role, variable)]. *)
Definition bare_variable_construct (gaps : list str) (role variable : str)
  : str :=
  render regex2 gaps [role; variable].

Definition message_text_bare (role variable : str) : str :=
  expand template2 [role; variable].

(** The name of a variable as the second pattern takes it: one or more
    word characters.  The [\s*] before the name is greedy, so the name does
    not begin with white space (in the Unicode database no alphanumeric
    character is white space). *)
Definition variable_name (variable : str) : bool :=
  role_name variable
  && match variable with
     | c :: _ => negb (is_space c)
     | [] => false
     end.

(** A repetition of the class [k] stops in front of the text [s]. *)
Definition stops (k : cclass) (s : str) : bool :=
  match s with
  | [] => true
  | c :: _ => negb (in_class k c)
  end.

(** Every repetition of the pattern stops where its filling ends, when the
    pattern is followed by [rest]: the greedy reading is the filling. *)
Fixpoint greedy (p : regex) (gaps caps : list str) (rest : str) : bool :=
  match p with
  | [] => true
  | Chr _ :: p' => greedy p' gaps caps rest
  | Star k :: p' =>
      stops k (render p' (tl gaps) caps ++ rest)
      && greedy p' (tl gaps) caps rest
  | Group k :: p' =>
      stops k (render p' gaps (tl caps) ++ rest)
      && greedy p' gaps (tl caps) rest
  end.

(** The same, read off the pattern and the captures alone: a repetition
    is followed by a literal character outside its class, or by a group
    whose capture begins outside its class. *)
Definition follows (k : cclass) (p : regex) (caps : list str) : bool :=
  match p with
  | Chr x :: _ => negb (in_class k x)
  | Group _ :: _ =>
      match hd [] caps with
      | c :: _ => negb (in_class k c)
      | [] => false
      end
  | _ => false
  end.

Fixpoint separated (p : regex) (caps : list str) : bool :=
  match p with
  | [] => true
  | Chr _ :: p' => separated p' caps
  | Star k :: p' => follows k p' caps && separated p' caps
  | Group k :: p' => follows k p' (tl caps) && separated p' (tl caps)
  end.

(** The script run [n] times on a text. *)
Fixpoint fix_repeatedly (n : nat) (content : str) : result str :=
  match n with
  | O => Ok content
  | S n' =>
      content <- fix_message_construction content ;;
      fix_repeatedly n' content
  end.

Fixpoint translate_repeatedly (n : nat) (content : str) : str :=
  match n with
  | O => content
  | S n' => translate_repeatedly n' (fst (translate_file content))
  end.



(** ** The [main] functions *)

(** A directory as the scripts see it: its regular files, by name (under
    [rglob], by path), each with the text that reading gives, in the order in
    which [glob] yields them. *)
Definition directory := list (str * str).

(** [s.endswith(suffix)]. *)
Definition endswith (suffix s : str) : bool :=
  match strip_prefix (rev suffix) (rev s) with
  | Some _ => true
  | None => false
  end.

(** The names that [glob] and [rglob] yield for [*.rs]: those that end in
    [.rs], names with a leading dot among them. *)
Definition rs_suffix : str := Eval vm_compute in u ".rs".

Definition is_rs (name : str) : bool := endswith rs_suffix name.

(** [print(line)] on the standard output so far. *)
Definition print (line : str) (stdout : str) : str :=
  stdout ++ line ++ [NL].

(** [str(n)] for a count. *)
Definition str_of_nat (n : nat) : str :=
  u (NilEmpty.string_of_uint (Nat.to_uint n)).

(** How [main] ends: by returning, or by [sys.exit(code)]. *)
Inductive termination : Type :=
| Returned
| SystemExit (code : N).

Local Open Scope string_scope.

(** The texts that the scripts print. *)
Definition missing_text : str := Eval vm_compute in u "❌ examples 目录不存在".
Definition start_text : str :=
  Eval vm_compute in u "🔧 批量修复 Message 构造...".
Definition fixed_mark : str := Eval vm_compute in u "  ✅ ".
Definition done_text : str := Eval vm_compute in u "✅ 修复完成！共修复 ".
Definition files_text : str := Eval vm_compute in u " 个文件".
Definition translated_text : str := Eval vm_compute in u "Translated: ".
Definition total_text : str :=
  Eval vm_compute in u "Total files translated: ".
Definition slash : str := Eval vm_compute in u "/".

Local Close Scope string_scope.

Definition fixed_line (name : str) : str := fixed_mark ++ name.

Definition fixed_summary (fixed_count : nat) : str :=
  done_text ++ str_of_nat fixed_count ++ files_text.

(** The loop of [main] in [fix_message_construction.py] over the entries
    of the directory: the entries afterwards, the output and the count. *)
Fixpoint fix_loop (entries : directory) (stdout : str) (fixed_count : nat)
  : result (directory * str * nat) :=
  match entries with
  | [] => Ok ([], stdout, fixed_count)
  | (name, content) :: rest =>
      if is_rs name then
        new_content <- fix_message_construction content ;;
        if negb (str_eqb content new_content) then
          r <- fix_loop rest (print (fixed_line name) stdout)
                 (S fixed_count) ;;
          Ok ((name, new_content) :: fst (fst r), snd (fst r), snd r)
        else
          r <- fix_loop rest stdout fixed_count ;;
          Ok ((name, content) :: fst (fst r), snd (fst r), snd r)
      else
        r <- fix_loop rest stdout fixed_count ;;
        Ok ((name, content) :: fst (fst r), snd (fst r), snd r)
  end.

(** [main] of [fix_message_construction.py] on the directory [examples],
    [None] when there is none: the directory afterwards, the output, and how
    the function ends. *)
Definition fix_main (examples : option directory)
  : result (option directory * str * termination) :=
  match examples with
  | None =>
      Ok (None, print missing_text [], SystemExit 1)
  | Some entries =>
      let stdout := print start_text [] in
      let stdout := print [] stdout in
      r <- fix_loop entries stdout 0 ;;
      let stdout := print [] (snd (fst r)) in
      let stdout := print (fixed_summary (snd r)) stdout in
      Ok (Some (fst (fst r)), stdout, Returned)
  end.

Definition translated_line (filepath : str) : str :=
  translated_text ++ filepath.

Definition translated_summary (translated_count total : nat) : str :=
  NL :: total_text ++ str_of_nat translated_count ++ slash
  ++ str_of_nat total.

(** [list(src_dir.rglob('*.rs'))]: nothing when there is no directory. *)
Definition rust_files (src : option directory) : directory :=
  match src with
  | Some tree => filter (fun e => is_rs (fst e)) tree
  | None => []
  end.

(** The loop of [main] in [translate_rust_comments.py], over the files
    under [src]. *)
Fixpoint translate_loop (tree : directory) (stdout : str)
    (translated_count : nat) : directory * str * nat :=
  match tree with
  | [] => ([], stdout, translated_count)
  | (filepath, content) :: rest =>
      if is_rs filepath then
        if snd (translate_file content) then
          let r := translate_loop rest (print (translated_line filepath) stdout)
                     (S translated_count) in
          ((filepath, fst (translate_file content)) :: fst (fst r),
           snd (fst r), snd r)
        else
          let r := translate_loop rest stdout translated_count in
          ((filepath, content) :: fst (fst r), snd (fst r), snd r)
      else
        let r := translate_loop rest stdout translated_count in
        ((filepath, content) :: fst (fst r), snd (fst r), snd r)
  end.

(** [main] of [translate_rust_comments.py] on the files under [src]. *)
Definition translate_main (src : option directory)
  : option directory * str :=
  let tree := match src with Some tree => tree | None => [] end in
  let r := translate_loop tree [] 0 in
  (option_map (fun _ => fst (fst r)) src,
   print (translated_summary (snd r) (List.length (rust_files src)))
     (snd (fst r))).

(** The names of the entries whose text differs between two listings of
    one directory. *)
Definition changed_names (before after : directory) : list str :=
  map (fun ee => fst (fst ee))
    (filter (fun ee => negb (str_eqb (snd (fst ee)) (snd (snd ee))))
       (combine before after)).

(** What [main] does to an entry.  The name stays.  The text of an entry
    whose name ends in [.rs] becomes the rewritten text, the text of any
    other entry stays; and a text that has changed is shorter by 39
    characters or more.  For the translation: the text of an entry whose
    name ends in [.rs] becomes the translated text, and a text that has
    changed holds fewer characters outside ASCII. *)
Definition rewritten_entry (before after : str * str) : Prop :=
  fst after = fst before
  /\ (if is_rs (fst before)
      then fix_message_construction (snd before) = Ok (snd after)
      else snd after = snd before)
  /\ (snd after = snd before
      \/ (List.length (snd after) + 39 <= List.length (snd before))%nat).

Definition translated_entry (before after : str * str) : Prop :=
  fst after = fst before
  /\ snd after = (if is_rs (fst before)
                  then translate_content (snd before)
                  else snd before)
  /\ (snd after = snd before
      \/ (non_ascii (snd after) < non_ascii (snd before))%nat).

(** The files that [main] writes: the entries whose name ends in [.rs] and
    whose text the transformation [f] changes. *)
Definition written_names (f : str -> result str) (entries : directory)
  : list str :=
  map fst
    (filter (fun e => is_rs (fst e)
                      && match f (snd e) with
                         | Ok r => negb (str_eqb (snd e) r)
                         | Raise _ => false
                         end)
       entries).

(** The output of a sequence of [print]. *)
Definition printed (lines : list str) : str :=
  flat_map (fun line => line ++ [NL]) lines.

End Scripts.
(** * Properties *)

(** Closed equations and inequations between computed texts. *)
Ltac by_computation :=
  intros;
  first [ vm_compute; reflexivity
        | let H := fresh in intro H; vm_compute in H; discriminate ].

(** ** Strings *)

Lemma str_eqb_eq (a b : str) : str_eqb a b = true <-> a = b.
Proof.
  unfold str_eqb. destruct (list_eq_dec N.eq_dec a b); split; congruence.
Qed.

Lemma str_eqb_refl (a : str) : str_eqb a a = true.
Proof. now apply str_eqb_eq. Qed.

Lemma str_eqb_neq (a b : str) : str_eqb a b = false <-> a <> b.
Proof.
  unfold str_eqb. destruct (list_eq_dec N.eq_dec a b); split; congruence.
Qed.

Lemma strip_prefix_app (pre s : str) : strip_prefix pre (pre ++ s) = Some s.
Proof.
  induction pre as [|p pre IH]; simpl; [reflexivity|].
  now rewrite N.eqb_refl.
Qed.

Lemma strip_prefix_Some (pre s r : str) :
  strip_prefix pre s = Some r -> s = pre ++ r.
Proof.
  revert s. induction pre as [|p pre IH]; simpl; intros s H.
  - congruence.
  - destruct s as [|c s]; [discriminate|].
    destruct (N.eqb_spec c p); [|discriminate].
    subst. f_equal. now apply IH.
Qed.

Lemma str_contains_unfold (k s : str) :
  str_contains k s =
  match strip_prefix k s with
  | Some _ => true
  | None => match s with
            | [] => false
            | _ :: s' => str_contains k s'
            end
  end.
Proof. destruct s; reflexivity. Qed.

Lemma str_contains_app (k a b : str) : str_contains k (a ++ k ++ b) = true.
Proof.
  induction a as [|c a IH].
  - rewrite str_contains_unfold. simpl. now rewrite strip_prefix_app.
  - rewrite str_contains_unfold. simpl.
    destruct (strip_prefix k (c :: a ++ k ++ b)); [reflexivity | exact IH].
Qed.

Lemma str_contains_true (k s : str) :
  str_contains k s = true -> exists a b, s = a ++ k ++ b.
Proof.
  induction s as [|c s IH]; rewrite str_contains_unfold.
  - destruct (strip_prefix k []) as [r|] eqn:E; [|discriminate].
    intros _. apply strip_prefix_Some in E. now exists [], r.
  - destruct (strip_prefix k (c :: s)) as [r|] eqn:E.
    + intros _. apply strip_prefix_Some in E. now exists [], r.
    + intros H. destruct (IH H) as (a & b & ->). now exists (c :: a), b.
Qed.

Lemma str_contains_false_infix (k a s b : str) :
  str_contains k (a ++ s ++ b) = false -> str_contains k s = false.
Proof.
  intros H. destruct (str_contains k s) eqn:E; [|reflexivity].
  apply str_contains_true in E. destruct E as (x & y & ->).
  rewrite <- H. symmetry.
  replace (a ++ (x ++ k ++ y) ++ b) with ((a ++ x) ++ k ++ (y ++ b))
    by (repeat rewrite <- app_assoc; reflexivity).
  apply str_contains_app.
Qed.

(** [replace_from] step by step. *)
Lemma replace_from_skip (old new a s : str) :
  replace_from old new (List.length a) (a ++ s) = replace_from old new 0 s.
Proof.
  induction a as [|c a IH]; simpl; [reflexivity | exact IH].
Qed.

Lemma replace_from_hit (old new s : str) :
  old <> [] ->
  replace_from old new 0 (old ++ s) = new ++ replace_from old new 0 s.
Proof.
  destruct old as [|o old]; [congruence|]. intros _.
  change ((o :: old) ++ s) with (o :: (old ++ s)).
  cbn [replace_from].
  change (o :: old ++ s) with ((o :: old) ++ s).
  rewrite strip_prefix_app. f_equal.
  cbn [List.length]. rewrite Nat.sub_1_r. cbn [Nat.pred].
  apply replace_from_skip.
Qed.

Lemma replace_from_miss (old new : str) (c : codepoint) (s : str) :
  strip_prefix old (c :: s) = None ->
  replace_from old new 0 (c :: s) = c :: replace_from old new 0 s.
Proof. intros H. cbn [replace_from]. now rewrite H. Qed.

Lemma replace_from_absent (old new s : str) :
  str_contains old s = false -> replace_from old new 0 s = s.
Proof.
  induction s as [|c s IH]; [reflexivity|].
  cbn [str_contains]. destruct (strip_prefix old (c :: s)) eqn:E; [discriminate|].
  intros H. rewrite replace_from_miss by exact E. f_equal. now apply IH.
Qed.

Lemma replace_from_same (k s : str) : k <> [] -> replace_from k k 0 s = s.
Proof.
  intros Hk.
  remember (List.length s) as n eqn:Hn. revert s Hn.
  induction n as [n IH] using lt_wf_ind. intros s Hn.
  destruct s as [|c s]; [reflexivity|].
  destruct (strip_prefix k (c :: s)) as [l|] eqn:E.
  - apply strip_prefix_Some in E. rewrite E.
    rewrite replace_from_hit by exact Hk. f_equal.
    apply (IH (List.length l)); [|reflexivity].
    subst n. rewrite E, length_app.
    destruct k; [congruence | simpl; lia].
  - rewrite replace_from_miss by exact E. f_equal.
    apply (IH (List.length s)); [subst n; simpl; lia | reflexivity].
Qed.

Lemma str_replace_same (k s : str) : str_replace k k s = s.
Proof.
  destruct k as [|c k].
  - unfold str_replace. simpl. induction s; simpl; congruence.
  - unfold str_replace. now apply replace_from_same.
Qed.

Lemma str_replace_absent (old new s : str) :
  str_contains old s = false -> str_replace old new s = s.
Proof.
  destruct old as [|c old].
  - destruct s; discriminate.
  - unfold str_replace. apply replace_from_absent.
Qed.

(** Characters of the result of a replacement come from the text or from
    the new string. *)
Lemma replace_from_chars (old new : str) (x : codepoint) (s : str) (n : nat) :
  In x (replace_from old new n s) -> In x s \/ In x new.
Proof.
  revert n. induction s as [|c s IH]; intros n; [simpl; tauto|].
  destruct n as [|n]; cbn [replace_from].
  - destruct (strip_prefix old (c :: s)).
    + rewrite in_app_iff. intros [H|H]; [tauto|].
      apply IH in H. simpl. tauto.
    + simpl. intros [H|H]; [tauto|]. apply IH in H. tauto.
  - intros H. apply IH in H. simpl. tauto.
Qed.

Lemma str_replace_chars (old new : str) (x : codepoint) (s : str) :
  In x (str_replace old new s) -> In x s \/ In x new.
Proof.
  destruct old as [|o old]; unfold str_replace.
  - rewrite in_app_iff. intros [H|H]; [tauto|].
    apply in_flat_map in H. destruct H as (c & Hc & [H|H]); subst; tauto.
  - apply replace_from_chars.
Qed.

(** Splitting into lines and joining again. *)
Lemma split_nonempty (sep : codepoint) (s : str) : split sep s <> [].
Proof.
  destruct s as [|c s]; simpl; [discriminate|].
  destruct (c =? sep); [discriminate|].
  destruct (split sep s); discriminate.
Qed.

Lemma join_cons (sep : str) (c : codepoint) (l : str) (ls : list str) :
  join sep ((c :: l) :: ls) = c :: join sep (l :: ls).
Proof. destruct ls; reflexivity. Qed.

Lemma join_nil_cons (sep : str) (l : str) (ls : list str) :
  join sep ([] :: l :: ls) = sep ++ join sep (l :: ls).
Proof. reflexivity. Qed.

Lemma join_split (sep : codepoint) (s : str) : join [sep] (split sep s) = s.
Proof.
  induction s as [|c s IH]; [reflexivity|].
  cbn [split]. destruct (split sep s) as [|l ls] eqn:E.
  - now apply split_nonempty in E.
  - destruct (N.eqb_spec c sep) as [->|Hne].
    + rewrite join_nil_cons, IH. reflexivity.
    + rewrite join_cons, IH. reflexivity.
Qed.

Lemma split_lines_free (sep : codepoint) (s line : str) :
  In line (split sep s) -> ~ In sep line.
Proof.
  revert line. induction s as [|c s IH]; simpl; intros line.
  - intros [<-|[]]. tauto.
  - destruct (N.eqb_spec c sep) as [->|Hne].
    + intros [<-|H]; [tauto | now apply IH].
    + destruct (split sep s) as [|l ls] eqn:E.
      * now apply split_nonempty in E.
      * intros [<-|H].
        -- simpl. intros [H|H]; [congruence|]. apply (IH l); simpl; tauto.
        -- apply IH. simpl. tauto.
Qed.

Lemma split_lines_infix (sep : codepoint) (s line : str) :
  In line (split sep s) -> exists a b, s = a ++ line ++ b.
Proof.
  revert line. induction s as [|c s IH]; simpl; intros line.
  - intros [<-|[]]. now exists [], [].
  - destruct (N.eqb_spec c sep) as [->|Hne].
    + intros [<-|H].
      * now exists [], (sep :: s).
      * destruct (IH _ H) as (a & b & ->). now exists (sep :: a), b.
    + destruct (split sep s) as [|l ls] eqn:E.
      * now apply split_nonempty in E.
      * intros [<-|H].
        -- destruct (IH l) as (a & b & Hs); [simpl; tauto|].
           assert (Hl : ~ In sep l).
           { apply (split_lines_free sep s). rewrite E. simpl. tauto. }
           (* [l] is the first line of [s]: it is a prefix of [s] *)
           clear IH Hs a b.
           assert (Hp : exists b, s = l ++ b).
           { clear Hne Hl. revert l ls E.
             induction s as [|d s IHs]; simpl; intros l ls E.
             - injection E as <- <-. now exists [].
             - destruct (d =? sep).
               + injection E as <- <-. now exists (d :: s).
               + destruct (split sep s) as [|l' ls'] eqn:E'.
                 * now apply split_nonempty in E'.
                 * injection E as <- <-.
                   destruct (IHs _ _ eq_refl) as (b & ->).
                   now exists b. }
           destruct Hp as (b & ->). now exists [], b.
        -- destruct (IH line) as (a & b & ->); [simpl; tauto|].
           now exists (c :: a), b.
Qed.

Lemma split_free (sep : codepoint) (l : str) :
  ~ In sep l -> split sep l = [l].
Proof.
  induction l as [|c l IH]; [reflexivity|]. intros H.
  cbn [split]. destruct (N.eqb_spec c sep) as [->|Hne].
  - exfalso. apply H. simpl. tauto.
  - rewrite IH; [reflexivity|]. intros Hin. apply H. simpl. tauto.
Qed.

Lemma split_app_sep (sep : codepoint) (l s : str) :
  ~ In sep l -> split sep (l ++ sep :: s) = l :: split sep s.
Proof.
  induction l as [|c l IH]; intros H.
  - simpl. now rewrite N.eqb_refl.
  - cbn [app split]. destruct (N.eqb_spec c sep) as [->|Hne].
    + exfalso. apply H. simpl. tauto.
    + rewrite IH; [reflexivity|]. intros Hin. apply H. simpl. tauto.
Qed.

Lemma split_join (sep : codepoint) (ls : list str) :
  ls <> [] -> Forall (fun l => ~ In sep l) ls ->
  split sep (join [sep] ls) = ls.
Proof.
  induction ls as [|l ls IH]; [congruence|]. intros _ H.
  inversion H as [|? ? Hl Hls]; subst.
  destruct ls as [|l' ls].
  - cbn [join]. now apply split_free.
  - change (join [sep] (l :: l' :: ls))
      with (l ++ sep :: join [sep] (l' :: ls)).
    rewrite split_app_sep by exact Hl.
    f_equal. apply IH; [discriminate | exact Hls].
Qed.

(** ** Greedy repetition *)

Lemma rep_sound {R : Type} (inclass : codepoint -> bool)
    (cont : str -> str -> option R) (s taken : str) (r : R) :
  rep inclass cont taken s = Some r ->
  exists w rest,
    s = w ++ rest /\ forallb inclass w = true /\ cont (taken ++ w) rest = Some r.
Proof.
  revert taken. induction s as [|c s IH]; intros taken H.
  - cbn [rep] in H. exists [], []. simpl. rewrite app_nil_r. auto.
  - cbn [rep] in H. destruct (inclass c) eqn:Hc.
    + destruct (rep inclass cont (taken ++ [c]) s) as [r'|] eqn:E.
      * injection H as ->. destruct (IH _ E) as (w & rest & -> & Hw & Hk).
        exists (c :: w), rest. simpl. rewrite Hc, Hw.
        rewrite <- app_assoc in Hk. auto.
      * exists [], (c :: s). simpl. rewrite app_nil_r. auto.
    + exists [], (c :: s). simpl. rewrite app_nil_r. auto.
Qed.

Lemma rep_complete {R : Type} (inclass : codepoint -> bool)
    (cont : str -> str -> option R) (w rest taken : str) :
  forallb inclass w = true ->
  cont (taken ++ w) rest <> None ->
  rep inclass cont taken (w ++ rest) <> None.
Proof.
  revert taken. induction w as [|c w IH]; intros taken Hw Hk.
  - rewrite app_nil_r in Hk. simpl.
    destruct rest as [|c s]; [exact Hk|].
    cbn [rep]. destruct (inclass c); [|exact Hk].
    destruct (rep inclass cont (taken ++ [c]) s); [discriminate | exact Hk].
  - simpl in Hw. apply andb_prop in Hw. destruct Hw as [Hc Hw].
    cbn [app rep]. rewrite Hc.
    specialize (IH (taken ++ [c]) Hw).
    rewrite <- app_assoc in IH. specialize (IH Hk).
    destruct (rep inclass cont (taken ++ [c]) (w ++ rest));
      [discriminate | contradiction].
Qed.

Lemma mem_false (c : codepoint) (s : str) : mem c s = false <-> ~ In c s.
Proof.
  unfold mem. induction s as [|x s IH]; simpl; [tauto|].
  destruct (N.eqb_spec c x) as [->|Hne]; simpl.
  - split; [discriminate | tauto].
  - rewrite IH. split; [intros H [E|E]; [congruence | tauto] | tauto].
Qed.

Lemma mem_true_In (c : codepoint) (s : str) : mem c s = true -> In c s.
Proof.
  intros H. destruct (mem c s) eqn:E; [|discriminate].
  unfold mem in E. apply existsb_exists in E.
  destruct E as (x & Hx & E). apply N.eqb_eq in E. now subst x.
Qed.

Lemma count_app (c : codepoint) (a b : str) :
  count c (a ++ b) = (count c a + count c b)%nat.
Proof. unfold count. now rewrite filter_app, length_app. Qed.

Lemma count_cons (c x : codepoint) (s : str) :
  count c (x :: s) = ((if N.eqb c x then 1 else 0) + count c s)%nat.
Proof. unfold count. cbn [filter]. destruct (c =? x); reflexivity. Qed.

Lemma count_zero (c : codepoint) (s : str) : count c s = O <-> ~ In c s.
Proof.
  induction s as [|x s IH]; [simpl; tauto|].
  rewrite count_cons. destruct (N.eqb_spec c x) as [->|Hne]; simpl.
  - split; [discriminate | tauto].
  - rewrite IH. split; [intros H [E|E]; [congruence | tauto] | tauto].
Qed.

Lemma count_pos (c : codepoint) (s : str) : In c s -> (1 <= count c s)%nat.
Proof.
  intros H. destruct (count c s) eqn:E; [|lia].
  apply count_zero in E. contradiction.
Qed.

(** Two runs of a class, each stopped by the same character outside it. *)
Lemma run_unique (P : codepoint -> bool) (x y : codepoint) (w w' a b : str) :
  forallb P w = true -> forallb P w' = true ->
  P x = false -> P y = false ->
  w ++ x :: a = w' ++ y :: b -> w = w' /\ x :: a = y :: b.
Proof.
  revert w'. induction w as [|c w IH]; intros w' Hw Hw' Hx Hy E.
  - destruct w' as [|c' w']; [auto|].
    cbn [app] in E. injection E as -> _.
    simpl in Hw'. rewrite Hx in Hw'. discriminate.
  - destruct w' as [|c' w'].
    + cbn [app] in E. injection E as -> _.
      simpl in Hw. rewrite Hy in Hw. discriminate.
    + cbn [app] in E. injection E as -> E.
      simpl in Hw, Hw'. apply andb_prop in Hw, Hw'.
      destruct (IH w' (proj2 Hw) (proj2 Hw') Hx Hy E) as [-> ->]. auto.
Qed.


(** ** Rendered constructs: the fillings *)

Lemma render_app (p q : regex) (gaps caps : list str) :
  render (p ++ q) gaps caps =
  render p gaps caps ++ render q (drop (stars p) gaps) (drop (groups p) caps).
Proof.
  unfold stars, groups.
  revert gaps caps. induction p as [|a p IH]; intros gaps caps;
    [reflexivity|].
  destruct a; cbn [app render filter List.length drop].
  - now rewrite IH.
  - now rewrite IH, <- app_assoc.
  - now rewrite IH, <- app_assoc.
Qed.

Lemma all_space_tl (gaps : list str) :
  all_space gaps = true -> all_space (tl gaps) = true.
Proof.
  destruct gaps as [|g gaps]; [auto|]. unfold all_space. simpl.
  intros H. apply andb_prop in H. tauto.
Qed.

Lemma all_space_hd (gaps : list str) :
  all_space gaps = true -> forallb is_space (hd [] gaps) = true.
Proof.
  destruct gaps as [|g gaps]; [auto|]. unfold all_space. simpl.
  intros H. apply andb_prop in H. tauto.
Qed.

Lemma all_space_drop (n : nat) (gaps : list str) :
  all_space gaps = true -> all_space (drop n gaps) = true.
Proof.
  revert gaps. induction n as [|n IH]; intros gaps H; [exact H|].
  cbn [drop]. apply IH. now apply all_space_tl.
Qed.

(** ** Where a character can stand *)

Lemma first_split_unique (c : codepoint) (a b a' b' : str) :
  ~ In c a -> ~ In c a' -> a ++ c :: b = a' ++ c :: b' -> a = a' /\ b = b'.
Proof.
  revert a'. induction a as [|x a IH]; intros a' Ha Ha' E.
  - destruct a' as [|x' a']; cbn [app] in E.
    + injection E as ->. auto.
    + injection E as -> _. exfalso. apply Ha'. simpl. tauto.
  - destruct a' as [|x' a']; cbn [app] in E.
    + injection E as -> _. exfalso. apply Ha. simpl. tauto.
    + injection E as -> E.
      destruct (IH a') as [-> ->]; auto.
      * intros H. apply Ha. simpl. tauto.
      * intros H. apply Ha'. simpl. tauto.
Qed.

(** A substring without the character [c] lies on one side of a [c]. *)
Lemma infix_avoid (c : codepoint) (pre m post a b : str) :
  pre ++ m ++ post = a ++ c :: b -> ~ In c m ->
  (exists x, a = pre ++ m ++ x) \/ (exists y, b = y ++ m ++ post).
Proof.
  intros E Hm. apply app_eq_app in E. destruct E as (l & [[E1 E2]|[E1 E2]]).
  - destruct l as [|x l]; cbn [app] in E2.
    + destruct m as [|y m]; cbn [app] in E2.
      * left. exists []. subst pre. now rewrite !app_nil_r.
      * injection E2 as <- _. exfalso. apply Hm. simpl. tauto.
    + injection E2 as _ ->. right. now exists l.
  - symmetry in E2. apply app_eq_app in E2.
    destruct E2 as (l2 & [[E3 E4]|[E3 E4]]).
    + left. exists l2. subst a l. reflexivity.
    + destruct l2 as [|y l2]; cbn [app] in E4.
      * left. exists []. subst a. rewrite app_nil_r in E3.
        subst l. now rewrite app_nil_r.
      * injection E4 as <- _. exfalso. apply Hm. subst m.
        rewrite in_app_iff. simpl. tauto.
Qed.

(** When nothing before an [x] and nothing behind a [y] of the text is a
    [c], a substring holding both an [x] and a [y] holds every [c]. *)
Lemma span_count (x y c : codepoint) (text pre m post : str) :
  text = pre ++ m ++ post ->
  In x m -> In y m ->
  (forall a b, text = a ++ x :: b -> ~ In c a) ->
  (forall a b, text = a ++ y :: b -> ~ In c b) ->
  count c m = count c text.
Proof.
  intros -> Hx Hy Hbefore Hbehind.
  apply in_split in Hx. destruct Hx as (m1 & m2 & E1).
  apply in_split in Hy. destruct Hy as (m3 & m4 & E2).
  assert (Hpre : ~ In c pre).
  { intros H. apply (Hbefore (pre ++ m1) (m2 ++ post)).
    - rewrite E1. now rewrite <- !app_assoc.
    - rewrite in_app_iff. tauto. }
  assert (Hpost : ~ In c post).
  { intros H. apply (Hbehind (pre ++ m3) (m4 ++ post)).
    - rewrite E2. now rewrite <- !app_assoc.
    - rewrite in_app_iff. tauto. }
  rewrite !count_app.
  rewrite (proj2 (count_zero c pre) Hpre), (proj2 (count_zero c post) Hpost).
  lia.
Qed.

Lemma before_in_prefix (x c : codepoint) (hd rest a b : str) :
  ~ In x rest -> ~ In c hd -> hd ++ rest = a ++ x :: b -> ~ In c a.
Proof.
  intros Hrest Hhd E Hin. apply app_eq_app in E.
  destruct E as (l & [[E1 E2]|[E1 E2]]).
  - apply Hhd. subst hd. rewrite in_app_iff. tauto.
  - apply Hrest. rewrite E2. rewrite in_app_iff. simpl. tauto.
Qed.

Lemma behind_in_suffix (y c : codepoint) (front tl a b : str) :
  ~ In y front -> ~ In c tl -> front ++ tl = a ++ y :: b -> ~ In c b.
Proof.
  intros Hfront Htl E Hin. apply app_eq_app in E.
  destruct E as (l & [[E1 E2]|[E1 E2]]).
  - destruct l as [|z l]; cbn [app] in E2.
    + apply Htl. rewrite <- E2. simpl. tauto.
    + injection E2 as -> _. apply Hfront. subst front.
      rewrite in_app_iff. simpl. tauto.
  - apply Htl. subst tl. rewrite in_app_iff. simpl. tauto.
Qed.

(** ** The three patterns *)

Lemma regex1_split : regex1 = message_head ++ quoted_literal ++ default_tail.
Proof. reflexivity. Qed.

Lemma regex2_split : regex2 = message_head ++ [Group Word] ++ default_tail.
Proof. reflexivity. Qed.

Lemma regex3_split : regex3 = message_head ++ quoted_literal ++ explicit_tail.
Proof. reflexivity. Qed.

Lemma render_quoted (tail : regex) (gaps : list str) (role content : str) :
  render (message_head ++ quoted_literal ++ tail) gaps [role; content] =
  render message_head gaps [role; content]
  ++ DQ :: content ++ DQ :: render tail (drop 5 gaps) [].
Proof.
  rewrite render_app.
  change (stars message_head) with 5%nat.
  change (groups message_head) with 1%nat.
  reflexivity.
Qed.

Lemma plain_literal_spec (content : str) :
  plain_literal content = true -> content <> [] /\ ~ In DQ content.
Proof.
  unfold plain_literal. intros H. apply andb_prop in H. destruct H as [Hne H].
  split; [destruct content; [discriminate | congruence]|].
  intros Hin. rewrite forallb_forall in H. specialize (H _ Hin).
  apply negb_true_iff in H. now rewrite N.eqb_refl in H.
Qed.

(** ** The lexical rewriter *)

Lemma translate_line_with_cons (k v : str) (table : dict) (line : str) :
  translate_line_with ((k, v) :: table) line =
  translate_line_with table
    (if str_contains k line then str_replace k v line else line).
Proof. reflexivity. Qed.

Lemma translate_line_with_app (t1 t2 : dict) (line : str) :
  translate_line_with (t1 ++ t2) line =
  translate_line_with t2 (translate_line_with t1 line).
Proof. unfold translate_line_with, items. apply fold_left_app. Qed.

(** An entry whose key is absent, or equal to its value, does nothing. *)
Lemma translate_line_with_idle (table : dict) (line : str) :
  no_effective_key table line = true -> translate_line_with table line = line.
Proof.
  induction table as [|[k v] table IH]; [reflexivity|].
  unfold no_effective_key. cbn [items forallb fst snd]. intros H.
  apply andb_prop in H. destruct H as [Hk H].
  rewrite translate_line_with_cons.
  destruct (str_contains k line) eqn:E; [|now apply IH].
  cbn [negb orb] in Hk. apply str_eqb_eq in Hk. subst v.
  rewrite str_replace_same. now apply IH.
Qed.

Lemma no_effective_key_infix (table : dict) (a s b : str) :
  no_effective_key table (a ++ s ++ b) = true ->
  no_effective_key table s = true.
Proof.
  unfold no_effective_key. rewrite !forallb_forall. intros H kv Hin.
  specialize (H kv Hin). destruct (str_eqb (fst kv) (snd kv));
    [now rewrite orb_true_r|].
  rewrite orb_false_r in *. apply negb_true_iff in H. apply negb_true_iff.
  now apply (str_contains_false_infix _ a s b).
Qed.

Lemma no_table_key_effective (table : dict) (s : str) :
  no_table_key table s = true -> no_effective_key table s = true.
Proof.
  unfold no_table_key, no_effective_key, keys, items.
  rewrite !forallb_forall. intros H kv Hin.
  now rewrite (H (fst kv) (in_map fst _ _ Hin)).
Qed.

Lemma translate_content_with_idle (table : dict) (s : str) :
  no_effective_key table s = true -> translate_content_with table s = s.
Proof.
  intros H. unfold translate_content_with.
  rewrite (map_ext_in _ (fun l => l)), map_id; [apply join_split|].
  intros line Hin. apply translate_line_with_idle.
  destruct (split_lines_infix NL s line Hin) as (a & b & E).
  rewrite E in H. now apply no_effective_key_infix in H.
Qed.

(** Lines stay lines when no value of the table holds a newline. *)
Lemma translate_line_with_newline_free (table : dict) (line : str) :
  newline_free_values table = true -> ~ In NL line ->
  ~ In NL (translate_line_with table line).
Proof.
  revert line. induction table as [|[k v] table IH]; intros line Hv Hl;
    [exact Hl|].
  unfold newline_free_values in Hv. cbn [values map forallb snd] in Hv.
  apply andb_prop in Hv. destruct Hv as [Hv Hvs].
  apply negb_true_iff, mem_false in Hv.
  rewrite translate_line_with_cons. apply IH; [exact Hvs|].
  destruct (str_contains k line); [|exact Hl].
  intros Hin. apply str_replace_chars in Hin. tauto.
Qed.

Lemma split_translate_content_with (table : dict) (s : str) :
  newline_free_values table = true ->
  split NL (translate_content_with table s) =
  map (translate_line_with table) (split NL s).
Proof.
  intros Hv. unfold translate_content_with. apply split_join.
  - pose proof (split_nonempty NL s) as Hne.
    destruct (split NL s); [congruence | discriminate].
  - apply Forall_forall. intros l Hin. apply in_map_iff in Hin.
    destruct Hin as (line & <- & Hin).
    apply translate_line_with_newline_free; [exact Hv|].
    now apply (split_lines_free NL s).
Qed.

Lemma str_contains_needs (c : codepoint) (k s : str) :
  In c k -> ~ In c s -> str_contains k s = false.
Proof.
  intros Hk Hs. destruct (str_contains k s) eqn:E; [|reflexivity].
  apply str_contains_true in E. destruct E as (a & b & ->).
  exfalso. apply Hs. rewrite !in_app_iff. tauto.
Qed.

(** An entry whose key spans a newline can be left out of a table whose
    values hold none. *)
Lemma translate_line_with_newline_key (t1 t2 : dict) (k v line : str) :
  newline_free_values t1 = true -> In NL k -> ~ In NL line ->
  translate_line_with (t1 ++ (k, v) :: t2) line =
  translate_line_with (t1 ++ t2) line.
Proof.
  intros Hv Hk Hl. rewrite !translate_line_with_app.
  rewrite translate_line_with_cons.
  rewrite (str_contains_needs NL); [reflexivity | exact Hk |].
  now apply translate_line_with_newline_free.
Qed.

(** ** Claims on the lexical rewriter *)

(** C5.  The result of the lexical rewriter depends on the order of the
    table: the two orders of the same two entries translate the line [ab]
    to [X] and to [Yb]. *)
Theorem C5_table_order_matters :
  translate_line_with (dict_display [("ab", "X"); ("a", "Y")]%string)
    (u "ab") = u "X"
  /\ translate_line_with (dict_display [("a", "Y"); ("ab", "X")]%string)
       (u "ab") = u "Yb"
  /\ translate_line_with (rev (dict_display [("ab", "X"); ("a", "Y")]%string))
       (u "ab")
     <> translate_line_with (dict_display [("ab", "X"); ("a", "Y")]%string)
          (u "ab").
Proof.
  repeat split; try reflexivity. vm_compute. discriminate.
Qed.

(** C6.  The text is split at newlines, every line is translated on its
    own and the lines are joined again in their order: no line holds a
    newline, so a key that spans one is in no line and its entry changes
    nothing, wherever it stands in the table of the source; the translated
    text has the lines of the input, each translated. *)
Theorem C6_lines_are_isolated (table : dict) (text : str) :
  translate_content_with table text
  = join [NL] (map (translate_line_with table) (split NL text))
  /\ List.length (map (translate_line_with table) (split NL text))
     = List.length (split NL text)
  /\ (forall line, In line (split NL text) -> ~ In NL line)
  /\ (forall k v line,
         In NL k -> In line (split NL text) ->
         str_contains k line = false /\ str_replace k v line = line)
  /\ (forall k v, In NL k -> translate_content_with [(k, v)] text = text)
  /\ (forall t1 t2 k v,
         TRANSLATIONS = t1 ++ t2 -> In NL k ->
         translate_content_with (t1 ++ (k, v) :: t2) text
         = translate_content text)
  /\ split NL (translate_content text) = map translate_line (split NL text).
Proof.
  assert (Hfree : forall line, In line (split NL text) -> ~ In NL line)
    by (intros line; apply split_lines_free).
  assert (Hkey : forall k line,
             In NL k -> In line (split NL text) -> str_contains k line = false)
    by (intros k line Hk Hl; apply (str_contains_needs NL); auto).
  assert (Hvals : newline_free_values TRANSLATIONS = true)
    by (vm_compute; reflexivity).
  repeat split.
  - apply length_map.
  - exact Hfree.
  - now apply Hkey.
  - apply str_replace_absent. now apply Hkey.
  - intros k v Hk. unfold translate_content_with.
    rewrite (map_ext_in _ (fun l => l)), map_id; [apply join_split|].
    intros line Hl. rewrite translate_line_with_cons.
    now rewrite (Hkey k line Hk Hl).
  - intros t1 t2 k v Et Hk. unfold translate_content, translate_content_with.
    f_equal. apply map_ext_in. intros line Hl. rewrite Et.
    apply translate_line_with_newline_key; auto.
    rewrite Et in Hvals. unfold newline_free_values, values in *.
    rewrite map_app, forallb_app in Hvals. apply andb_prop in Hvals. tauto.
  - apply split_translate_content_with. exact Hvals.
Qed.

(** ** Further properties of the lexical rewriter *)

Lemma non_ascii_app (a b : str) :
  non_ascii (a ++ b) = (non_ascii a + non_ascii b)%nat.
Proof. unfold non_ascii. now rewrite filter_app, length_app. Qed.

Lemma non_ascii_cons (c : codepoint) (s : str) :
  non_ascii (c :: s)
  = ((if N.leb 128 c then 1 else 0) + non_ascii s)%nat.
Proof. unfold non_ascii. cbn [filter]. now destruct (128 <=? c). Qed.

Lemma non_ascii_zero (s : str) : is_ascii s = true <-> non_ascii s = O.
Proof.
  induction s as [|c s IH]; [easy|].
  rewrite non_ascii_cons. cbn [is_ascii forallb].
  rewrite andb_true_iff. fold (is_ascii s). rewrite IH.
  destruct (N.ltb_spec c 128), (N.leb_spec 128 c); try lia;
    split; try lia; intros [? ?]; try lia; discriminate.
Qed.

Lemma is_ascii_In (s : str) (c : codepoint) :
  is_ascii s = true -> In c s -> c < 128.
Proof.
  intros H Hc. unfold is_ascii in H. rewrite forallb_forall in H.
  apply N.ltb_lt. now apply H.
Qed.

Lemma non_ascii_skipn (n : nat) (s : str) :
  (non_ascii (skipn n s) <= non_ascii s)%nat.
Proof.
  revert s. induction n as [|n IH]; intros [|c s]; cbn [skipn]; try lia.
  rewrite non_ascii_cons. specialize (IH s). lia.
Qed.

(** A replacement by ASCII text leaves no more characters outside ASCII
    than there were. *)
Lemma replace_from_non_ascii (old new : str) :
  is_ascii new = true ->
  forall s skip,
    (non_ascii (replace_from old new skip s) <= non_ascii (skipn skip s))%nat.
Proof.
  intros Hnew. apply non_ascii_zero in Hnew.
  induction s as [|c s IH]; intros skip.
  - destruct skip; cbn; lia.
  - destruct skip as [|n]; cbn [replace_from skipn].
    + destruct (strip_prefix old (c :: s)) as [r|] eqn:E.
      * rewrite non_ascii_app, Hnew. cbn [Nat.add].
        specialize (IH (List.length old - 1)%nat).
        pose proof (non_ascii_skipn (List.length old - 1) s).
        rewrite non_ascii_cons. lia.
      * rewrite !non_ascii_cons. specialize (IH O). cbn [skipn] in IH. lia.
    + apply IH.
Qed.

Lemma skipn_length_app {A : Type} (a b : list A) :
  skipn (List.length a) (a ++ b) = b.
Proof. induction a; cbn; auto. Qed.

(** And strictly fewer when the key holds one and occurs. *)
Lemma replace_from_non_ascii_lt (old new : str) :
  is_ascii new = true -> is_ascii old = false ->
  forall s, str_contains old s = true ->
    (non_ascii (replace_from old new 0 s) < non_ascii s)%nat.
Proof.
  intros Hnew Hold.
  assert (Hpos : (1 <= non_ascii old)%nat).
  { destruct (non_ascii old) eqn:E; [|lia].
    apply non_ascii_zero in E. congruence. }
  induction s as [|c s IH]; intros Hc.
  - rewrite str_contains_unfold in Hc.
    destruct old; [discriminate Hold | discriminate Hc].
  - rewrite str_contains_unfold in Hc. cbn [replace_from].
    destruct (strip_prefix old (c :: s)) as [r|] eqn:E.
    + apply strip_prefix_Some in E.
      destruct old as [|o old']; [discriminate Hold|].
      cbn [app] in E. injection E as -> ->.
      rewrite non_ascii_app.
      pose proof (replace_from_non_ascii (o :: old') new Hnew
                    (old' ++ r) (List.length (o :: old') - 1)) as H.
      replace (List.length (o :: old') - 1)%nat with (List.length old') in *
        by (cbn [List.length]; lia).
      rewrite skipn_length_app in H.
      apply non_ascii_zero in Hnew. rewrite Hnew.
      change (o :: old' ++ r) with ((o :: old') ++ r).
      rewrite (non_ascii_app (o :: old') r). lia.
    + rewrite !non_ascii_cons. specialize (IH Hc). lia.
Qed.

Lemma str_replace_non_ascii_lt (old new s : str) :
  is_ascii new = true -> is_ascii old = false ->
  str_contains old s = true ->
  (non_ascii (str_replace old new s) < non_ascii s)%nat.
Proof.
  intros Hnew Hold Hc. destruct old as [|o old']; [discriminate Hold|].
  now apply replace_from_non_ascii_lt.
Qed.

Lemma ascii_target_cons (k v : str) (table : dict) :
  ascii_target ((k, v) :: table) = true ->
  (k = v \/ (is_ascii k = false /\ is_ascii v = true))
  /\ ascii_target table = true.
Proof.
  unfold ascii_target, items. cbn [forallb fst snd].
  intros H. apply andb_prop in H. destruct H as [H Ht].
  split; [|exact Ht]. apply orb_prop in H. destruct H as [H|H].
  - left. now apply str_eqb_eq.
  - right. apply andb_prop in H. destruct H as [H1 H2].
    now apply negb_true_iff in H1.
Qed.

(** One pass over such a table leaves the line as it is or takes
    characters outside ASCII away. *)
Lemma translate_line_with_non_ascii (table : dict) :
  ascii_target table = true ->
  forall line,
    translate_line_with table line = line
    \/ (non_ascii (translate_line_with table line) < non_ascii line)%nat.
Proof.
  induction table as [|[k v] table IH]; intros Ht line; [now left|].
  apply ascii_target_cons in Ht. destruct Ht as [Hkv Ht].
  rewrite translate_line_with_cons.
  destruct (str_contains k line) eqn:Ec; [|now apply IH].
  destruct Hkv as [<- | [Hk Hv]].
  - rewrite str_replace_same. now apply IH.
  - pose proof (str_replace_non_ascii_lt k v line Hv Hk Ec) as Hlt.
    destruct (IH Ht (str_replace k v line)) as [-> | H]; right; lia.
Qed.

Lemma translate_line_with_new_chars (table : dict) :
  ascii_target table = true ->
  forall line x,
    In x (translate_line_with table line) -> 128 <= x -> In x line.
Proof.
  induction table as [|[k v] table IH]; intros Ht line x; [easy|].
  apply ascii_target_cons in Ht. destruct Ht as [Hkv Ht].
  rewrite translate_line_with_cons. intros Hx Hbig.
  specialize (IH Ht _ _ Hx Hbig).
  destruct (str_contains k line); [|exact IH].
  destruct Hkv as [<- | [Hk Hv]].
  - now rewrite str_replace_same in IH.
  - apply str_replace_chars in IH. destruct IH as [H|H]; [exact H|].
    pose proof (is_ascii_In v x Hv H). lia.
Qed.

Lemma translate_line_with_ascii (table : dict) (line : str) :
  ascii_target table = true -> is_ascii line = true ->
  translate_line_with table line = line.
Proof.
  intros Ht Hl.
  destruct (translate_line_with_non_ascii table Ht line) as [H|H];
    [exact H|].
  apply non_ascii_zero in Hl. lia.
Qed.

Lemma list_sum_cons (x : nat) (l : list nat) :
  list_sum (x :: l) = (x + list_sum l)%nat.
Proof. reflexivity. Qed.

Lemma non_ascii_join (ls : list str) :
  non_ascii (join [NL] ls) = list_sum (map non_ascii ls).
Proof.
  induction ls as [|l [|l' ls] IH]; [reflexivity | |].
  - change (join [NL] [l]) with l. cbn [map]. rewrite list_sum_cons.
    cbn [list_sum fold_right]. lia.
  - change (join [NL] (l :: l' :: ls)) with (l ++ [NL] ++ join [NL] (l' :: ls)).
    rewrite !non_ascii_app, IH.
    change (non_ascii [NL]) with O.
    change (map non_ascii (l :: l' :: ls))
      with (non_ascii l :: map non_ascii (l' :: ls)).
    rewrite (list_sum_cons (non_ascii l)). lia.
Qed.

Lemma map_pointwise (f : str -> str) (ls : list str) :
  (forall l, f l = l \/ (non_ascii (f l) < non_ascii l)%nat) ->
  map f ls = ls
  \/ (list_sum (map non_ascii (map f ls)) < list_sum (map non_ascii ls))%nat.
Proof.
  intros Hf. induction ls as [|l ls IH]; [now left|].
  cbn [map]. rewrite !list_sum_cons.
  destruct (Hf l) as [-> | Hl], IH as [-> | Hls]; [now left | right; lia ..].
Qed.

Lemma translate_content_with_non_ascii (table : dict) (content : str) :
  ascii_target table = true ->
  translate_content_with table content = content
  \/ (non_ascii (translate_content_with table content) < non_ascii content)%nat.
Proof.
  intros Ht. unfold translate_content_with.
  destruct (map_pointwise (translate_line_with table) (split NL content)
              (translate_line_with_non_ascii table Ht)) as [E|H].
  - left. rewrite E. apply join_split.
  - right. rewrite non_ascii_join.
    rewrite <- (join_split NL content) at 2. now rewrite non_ascii_join.
Qed.

Lemma ascii_target_TRANSLATIONS : ascii_target TRANSLATIONS = true.
Proof. vm_compute. reflexivity. Qed.

Lemma translate_file_fst (content : str) :
  fst (translate_file content) = translate_content content.
Proof.
  unfold translate_file.
  destruct (str_eqb (translate_content content) content) eqn:E;
    cbn [negb fst]; [|reflexivity].
  apply str_eqb_eq in E. now rewrite E.
Qed.

Lemma translate_file_snd (content : str) :
  snd (translate_file content)
  = negb (str_eqb (translate_content content) content).
Proof.
  unfold translate_file.
  now destruct (str_eqb (translate_content content) content).
Qed.

Lemma translate_content_ascii (text : str) :
  is_ascii text = true -> translate_content text = text.
Proof.
  intros Ha.
  destruct (translate_content_with_non_ascii TRANSLATIONS text
              ascii_target_TRANSLATIONS) as [H|H]; [exact H|].
  apply non_ascii_zero in Ha. lia.
Qed.

(** ** Properties beyond the claims: the lexical rewriter *)

(** X9. A line of ASCII characters alone is returned as it is, and a file of
    such lines is not written: the keys of the table that are ASCII map to
    themselves, every other key holds a character outside ASCII. *)
Theorem ascii_text_is_untouched (text : str) :
  is_ascii text = true ->
  translate_line text = text
  /\ translate_file text = (text, false).
Proof.
  intros Ha. pose proof (translate_content_ascii text Ha) as Hc.
  split.
  - apply translate_line_with_ascii; [apply ascii_target_TRANSLATIONS | exact Ha].
  - unfold translate_file. rewrite Hc. now rewrite str_eqb_refl.
Qed.

(** X10. The translation only takes characters outside ASCII away: every
    such character of a translated line stands in the line, and a file that
    is written holds strictly fewer of them than before. *)
Theorem translation_removes_non_ascii (line content : str) :
  (forall x, In x (translate_line line) -> 128 <= x -> In x line)
  /\ (translate_line line = line
      \/ (non_ascii (translate_line line) < non_ascii line)%nat)
  /\ (snd (translate_file content) = true ->
      (non_ascii (fst (translate_file content)) < non_ascii content)%nat)
  /\ (snd (translate_file content) = false ->
      fst (translate_file content) = content).
Proof.
  split; [|split; [|split]].
  - intros x. apply translate_line_with_new_chars.
    apply ascii_target_TRANSLATIONS.
  - apply translate_line_with_non_ascii. apply ascii_target_TRANSLATIONS.
  - rewrite translate_file_fst, translate_file_snd, negb_true_iff.
    intros H. apply str_eqb_neq in H.
    destruct (translate_content_with_non_ascii TRANSLATIONS content
                ascii_target_TRANSLATIONS) as [E|E]; [contradiction | exact E].
  - rewrite translate_file_fst, translate_file_snd, negb_false_iff.
    apply str_eqb_eq.
Qed.

Lemma translate_repeatedly_stable (n : nat) (content : str) :
  translate_content content = content ->
  translate_repeatedly n content = content.
Proof.
  intros H. induction n as [|n IH]; [reflexivity|].
  cbn [translate_repeatedly]. now rewrite translate_file_fst, H.
Qed.

(** X11. Running the translation again and again comes to rest: after as
    many runs as the text has characters outside ASCII, a further run writes
    nothing. *)
Theorem translation_reruns_settle (n : nat) (content : str) :
  (non_ascii content <= n)%nat ->
  translate_file (translate_repeatedly n content)
  = (translate_repeatedly n content, false).
Proof.
  revert content. induction n as [|n IH]; intros content Hn.
  - cbn [translate_repeatedly].
    assert (Ha : is_ascii content = true) by (apply non_ascii_zero; lia).
    unfold translate_file. rewrite (translate_content_ascii content Ha).
    now rewrite str_eqb_refl.
  - cbn [translate_repeatedly]. rewrite translate_file_fst.
    destruct (translate_content_with_non_ascii TRANSLATIONS content
                ascii_target_TRANSLATIONS) as [E|E].
    + fold (translate_content content) in E. rewrite E.
      rewrite translate_repeatedly_stable by exact E.
      unfold translate_file. rewrite E. now rewrite str_eqb_refl.
    + apply IH. fold (translate_content content) in E. lia.
Qed.

Lemma split_app (sep : codepoint) (a b : str) :
  split sep (a ++ sep :: b) = split sep a ++ split sep b.
Proof.
  induction a as [|c a IH]; cbn [app split].
  - now rewrite N.eqb_refl.
  - destruct (c =? sep); [now rewrite IH|].
    rewrite IH. destruct (split sep a) as [|l ls] eqn:E; [|reflexivity].
    now apply split_nonempty in E.
Qed.

Lemma join_app (sep : str) (xs ys : list str) :
  xs <> [] -> ys <> [] ->
  join sep (xs ++ ys) = join sep xs ++ sep ++ join sep ys.
Proof.
  intros Hx Hy. induction xs as [|x [|x' xs] IH]; [contradiction | |].
  - destruct ys; [contradiction | reflexivity].
  - change (join sep ((x :: x' :: xs) ++ ys))
      with (x ++ sep ++ join sep ((x' :: xs) ++ ys)).
    rewrite IH by discriminate.
    change (join sep (x :: x' :: xs)) with (x ++ sep ++ join sep (x' :: xs)).
    now rewrite <- !app_assoc.
Qed.

(** X12. The translation of a text is made of the translations of its parts
    on either side of a line break, for every table. *)
Theorem translation_distributes_over_lines (table : dict) (a b : str) :
  translate_content_with table (a ++ NL :: b)
  = translate_content_with table a ++ NL :: translate_content_with table b.
Proof.
  unfold translate_content_with. rewrite split_app, map_app.
  rewrite join_app; [reflexivity | |].
  - intros H. apply map_eq_nil in H. now apply split_nonempty in H.
  - intros H. apply map_eq_nil in H. now apply split_nonempty in H.
Qed.

(** ** Weights *)

Lemma weight_cons (w : codepoint -> Z) (c : codepoint) (s : str) :
  weight w (c :: s) = (w c + weight w s)%Z.
Proof. reflexivity. Qed.

Lemma weight_app (w : codepoint -> Z) (a b : str) :
  weight w (a ++ b) = (weight w a + weight w b)%Z.
Proof.
  induction a as [|c a IH]; [reflexivity|].
  cbn [app]. rewrite !weight_cons, IH. lia.
Qed.

Lemma weight_opp (w : codepoint -> Z) (s : str) :
  weight (fun c => (- w c)%Z) s = (- weight w s)%Z.
Proof. induction s as [|c s IH]; [reflexivity|]. rewrite !weight_cons. lia. Qed.

Lemma weight_nonneg (w : codepoint -> Z) (s : str) :
  (forall c, (0 <= w c)%Z) -> (0 <= weight w s)%Z.
Proof.
  intros Hw. induction s as [|c s IH]; [cbn; lia|].
  rewrite weight_cons. specialize (Hw c). lia.
Qed.

Lemma weight_zero (w : codepoint -> Z) (s : str) :
  (forall c, In c s -> w c = 0%Z) -> weight w s = 0%Z.
Proof.
  induction s as [|c s IH]; intros Hw; [reflexivity|].
  rewrite weight_cons, IH, (Hw c); [reflexivity | now left |].
  intros x Hx. apply Hw. now right.
Qed.

Lemma weight_length (s : str) :
  weight (fun _ => 1%Z) s = Z.of_nat (List.length s).
Proof.
  induction s as [|c s IH]; [reflexivity|].
  rewrite weight_cons, IH. cbn [List.length]. lia.
Qed.

Lemma weight_count (x : codepoint) (s : str) :
  weight (count_weight x) s = Z.of_nat (count x s).
Proof.
  induction s as [|c s IH]; [reflexivity|].
  rewrite weight_cons, IH, count_cons. unfold count_weight.
  rewrite (N.eqb_sym c x). destruct (N.eqb x c); lia.
Qed.

Lemma weight_balance (opening closing : codepoint) (s : str) :
  opening <> closing ->
  weight (balance_weight opening closing) s = balance opening closing s.
Proof.
  intros Hne. unfold balance.
  induction s as [|c s IH]; [reflexivity|].
  rewrite weight_cons, IH, !count_cons. unfold balance_weight.
  rewrite (N.eqb_sym c opening), (N.eqb_sym c closing).
  destruct (N.eqb_spec opening c) as [->|], (N.eqb_spec closing c) as [->|];
    first [lia | congruence].
Qed.

Lemma expand_weight (w : codepoint -> Z) (t : template) (caps : list str) :
  weight w (expand t caps)
  = (weight w (template_chars t)
     + weight w (concat (map (fun n => nth (n - 1) caps []) (refs t))))%Z.
Proof.
  unfold expand, template_chars, refs.
  induction t as [|[c|n] t IH]; [reflexivity | |]; cbn [flat_map].
  - cbn [app]. rewrite !weight_cons, IH. cbn [app]. lia.
  - rewrite weight_app, IH. cbn [app map concat]. rewrite weight_app. lia.
Qed.

Lemma app_before (e : codepoint) (a b c d : str) :
  a ++ b = c ++ e :: d -> ~ In e b ->
  exists x, a = c ++ e :: x /\ d = x ++ b.
Proof.
  revert c. induction a as [|y a IH]; intros c E Hb.
  - cbn in E. subst b. exfalso. apply Hb. rewrite in_app_iff. right. now left.
  - destruct c as [|z c]; cbn in E; injection E as -> E.
    + exists a. now subst d.
    + destruct (IH c E Hb) as (x & -> & ->). now exists x.
Qed.

(** ** The [main] of the translation *)

Lemma printed_app (a b : list str) : printed (a ++ b) = printed a ++ printed b.
Proof. unfold printed. apply flat_map_app. Qed.

Lemma print_printed (line : str) (stdout : str) (lines : list str) :
  print line stdout ++ printed lines = stdout ++ printed (line :: lines).
Proof.
  unfold print, printed. cbn [flat_map]. now rewrite <- !app_assoc.
Qed.

Lemma changed_names_same (name name' content : str) (before after : directory) :
  changed_names ((name, content) :: before) ((name', content) :: after)
  = changed_names before after.
Proof.
  unfold changed_names. cbn [combine filter fst snd].
  now rewrite str_eqb_refl.
Qed.

Lemma changed_names_new (name name' content content' : str)
    (before after : directory) :
  content' <> content ->
  changed_names ((name, content) :: before) ((name', content') :: after)
  = name :: changed_names before after.
Proof.
  intros H. unfold changed_names. cbn [combine filter fst snd].
  rewrite (proj2 (str_eqb_neq content content')) by congruence.
  reflexivity.
Qed.

Lemma written_names_cons (f : str -> result str) (name content : str)
    (entries : directory) :
  written_names f ((name, content) :: entries)
  = if is_rs name
       && match f content with
          | Ok r => negb (str_eqb content r)
          | Raise _ => false
          end
    then name :: written_names f entries
    else written_names f entries.
Proof.
  unfold written_names. cbn [filter fst snd].
  now destruct (is_rs name && _).
Qed.

Lemma translate_loop_spec (tree : directory) :
  exists tree',
    (forall stdout n,
        translate_loop tree stdout n
        = (tree',
           stdout ++ printed (map translated_line (changed_names tree tree')),
           (n + List.length (changed_names tree tree'))%nat))
    /\ Forall2 translated_entry tree tree'
    /\ changed_names tree tree'
       = written_names (fun content => Ok (translate_content content)) tree
    /\ (List.length (changed_names tree tree')
        <= List.length (rust_files (Some tree)))%nat.
Proof.
  induction tree as [|[filepath content] tree IH].
  - exists []. repeat split; [|constructor|cbn; lia].
    intros stdout n. cbn. now rewrite app_nil_r, Nat.add_0_r.
  - destruct IH as (tree' & Hloop & Hall & Hnames & Hlen).
    cbn [rust_files filter fst] in Hlen |- *.
    rewrite written_names_cons.
    assert (Hkeep : forall stdout n,
               (let r := translate_loop tree stdout n in
                ((filepath, content) :: fst (fst r), snd (fst r), snd r))
               = ((filepath, content) :: tree',
                  stdout ++ printed (map translated_line
                                       (changed_names
                                          ((filepath, content) :: tree)
                                          ((filepath, content) :: tree'))),
                  (n + List.length (changed_names
                                      ((filepath, content) :: tree)
                                      ((filepath, content) :: tree')))%nat)).
    { intros stdout n. cbv zeta. rewrite Hloop. cbn [fst snd].
      now rewrite changed_names_same. }
    destruct (is_rs filepath) eqn:Ers; cbn [andb].
    + destruct (snd (translate_file content)) eqn:Et.
      * exists ((filepath, fst (translate_file content)) :: tree').
        rewrite translate_file_snd in Et. apply negb_true_iff in Et.
        assert (Hne : fst (translate_file content) <> content)
          by (rewrite translate_file_fst; now apply str_eqb_neq in Et).
        rewrite changed_names_new by exact Hne.
        rewrite translate_file_fst in Hne |- *.
        rewrite (proj2 (str_eqb_neq content (translate_content content)))
          by congruence.
        cbn [negb]. repeat split.
        -- intros stdout n. cbn [translate_loop]. rewrite Ers.
           rewrite translate_file_snd, Et. cbn [negb].
           cbv zeta. rewrite Hloop. cbn [fst snd map List.length].
           rewrite print_printed, translate_file_fst. f_equal. lia.
        -- constructor; [|exact Hall]. unfold translated_entry.
           cbn [fst snd]. rewrite Ers.
           repeat split. right.
           destruct (translate_content_with_non_ascii TRANSLATIONS content
                       ascii_target_TRANSLATIONS) as [E|E];
             [contradiction | exact E].
        -- now f_equal.
        -- cbn [List.length]. lia.
      * exists ((filepath, content) :: tree').
        rewrite translate_file_snd in Et. apply negb_false_iff in Et.
        apply str_eqb_eq in Et.
        rewrite changed_names_same, Et, str_eqb_refl. cbn [negb].
        repeat split.
        -- intros stdout n. cbn [translate_loop]. rewrite Ers.
           rewrite translate_file_snd, Et, str_eqb_refl. cbn [negb].
           rewrite <- (changed_names_same filepath filepath content tree tree').
           apply Hkeep.
        -- constructor; [|exact Hall]. unfold translated_entry.
           cbn [fst snd]. rewrite Ers, Et.
           repeat split. now left.
        -- exact Hnames.
        -- cbn [List.length]. lia.
    + exists ((filepath, content) :: tree').
      rewrite changed_names_same. repeat split.
      * intros stdout n. cbn [translate_loop]. rewrite Ers.
        rewrite <- (changed_names_same filepath filepath content tree tree').
        apply Hkeep.
      * constructor; [|exact Hall]. unfold translated_entry.
           cbn [fst snd]. rewrite Ers.
        repeat split. now left.
      * exact Hnames.
      * exact Hlen.
Qed.

(** X13. [main] of the translation writes the files it reports and no other.
    A file whose name ends in [.rs] holds afterwards the translation of its
    text, any other file the text it had; the names printed are, in order,
    those of the [.rs] files whose translation differs from their text,
    which are the files whose text has changed, and the count printed is
    their number, out of the number of files that end in [.rs]. Without a
    directory [src] it reports none of none. *)
Theorem translate_main_reports_what_it_writes (tree : directory) :
  translate_main None = (None, printed [translated_summary 0 0])
  /\ exists tree',
      translate_main (Some tree)
      = (Some tree',
         printed (map translated_line (changed_names tree tree')
                  ++ [translated_summary
                        (List.length (changed_names tree tree'))
                        (List.length (rust_files (Some tree)))]))
      /\ Forall2 translated_entry tree tree'
      /\ changed_names tree tree'
         = written_names (fun content => Ok (translate_content content)) tree
      /\ (List.length (changed_names tree tree')
          <= List.length (rust_files (Some tree)))%nat.
Proof.
  split; [reflexivity|].
  destruct (translate_loop_spec tree) as (tree' & Hloop & Hall & Hn & Hlen).
  exists tree'. split; [|repeat split; assumption].
  unfold translate_main. cbv zeta. rewrite Hloop.
  cbn [option_map fst snd app Nat.add]. f_equal.
  unfold print. rewrite printed_app. cbn [printed flat_map app].
  now rewrite app_nil_r.
Qed.

(** ** The length of a translation *)








(** ** The matcher against the declarative reading *)

Section EngineProperties.

Context {ud : UnicodeData}.

Lemma match_here_sound (p : regex) (caps : list str) (s : str)
    (caps' : list str) (rest : str) :
  match_here p caps s = Some (caps', rest) ->
  exists m gs, s = m ++ rest /\ caps' = caps ++ gs /\ Matches p m gs.
Proof.
  revert caps s. induction p as [|a p IH]; intros caps s H.
  - injection H as <- <-. exists [], []. rewrite app_nil_r.
    repeat split. constructor.
  - destruct a as [c|k|k]; cbn [match_here] in H.
    + destruct s as [|x s]; [discriminate|].
      destruct (N.eqb_spec x c) as [->|]; [|discriminate].
      destruct (IH _ _ H) as (m & gs & -> & -> & HM).
      exists (c :: m), gs. repeat split. now constructor.
    + apply rep_sound in H. destruct H as (w & r0 & -> & Hw & H).
      destruct (IH _ _ H) as (m & gs & -> & -> & HM).
      exists (w ++ m), gs. rewrite <- app_assoc. repeat split.
      now constructor.
    + apply rep_sound in H. destruct H as (w & r0 & -> & Hw & H).
      cbn [app] in H. destruct w as [|x w]; [discriminate|].
      destruct (IH _ _ H) as (m & gs & -> & -> & HM).
      exists ((x :: w) ++ m), ((x :: w) :: gs).
      rewrite <- !app_assoc. repeat split.
      constructor; [discriminate | exact Hw | exact HM].
Qed.

Lemma match_here_complete (p : regex) (m : str) (gs : list str) :
  Matches p m gs ->
  forall caps rest, match_here p caps (m ++ rest) <> None.
Proof.
  induction 1 as [|c p m gs _ IH|k p w m gs Hw _ IH|k p w m gs Hne Hw _ IH];
    intros caps rest.
  - discriminate.
  - cbn [app match_here]. rewrite N.eqb_refl. apply IH.
  - cbn [match_here]. rewrite <- app_assoc.
    apply rep_complete; [exact Hw | apply IH].
  - cbn [match_here]. rewrite <- app_assoc.
    apply rep_complete; [exact Hw|].
    cbn [app]. destruct w; [congruence | apply IH].
Qed.

Lemma re_match_sound (p : regex) (s : str) (caps : list str) (rest : str) :
  re_match p s = Some (caps, rest) ->
  exists m, s = m ++ rest /\ Matches p m caps.
Proof.
  intros H. apply match_here_sound in H.
  destruct H as (m & gs & -> & -> & HM). now exists m.
Qed.

Lemma re_match_complete (p : regex) (m : str) (gs : list str) (rest : str) :
  Matches p m gs -> re_match p (m ++ rest) <> None.
Proof. intros H. now apply match_here_complete with (gs := gs). Qed.

Lemma re_match_None (p : regex) (pre s : str) :
  ~ occurs p (pre ++ s) -> re_match p s = None.
Proof.
  intros H. destruct (re_match p s) as [[caps rest]|] eqn:E; [|reflexivity].
  exfalso. apply H. apply re_match_sound in E. destruct E as (m & -> & HM).
  now exists pre, m, caps, rest.
Qed.

Lemma occurs_cons (p : regex) (c : codepoint) (s : str) :
  occurs p s -> occurs p (c :: s).
Proof.
  intros (pre & m & gs & post & -> & HM). now exists (c :: pre), m, gs, post.
Qed.

Lemma re_search_unfold (p : regex) (s : str) :
  re_search p s =
  match re_match p s with
  | Some _ => true
  | None => match s with
            | [] => false
            | _ :: s' => re_search p s'
            end
  end.
Proof. destruct s; reflexivity. Qed.

Lemma re_search_occurs (p : regex) (s : str) :
  re_search p s = true <-> occurs p s.
Proof.
  split.
  - induction s as [|c s IH]; rewrite re_search_unfold.
    + destruct (re_match p []) as [[caps rest]|] eqn:E; [|discriminate].
      intros _. apply re_match_sound in E. destruct E as (m & E & HM).
      exists [], m, caps, rest. auto.
    + destruct (re_match p (c :: s)) as [[caps rest]|] eqn:E.
      * intros _. apply re_match_sound in E. destruct E as (m & E & HM).
        exists [], m, caps, rest. auto.
      * intros H. apply occurs_cons. auto.
  - intros (pre & m & gs & post & -> & HM).
    induction pre as [|c pre IH]; rewrite re_search_unfold.
    + cbn [app]. pose proof (re_match_complete p m gs post HM) as Hc.
      destruct (re_match p (m ++ post)); [reflexivity | congruence].
    + destruct (re_match p ((c :: pre) ++ m ++ post)); [reflexivity | exact IH].
Qed.

Lemma re_search_false (p : regex) (s : str) :
  re_search p s = false <-> ~ occurs p s.
Proof.
  rewrite <- re_search_occurs. destruct (re_search p s); split; congruence.
Qed.

(** ** The scan of a substitution *)

Lemma sub_scan_skip (p : regex) (t : template) (a s : str) :
  sub_scan p t (List.length a) (a ++ s) = sub_scan p t 0 s.
Proof.
  induction a as [|c a IH]; [reflexivity | exact IH].
Qed.

Lemma sub_scan_miss (p : regex) (t : template) (c : codepoint) (s : str) :
  re_match p (c :: s) = None ->
  sub_scan p t 0 (c :: s) = c :: sub_scan p t 0 s.
Proof. intros H. cbn [sub_scan]. now rewrite H. Qed.

Lemma sub_scan_hit (p : regex) (t : template) (m rest : str)
    (caps : list str) :
  m <> [] ->
  re_match p (m ++ rest) = Some (caps, rest) ->
  sub_scan p t 0 (m ++ rest) = expand t caps ++ sub_scan p t 0 rest.
Proof.
  intros Hm H. destruct m as [|c m]; [congruence|].
  cbn [app] in *. cbn [sub_scan]. rewrite H.
  replace (List.length (c :: m ++ rest) - List.length rest)%nat
    with (S (List.length m)) by (cbn [List.length]; rewrite length_app; lia).
  now rewrite sub_scan_skip.
Qed.

Lemma sub_scan_end (p : regex) (t : template) :
  re_match p [] = None -> sub_scan p t 0 [] = [].
Proof. intros H. cbn [sub_scan]. now rewrite H. Qed.

(** A pattern that occurs nowhere leaves the text as it is. *)
Lemma sub_scan_absent (p : regex) (t : template) (s : str) :
  ~ occurs p s -> sub_scan p t 0 s = s.
Proof.
  induction s as [|c s IH]; intros H.
  - apply sub_scan_end. now apply (re_match_None p []).
  - rewrite sub_scan_miss by now apply (re_match_None p []).
    f_equal. apply IH. intros Ho. apply H. now apply occurs_cons.
Qed.

(** A pattern that matches a whole text, and nothing of it in any other
    way, replaces it by the expansion of the template. *)
Lemma sub_scan_whole (p : regex) (t : template) (s : str) (caps : list str) :
  s <> [] ->
  re_match p s = Some (caps, []) ->
  re_match p [] = None ->
  sub_scan p t 0 s = expand t caps.
Proof.
  intros Hs H Hend.
  rewrite <- (app_nil_r s) at 1.
  rewrite (sub_scan_hit p t s [] caps Hs); [|now rewrite app_nil_r].
  rewrite sub_scan_end by exact Hend. now rewrite app_nil_r.
Qed.

(** ** What a match looks like *)

Lemma Matches_app_inv (p q : regex) (m : str) (gs : list str) :
  Matches (p ++ q) m gs ->
  exists m1 m2 g1 g2,
    m = m1 ++ m2 /\ gs = g1 ++ g2 /\ Matches p m1 g1 /\ Matches q m2 g2.
Proof.
  revert m gs. induction p as [|a p IH]; intros m gs H.
  - exists [], m, [], gs. repeat split; [constructor | exact H].
  - cbn [app] in H. inversion H; subst;
      match goal with
      | HM : Matches (p ++ q) _ _ |- _ =>
          destruct (IH _ _ HM) as (m1 & m2 & g1 & g2 & -> & -> & HA & HB)
      end.
    + exists (c :: m1), m2, g1, g2. repeat split; [now constructor | exact HB].
    + exists (w ++ m1), m2, g1, g2. rewrite <- app_assoc.
      repeat split; [now constructor | exact HB].
    + exists (w ++ m1), m2, (w :: g1), g2. rewrite <- app_assoc.
      repeat split; [now constructor | exact HB].
Qed.

Lemma Matches_groups (p : regex) (m : str) (gs : list str) :
  Matches p m gs -> List.length gs = groups p.
Proof.
  unfold groups. induction 1; cbn [filter List.length]; auto.
Qed.

Lemma Matches_caps_fit (p : regex) (m : str) (gs : list str) :
  Matches p m gs -> caps_fit p gs = true.
Proof.
  induction 1 as [|c p m gs _ IH|k p w m gs _ _ IH|k p w m gs Hne Hw _ IH];
    cbn [caps_fit hd tl]; auto.
  rewrite Hw, IH. destruct w; [congruence | reflexivity].
Qed.

Lemma forallb_class_excludes (k : cclass) (c : codepoint) (w : str) :
  in_class k c = false -> forallb (in_class k) w = true -> ~ In c w.
Proof.
  intros Hc Hw Hin. rewrite forallb_forall in Hw.
  specialize (Hw _ Hin). congruence.
Qed.

(** A character that is no literal of the pattern and that no class of
    the pattern admits is in no match. *)
Lemma Matches_excludes (c : codepoint) (p : regex) (m : str) (gs : list str) :
  mem c (literals p) = false -> classes_exclude c p = true ->
  Matches p m gs -> ~ In c m.
Proof.
  intros Hl Hk HM. revert Hl Hk.
  induction HM as [|x p m gs _ IH|k p w m gs Hw _ IH|k p w m gs _ Hw _ IH];
    cbn [literals flat_map classes_exclude forallb app mem existsb];
    intros Hl Hk.
  - tauto.
  - apply orb_false_elim in Hl. destruct Hl as [Hx Hl].
    apply N.eqb_neq in Hx. intros [E|E]; [congruence|].
    now apply IH.
  - apply andb_prop in Hk. destruct Hk as [Hc Hk].
    apply negb_true_iff in Hc. rewrite in_app_iff. intros [E|E].
    + now apply (forallb_class_excludes k c w).
    + now apply IH.
  - apply andb_prop in Hk. destruct Hk as [Hc Hk].
    apply negb_true_iff in Hc. rewrite in_app_iff. intros [E|E].
    + now apply (forallb_class_excludes k c w).
    + now apply IH.
Qed.

(** Every literal character of the pattern is in every match. *)
Lemma Matches_literal (c : codepoint) (p : regex) (m : str) (gs : list str) :
  In c (literals p) -> Matches p m gs -> In c m.
Proof.
  intros Hl HM. revert Hl.
  induction HM; cbn [literals flat_map app]; intros Hl.
  - exact Hl.
  - destruct Hl as [E|E]; [left; exact E | right; auto].
  - rewrite in_app_iff. auto.
  - rewrite in_app_iff. auto.
Qed.

(** A character that no class of the pattern admits occurs in a match as
    often as among the literals of the pattern. *)
Lemma Matches_count (c : codepoint) (p : regex) (m : str) (gs : list str) :
  classes_exclude c p = true ->
  Matches p m gs -> count c m = count c (literals p).
Proof.
  intros Hk HM. revert Hk.
  induction HM as [|x p m gs _ IH|k p w m gs Hw _ IH|k p w m gs _ Hw _ IH];
    cbn [literals flat_map classes_exclude forallb app]; intros Hk.
  - reflexivity.
  - rewrite !count_cons. f_equal. now apply IH.
  - apply andb_prop in Hk. destruct Hk as [Hc Hk].
    apply negb_true_iff in Hc. rewrite count_app.
    rewrite (proj2 (count_zero c w)); [now apply IH|].
    now apply (forallb_class_excludes k c w).
  - apply andb_prop in Hk. destruct Hk as [Hc Hk].
    apply negb_true_iff in Hc. rewrite count_app.
    rewrite (proj2 (count_zero c w)); [now apply IH|].
    now apply (forallb_class_excludes k c w).
Qed.

Lemma Matches_chr_inv (c : codepoint) (p : regex) (m : str) (gs : list str) :
  Matches (Chr c :: p) m gs -> exists m', m = c :: m' /\ Matches p m' gs.
Proof. inversion 1; subst. eauto. Qed.

(** A deterministic pattern reads a text in one way. *)
Lemma Matches_unique (p : regex) :
  deterministic p = true ->
  forall m gs m' gs' r r',
    Matches p m gs -> Matches p m' gs' -> m ++ r = m' ++ r' ->
    m = m' /\ gs = gs' /\ r = r'.
Proof.
  induction p as [|a p IH]; intros Hd m gs m' gs' r r' H H' E.
  - inversion H; inversion H'; subst. auto.
  - destruct a as [c|k|k]; cbn [deterministic] in Hd.
    + destruct (Matches_chr_inv _ _ _ _ H) as (m1 & -> & H1).
      destruct (Matches_chr_inv _ _ _ _ H') as (m1' & -> & H1').
      cbn [app] in E. injection E as E.
      destruct (IH Hd _ _ _ _ _ _ H1 H1' E) as (-> & -> & ->). auto.
    + destruct p as [|[x| |] p]; try discriminate.
      apply andb_prop in Hd. destruct Hd as [Hx Hd].
      apply negb_true_iff in Hx.
      inversion H as [| |? ? w m1 ? Hw H1|]; subst.
      inversion H' as [| |? ? w' m1' ? Hw' H1'|]; subst.
      destruct (Matches_chr_inv _ _ _ _ H1) as (m2 & -> & _).
      destruct (Matches_chr_inv _ _ _ _ H1') as (m2' & -> & _).
      rewrite <- !app_assoc in E. cbn [app] in E.
      destruct (run_unique _ _ _ _ _ _ _ Hw Hw' Hx Hx E) as [-> E'].
      destruct (IH Hd _ _ _ _ r r' H1 H1' E') as (-> & -> & ->). auto.
    + destruct p as [|[x| |] p]; try discriminate.
      apply andb_prop in Hd. destruct Hd as [Hx Hd].
      apply negb_true_iff in Hx.
      inversion H as [| | |? ? w m1 g1 _ Hw H1]; subst.
      inversion H' as [| | |? ? w' m1' g1' _ Hw' H1']; subst.
      destruct (Matches_chr_inv _ _ _ _ H1) as (m2 & -> & _).
      destruct (Matches_chr_inv _ _ _ _ H1') as (m2' & -> & _).
      rewrite <- !app_assoc in E. cbn [app] in E.
      destruct (run_unique _ _ _ _ _ _ _ Hw Hw' Hx Hx E) as [-> E'].
      destruct (IH Hd _ _ _ _ r r' H1 H1' E') as (-> & -> & ->). auto.
Qed.


Lemma render_Matches (p : regex) (gaps caps : list str) :
  fits p gaps caps = true ->
  Matches p (render p gaps caps) (firstn (groups p) caps).
Proof.
  unfold groups.
  revert gaps caps. induction p as [|a p IH]; intros gaps caps H.
  - constructor.
  - destruct a as [c|k|k]; cbn [fits] in H;
      cbn [render filter List.length].
    + constructor. now apply IH.
    + apply andb_prop in H. destruct H as [Hg H].
      constructor; [exact Hg | now apply IH].
    + destruct caps as [|w caps]; [discriminate|].
      cbn [hd tl] in *. destruct w as [|x w]; [discriminate|].
      apply andb_prop in H. destruct H as [Hw H].
      cbn [firstn]. constructor; [discriminate | exact Hw | now apply IH].
Qed.

Lemma fits_intro (p : regex) (gaps caps : list str) :
  only_space_stars p = true -> all_space gaps = true ->
  caps_fit p caps = true -> fits p gaps caps = true.
Proof.
  revert gaps caps. induction p as [|a p IH]; intros gaps caps Hs Hg Hc;
    [reflexivity|].
  cbn [only_space_stars forallb] in Hs. apply andb_prop in Hs.
  destruct Hs as [Ha Hs].
  destruct a as [c|k|k]; cbn [fits caps_fit] in *.
  - now apply IH.
  - destruct k; try discriminate. cbn [in_class].
    rewrite all_space_hd by exact Hg. cbn [andb].
    apply IH; [exact Hs | now apply all_space_tl | exact Hc].
  - apply andb_prop in Hc. destruct Hc as [Hc Hc'].
    apply andb_prop in Hc. destruct Hc as [Hne Hw].
    destruct (hd [] caps); [discriminate|].
    rewrite Hw. cbn [andb]. now apply IH.
Qed.

(** ** Occurrences *)

Lemma occurs_needs (c : codepoint) (p : regex) (s : str) :
  In c (literals p) -> ~ In c s -> ~ occurs p s.
Proof.
  intros Hl Hs (pre & m & gs & post & -> & HM).
  apply Hs. rewrite !in_app_iff. right. left.
  now apply (Matches_literal c p m gs).
Qed.

(** A pattern without double quote occurs, in a text with a quoted part,
    before the quotes, between them or behind them. *)
Lemma occurs_unquoted (p : regex) (hd C tl : str) :
  mem DQ (literals p) = false -> classes_exclude DQ p = true ->
  occurs p (hd ++ DQ :: C ++ DQ :: tl) ->
  occurs p hd \/ occurs p C \/ occurs p tl.
Proof.
  intros Hl Hk (pre & m & gs & post & E & HM).
  pose proof (Matches_excludes DQ p m gs Hl Hk HM) as Hm.
  symmetry in E. destruct (infix_avoid DQ _ _ _ _ _ E Hm) as [(x & ->)|(y & E')].
  - left. now exists pre, m, gs, x.
  - symmetry in E'.
    destruct (infix_avoid DQ _ _ _ _ _ E' Hm) as [(x & ->)|(z & ->)].
    + right. left. now exists y, m, gs, x.
    + right. right. now exists z, m, gs, post.
Qed.

Lemma Matches_quoted_literal (m : str) (gs : list str) :
  Matches quoted_literal m gs ->
  exists w, m = DQ :: w ++ [DQ] /\ gs = [w] /\ w <> [] /\ ~ In DQ w.
Proof.
  unfold quoted_literal. intros H.
  apply Matches_chr_inv in H. destruct H as (m1 & -> & H).
  inversion H as [| | |? ? w m2 g2 Hne Hw H2]; subst.
  apply Matches_chr_inv in H2. destruct H2 as (m3 & -> & H3).
  inversion H3; subst.
  exists w. repeat split; auto.
  now apply (forallb_class_excludes NotDQuote DQ w).
Qed.

(** A quoted pattern occurs in a text with one quoted part only at that
    part: the literal is not empty and the tail of the pattern matches
    what follows it. *)
Lemma occurs_quoted (tail : regex) (hd C tl : str) :
  mem DQ (literals tail) = false -> classes_exclude DQ tail = true ->
  ~ In DQ hd -> ~ In DQ C -> ~ In DQ tl ->
  occurs (message_head ++ quoted_literal ++ tail) (hd ++ DQ :: C ++ DQ :: tl) ->
  C <> [] /\ exists T post gt, tl = T ++ post /\ Matches tail T gt.
Proof.
  intros Hl Hk Hhd HC Htl (pre & m & gs & post & E & HM).
  apply Matches_app_inv in HM.
  destruct HM as (H & m' & gh & g' & -> & -> & HH & HM).
  apply Matches_app_inv in HM.
  destruct HM as (Q & T & gq & gt & -> & -> & HQ & HT).
  apply Matches_quoted_literal in HQ.
  destruct HQ as (w & -> & -> & Hne & Hw).
  assert (HH' : ~ In DQ H)
    by (apply (Matches_excludes DQ message_head H gh); auto).
  assert (HT' : ~ In DQ T)
    by (apply (Matches_excludes DQ tail T gt); auto).
  assert (Hcount : count DQ (hd ++ DQ :: C ++ DQ :: tl) = 2%nat).
  { rewrite !count_app, !count_cons, !count_app, !count_cons.
    rewrite (proj2 (count_zero DQ hd) Hhd), (proj2 (count_zero DQ C) HC),
      (proj2 (count_zero DQ tl) Htl). reflexivity. }
  rewrite E in Hcount.
  rewrite !count_app, !count_cons, !count_app, !count_cons in Hcount.
  rewrite (proj2 (count_zero DQ H) HH'), (proj2 (count_zero DQ w) Hw),
    (proj2 (count_zero DQ T) HT') in Hcount.
  cbn [N.eqb DQ Pos.eqb count List.length filter] in Hcount.
  assert (Hpre : ~ In DQ pre) by (apply count_zero; lia).
  assert (E' : hd ++ DQ :: (C ++ DQ :: tl)
               = (pre ++ H) ++ DQ :: (w ++ DQ :: (T ++ post))).
  { rewrite E. repeat (rewrite <- app_assoc; cbn [app]). reflexivity. }
  apply first_split_unique in E'; [|exact Hhd|rewrite in_app_iff; tauto].
  destruct E' as [_ E'].
  apply first_split_unique in E'; [|exact HC|exact Hw].
  destruct E' as [-> ->]. split; [exact Hne|]. now exists T, post, gt.
Qed.

Lemma fix_message_construction_scan (content : str) :
  fix_message_construction content =
  Ok (sub_scan regex3 template3 0
        (sub_scan regex2 template2 0
           (sub_scan regex1 template1 0 content))).
Proof. reflexivity. Qed.

(** The rewriter leaves a text in which none of its patterns occurs. *)
Lemma fix_message_construction_absent (s : str) :
  ~ occurs regex1 s -> ~ occurs regex2 s -> ~ occurs regex3 s ->
  fix_message_construction s = Ok s.
Proof.
  intros H1 H2 H3. rewrite fix_message_construction_scan.
  rewrite (sub_scan_absent regex1) by exact H1.
  rewrite (sub_scan_absent regex2) by exact H2.
  rewrite (sub_scan_absent regex3) by exact H3.
  reflexivity.
Qed.

Lemma caps_fit_message_head (role : str) (rest : list str) :
  role_name role = true -> caps_fit message_head (role :: rest) = true.
Proof.
  unfold role_name. intros H. apply andb_prop in H. destruct H as [Hne Hw].
  unfold message_head. cbn [caps_fit hd tl].
  change (in_class Word) with is_word.
  now rewrite Hne, Hw.
Qed.

Lemma Matches_message_head (gaps : list str) (role : str) (rest : list str) :
  all_space gaps = true -> role_name role = true ->
  Matches message_head (render message_head gaps (role :: rest)) [role].
Proof.
  intros Hg Hr.
  change [role] with (firstn (groups message_head) (role :: rest)).
  apply render_Matches. apply fits_intro;
    [reflexivity | exact Hg | now apply caps_fit_message_head].
Qed.

Lemma Matches_tail (tail : regex) (gaps : list str) :
  only_space_stars tail = true -> caps_fit tail [] = true ->
  groups tail = O ->
  all_space gaps = true ->
  Matches tail (render tail gaps []) [].
Proof.
  intros Hs Hc Hn Hg.
  replace (@nil str) with (firstn (groups tail) (@nil str)) at 2
    by (now rewrite Hn).
  apply render_Matches. now apply fits_intro.
Qed.

(** A rendered construct is matched as a whole by its own pattern, when
    this one is deterministic. *)
Lemma re_match_render (p : regex) (gaps caps : list str) :
  deterministic p = true -> fits p gaps caps = true ->
  re_match p (render p gaps caps) = Some (firstn (groups p) caps, []).
Proof.
  intros Hd Hf. pose proof (render_Matches p gaps caps Hf) as HM.
  pose proof (re_match_complete p _ _ [] HM) as Hc.
  rewrite app_nil_r in Hc.
  destruct (re_match p (render p gaps caps)) as [[caps' rest]|] eqn:E;
    [|congruence].
  apply re_match_sound in E. destruct E as (m & E & HM').
  rewrite <- (app_nil_r (render p gaps caps)) in E.
  destruct (Matches_unique p Hd _ _ _ _ _ _ HM HM' E) as (_ & -> & <-).
  reflexivity.
Qed.

Lemma sub_scan_render (p : regex) (t : template) (gaps caps : list str)
    (c : codepoint) (p' : regex) :
  p = Chr c :: p' ->
  deterministic p = true -> fits p gaps caps = true ->
  sub_scan p t 0 (render p gaps caps) = expand t (firstn (groups p) caps).
Proof.
  intros Hp Hd Hf. apply sub_scan_whole.
  - rewrite Hp. discriminate.
  - now apply re_match_render.
  - rewrite Hp. reflexivity.
Qed.

Lemma fits_quoted (tail : regex) (gaps : list str) (role content : str) :
  only_space_stars tail = true -> caps_fit tail [] = true ->
  all_space gaps = true -> role_name role = true ->
  plain_literal content = true ->
  fits (message_head ++ quoted_literal ++ tail) gaps [role; content] = true.
Proof.
  intros Hs Hc Hg Hr Hl. apply fits_intro; [| exact Hg |].
  - unfold only_space_stars in *. rewrite !forallb_app, Hs. reflexivity.
  - unfold role_name, plain_literal in *.
    apply andb_prop in Hr. destruct Hr as [Hr1 Hr2].
    apply andb_prop in Hl. destruct Hl as [Hl1 Hl2].
    unfold message_head, quoted_literal.
    cbn [app caps_fit hd tl].
    change (in_class Word) with is_word.
    change (in_class NotDQuote) with (fun c => negb (c =? DQ)).
    rewrite Hr1, Hr2, Hl1. cbn [andb].
    apply andb_true_intro. split; [exact Hl2 | exact Hc].
Qed.

(** ** Constructs with a quoted literal *)

Section Quoted.

Variable tail : regex.
Hypothesis tail_spaces : only_space_stars tail = true.
Hypothesis tail_caps : caps_fit tail [] = true.
Hypothesis tail_groups : groups tail = O.
Hypothesis tail_no_dq_lit : mem DQ (literals tail) = false.
Hypothesis tail_no_dq : classes_exclude DQ tail = true.
Hypothesis tail_no_lbrace_lit : mem LBRACE (literals tail) = false.
Hypothesis tail_no_lbrace : classes_exclude LBRACE tail = true.

Variable gaps : list str.
Variable role : str.
Hypothesis gaps_space : all_space gaps = true.
Hypothesis role_word : role_name role = true.

Local Abbreviation head_text content :=
  (render message_head gaps [role; content]).
Local Abbreviation tail_text := (render tail (drop 5 gaps) []).

Lemma quoted_hd (content : str) :
  Matches message_head (head_text content) [role].
Proof. now apply Matches_message_head. Qed.

Lemma quoted_tl : Matches tail tail_text [].
Proof.
  apply Matches_tail; auto. now apply all_space_drop.
Qed.

Lemma quoted_hd_no_dq (content : str) : ~ In DQ (head_text content).
Proof.
  apply (Matches_excludes DQ message_head _ [role]);
    [reflexivity | reflexivity | apply quoted_hd].
Qed.

Lemma quoted_hd_no_rbrace (content : str) : ~ In RBRACE (head_text content).
Proof.
  apply (Matches_excludes RBRACE message_head _ [role]);
    [reflexivity | reflexivity | apply quoted_hd].
Qed.

Lemma quoted_tl_no_dq : ~ In DQ tail_text.
Proof.
  apply (Matches_excludes DQ tail _ []); auto. apply quoted_tl.
Qed.

Lemma quoted_tl_no_lbrace : ~ In LBRACE tail_text.
Proof.
  apply (Matches_excludes LBRACE tail _ []); auto. apply quoted_tl.
Qed.

(** The bare-variable pattern occurs in a quoted construct only inside the
    literal. *)
Lemma pattern2_in_quoted (content : str) :
  occurs regex2
    (render (message_head ++ quoted_literal ++ tail) gaps [role; content]) ->
  occurs regex2 content.
Proof.
  rewrite render_quoted. intros H.
  apply occurs_unquoted in H; [|reflexivity|reflexivity].
  destruct H as [H|[H|H]]; [exfalso|exact H|exfalso].
  - revert H. apply (occurs_needs RBRACE).
    + unfold regex2, literals. cbn. tauto.
    + apply quoted_hd_no_rbrace.
  - revert H. apply (occurs_needs LBRACE).
    + unfold regex2, literals. cbn. tauto.
    + apply quoted_tl_no_lbrace.
Qed.

(** A quoted pattern occurs in a quoted construct with a plain or empty
    literal only when the literal is not empty and the two tails agree. *)
Lemma quoted_in_quoted (tail' : regex) (content : str) :
  mem DQ (literals tail') = false -> classes_exclude DQ tail' = true ->
  ~ In DQ content ->
  occurs (message_head ++ quoted_literal ++ tail')
    (render (message_head ++ quoted_literal ++ tail) gaps [role; content]) ->
  content <> [] /\ exists T post gt, tail_text = T ++ post /\ Matches tail' T gt.
Proof.
  rewrite render_quoted. intros Hl Hk Hc H.
  apply (occurs_quoted tail' (head_text content) content tail_text); auto.
  - apply quoted_hd_no_dq.
  - apply quoted_tl_no_dq.
Qed.

End Quoted.

(** A pattern with both braces and at most two double quotes occurs in no
    quoted construct whose literal holds a double quote and no brace. *)
Lemma quoted_many_quotes (tail : regex) (gaps : list str) (role content : str)
    (p : regex) :
  only_space_stars tail = true -> caps_fit tail [] = true ->
  groups tail = O ->
  mem DQ (literals tail) = false -> classes_exclude DQ tail = true ->
  mem LBRACE (literals tail) = false -> classes_exclude LBRACE tail = true ->
  all_space gaps = true -> role_name role = true ->
  In DQ content -> ~ In LBRACE content -> ~ In RBRACE content ->
  In LBRACE (literals p) -> In RBRACE (literals p) ->
  classes_exclude DQ p = true -> (count DQ (literals p) <= 2)%nat ->
  ~ occurs p
      (render (message_head ++ quoted_literal ++ tail) gaps [role; content]).
Proof.
  intros Hs Hc Hn Hdl Hdk Hbl Hbk Hg Hr Hq Hlb Hrb Hpl Hpr Hpk Hpc.
  rewrite render_quoted.
  set (hd := render message_head gaps [role; content]).
  set (tl := render tail (drop 5 gaps) []).
  assert (Hhd1 : ~ In DQ hd) by now apply quoted_hd_no_dq.
  assert (Hhd2 : ~ In RBRACE hd) by now apply quoted_hd_no_rbrace.
  assert (Htl1 : ~ In DQ tl) by now apply quoted_tl_no_dq.
  assert (Htl2 : ~ In LBRACE tl) by now apply quoted_tl_no_lbrace.
  intros (pre & m & gs & post & E & HM).
  assert (Hcount : count DQ m = count DQ (hd ++ DQ :: content ++ DQ :: tl)).
  { apply (span_count LBRACE RBRACE DQ _ pre m post E).
    - now apply (Matches_literal LBRACE p m gs).
    - now apply (Matches_literal RBRACE p m gs).
    - intros a b Ea. apply (before_in_prefix LBRACE DQ _ _ _ _ ) with (3 := Ea).
      + intros [H|H]; [discriminate|].
        apply in_app_iff in H. destruct H as [H|[H|H]];
          [tauto | discriminate | tauto].
      + exact Hhd1.
    - intros a b Ea.
      replace (hd ++ DQ :: content ++ DQ :: tl)
        with ((hd ++ DQ :: content ++ [DQ]) ++ tl) in Ea
        by (repeat (rewrite <- app_assoc; cbn [app]); reflexivity).
      apply (behind_in_suffix RBRACE DQ _ _ _ _) with (3 := Ea).
      + intros H. apply in_app_iff in H.
        destruct H as [H|[H|H]]; [tauto | discriminate |].
        apply in_app_iff in H. destruct H as [H|[H|[]]];
          [tauto | discriminate].
      + exact Htl1. }
  rewrite (Matches_count DQ p m gs Hpk HM) in Hcount.
  rewrite !count_app, !count_cons, !count_app, !count_cons in Hcount.
  pose proof (count_pos DQ content Hq) as Hpos.
  cbn [N.eqb DQ Pos.eqb] in Hcount. lia.
Qed.

(** ** Orchestration *)

Lemma fix_message_construction_total (s : str) :
  exists r, fix_message_construction s = Ok r.
Proof. rewrite fix_message_construction_scan. eauto. Qed.

Lemma process_total (m : mode) (s : str) :
  exists r, process m s = Ok (r, negb (str_eqb r s)).
Proof.
  unfold process. destruct m; rewrite ?fix_message_construction_scan;
    cbn [bind]; eauto.
Qed.

Lemma process_idle (m : mode) (s : str) :
  no_structural_pattern s = true -> no_effective_key TRANSLATIONS s = true ->
  process m s = Ok (s, false).
Proof.
  unfold no_structural_pattern. intros Hp Hk.
  apply andb_prop in Hp. destruct Hp as [Hp H3].
  apply andb_prop in Hp. destruct Hp as [H1 H2].
  apply negb_true_iff, re_search_false in H1, H2, H3.
  unfold process, translate_content.
  destruct m; rewrite ?fix_message_construction_absent by assumption;
    cbn [bind]; rewrite ?translate_content_with_idle by assumption;
    now rewrite str_eqb_refl.
Qed.

(** ** A double quote stops a pattern without double quote *)

Lemma rep_barrier (inclass : codepoint -> bool)
    (cont cont' : str -> str -> option (list str * str)) (rest : str) :
  inclass DQ = false ->
  (forall taken s, ~ In DQ s ->
     cont taken (s ++ DQ :: rest) = behind_quote rest (cont' taken s)) ->
  forall C taken, ~ In DQ C ->
    rep inclass cont taken (C ++ DQ :: rest)
    = behind_quote rest (rep inclass cont' taken C).
Proof.
  intros Hq Hk C. induction C as [|c C IH]; intros taken HC.
  - cbn [app rep]. rewrite Hq. now apply (Hk taken []).
  - cbn [app rep]. destruct (inclass c).
    + rewrite IH by (intros H; apply HC; now right).
      destruct (rep inclass cont' (taken ++ [c]) C) as [[g r]|];
        [reflexivity | now apply (Hk taken (c :: C))].
    + now apply (Hk taken (c :: C)).
Qed.

Lemma match_here_barrier (p : regex) (rest : str) :
  mem DQ (literals p) = false -> classes_exclude DQ p = true ->
  forall caps C, ~ In DQ C ->
    match_here p caps (C ++ DQ :: rest)
    = behind_quote rest (match_here p caps C).
Proof.
  induction p as [|a p IH]; intros Hl Hk caps C HC; [reflexivity|].
  destruct a as [c|k|k];
    cbn [literals flat_map app mem existsb classes_exclude forallb] in Hl, Hk.
  - apply orb_false_elim in Hl. destruct Hl as [Hc Hl].
    destruct C as [|x C]; cbn [app match_here].
    + now rewrite Hc.
    + destruct (x =? c); [|reflexivity].
      apply IH; [exact Hl | exact Hk |]. intros H. apply HC. now right.
  - apply andb_prop in Hk. destruct Hk as [Hq Hk].
    apply negb_true_iff in Hq. cbn [match_here].
    apply rep_barrier; [exact Hq | | exact HC].
    intros taken s Hs. now apply IH.
  - apply andb_prop in Hk. destruct Hk as [Hq Hk].
    apply negb_true_iff in Hq. cbn [match_here].
    apply rep_barrier; [exact Hq | | exact HC].
    intros [|x taken] s Hs; [reflexivity | now apply IH].
Qed.

Lemma Matches_nonempty (c : codepoint) (p : regex) (m : str) (gs : list str) :
  Matches (Chr c :: p) m gs -> m <> [].
Proof. intros H. apply Matches_chr_inv in H. destruct H as (m' & -> & _). discriminate. Qed.

(** The scan of a pattern without double quote goes through a text piece
    by piece, the pieces being what the double quotes separate. *)
Lemma sub_scan_barrier (c : codepoint) (p : regex) (t : template) (rest : str) :
  mem DQ (literals (Chr c :: p)) = false ->
  classes_exclude DQ (Chr c :: p) = true ->
  forall C, ~ In DQ C ->
    sub_scan (Chr c :: p) t 0 (C ++ DQ :: rest)
    = sub_scan (Chr c :: p) t 0 C ++ sub_scan (Chr c :: p) t 0 (DQ :: rest).
Proof.
  intros Hl Hk C.
  remember (List.length C) as n eqn:Hn. revert C Hn.
  induction n as [n IH] using lt_wf_ind. intros C Hn HC.
  destruct C as [|x C].
  - rewrite sub_scan_end by reflexivity. reflexivity.
  - pose proof (match_here_barrier (Chr c :: p) rest Hl Hk [] (x :: C) HC) as Hb.
    fold (re_match (Chr c :: p) ((x :: C) ++ DQ :: rest)) in Hb.
    fold (re_match (Chr c :: p) (x :: C)) in Hb.
    destruct (re_match (Chr c :: p) (x :: C)) as [[caps r]|] eqn:E;
      cbn [behind_quote option_map fst snd] in Hb.
    + destruct (re_match_sound _ _ _ _ E) as (m & Em & HM).
      pose proof (Matches_nonempty _ _ _ _ HM) as Hm.
      rewrite Em in *. rewrite <- app_assoc in Hb |- *.
      rewrite (sub_scan_hit _ t m (r ++ DQ :: rest) caps Hm Hb).
      rewrite (sub_scan_hit _ t m r caps Hm E).
      rewrite <- app_assoc. f_equal.
      apply (IH (List.length r)); [|reflexivity|].
      * subst n. rewrite length_app. destruct m; [congruence | simpl; lia].
      * intros H. apply HC. rewrite in_app_iff. tauto.
    + cbn [app] in Hb |- *.
      rewrite (sub_scan_miss _ t x _ Hb), (sub_scan_miss _ t x _ E).
      cbn [app]. f_equal.
      apply (IH (List.length C)); [subst n; simpl; lia | reflexivity |].
      intros H. apply HC. now right.
Qed.

(** ** The characters of a substitution *)

Lemma Matches_caps_chars (p : regex) (m : str) (gs : list str)
    (g : str) (x : codepoint) :
  Matches p m gs -> In g gs -> In x g -> In x m.
Proof.
  induction 1 as [|c p m gs _ IH|k p w m gs _ _ IH|k p w m gs _ _ _ IH];
    intros Hg Hx.
  - destruct Hg.
  - right. auto.
  - rewrite in_app_iff. auto.
  - rewrite in_app_iff. destruct Hg as [<-|Hg]; auto.
Qed.

Lemma expand_chars (t : template) (caps : list str) (x : codepoint) :
  In x (expand t caps) ->
  In x (template_chars t) \/ exists g, In g caps /\ In x g.
Proof.
  unfold expand, template_chars. induction t as [|i t IH]; [simpl; tauto|].
  cbn [flat_map]. rewrite !in_app_iff. intros [H|H].
  - destruct i as [c|n]; [left; left; exact H|].
    right. exists (nth (n - 1) caps []). split; [|exact H].
    destruct (nth_in_or_default (n - 1) caps []) as [Hin|Hd]; [exact Hin|].
    rewrite Hd in H. destruct H.
  - destruct (IH H) as [H'|H']; [left; right; exact H' | right; exact H'].
Qed.

Lemma sub_scan_chars (c : codepoint) (p : regex) (t : template)
    (x : codepoint) (s : str) :
  In x (sub_scan (Chr c :: p) t 0 s) -> In x s \/ In x (template_chars t).
Proof.
  remember (List.length s) as n eqn:Hn. revert s Hn.
  induction n as [n IH] using lt_wf_ind. intros s Hn.
  destruct s as [|y s].
  - rewrite sub_scan_end by reflexivity. intros [].
  - destruct (re_match (Chr c :: p) (y :: s)) as [[caps r]|] eqn:E.
    + destruct (re_match_sound _ _ _ _ E) as (m & Em & HM).
      pose proof (Matches_nonempty _ _ _ _ HM) as Hm.
      rewrite Em in *. rewrite (sub_scan_hit _ t m r caps Hm E).
      rewrite !in_app_iff. intros [H|H].
      * apply expand_chars in H. destruct H as [H|(g & Hg & H)]; [tauto|].
        left. left. now apply (Matches_caps_chars _ _ _ g x HM).
      * apply (IH (List.length r)) in H; [tauto | | reflexivity].
        subst n. rewrite length_app. destruct m; [congruence | simpl; lia].
    + rewrite (sub_scan_miss _ t y s E). intros [->|H]; [left; now left|].
      apply (IH (List.length s)) in H; [|subst n; simpl; lia|reflexivity].
      destruct H; [left; now right | now right].
Qed.

Lemma sub_scan_nonempty (c : codepoint) (p : regex) (d : codepoint)
    (t : template) (s : str) :
  s <> [] -> sub_scan (Chr c :: p) (TChr d :: t) 0 s <> [].
Proof.
  destruct s as [|y s]; [congruence|]. intros _.
  destruct (re_match (Chr c :: p) (y :: s)) as [[caps r]|] eqn:E.
  - destruct (re_match_sound _ _ _ _ E) as (m & Em & HM).
    pose proof (Matches_nonempty _ _ _ _ HM) as Hm.
    rewrite Em in *. rewrite (sub_scan_hit _ _ m r caps Hm E). discriminate.
  - rewrite (sub_scan_miss _ _ y s E). discriminate.
Qed.

(** * The claims of the specification *)

(** The two scripts are [process] with one policy alone. *)
Lemma process_scripts (original : str) :
  process StructuralOnly original = fix_file original
  /\ process LexicalOnly original = Ok (translate_file original).
Proof.
  unfold process, fix_file, translate_file.
  rewrite fix_message_construction_scan. cbn [bind].
  set (r := sub_scan regex3 _ _ _). clearbody r. split.
  - destruct (str_eqb r original) eqn:E.
    + apply str_eqb_eq in E. subst original. now rewrite str_eqb_refl.
    + apply str_eqb_neq in E.
      rewrite (proj2 (str_eqb_neq original r)) by congruence. reflexivity.
  - destruct (str_eqb (translate_content original) original) eqn:E;
      cbn [negb]; [|reflexivity].
    apply str_eqb_eq in E. now rewrite E.
Qed.

(** C2.  The reported flag is true exactly when the result differs from
    the original, in [process] (all modes) and in the two scripts. *)
Theorem C2_changed_iff_result_differs (m : mode) (original : str) :
  (exists result changed,
      process m original = Ok (result, changed)
      /\ (changed = true <-> result <> original))
  /\ (exists new_content fixed,
         fix_message_construction original = Ok new_content
         /\ fix_file original = Ok (new_content, fixed)
         /\ (fixed = true <-> new_content <> original))
  /\ (exists translated,
         translate_file original = (translate_content original, translated)
         /\ (translated = true <-> translate_content original <> original)).
Proof.
  repeat split.
  - destruct (process_total m original) as (r & Hr).
    exists r, (negb (str_eqb r original)). split; [exact Hr|].
    rewrite negb_true_iff. apply str_eqb_neq.
  - destruct (fix_message_construction_total original) as (r & Hr).
    exists r, (negb (str_eqb original r)). unfold fix_file. rewrite Hr.
    cbn [bind]. repeat split.
    + destruct (str_eqb original r) eqn:E; cbn [negb]; [|reflexivity].
      apply str_eqb_eq in E. now subst r.
    + rewrite negb_true_iff. intros H. apply str_eqb_neq in H. congruence.
    + rewrite negb_true_iff. intros H. apply str_eqb_neq. congruence.
  - exists (negb (str_eqb (translate_content original) original)).
    unfold translate_file. split.
    + destruct (str_eqb (translate_content original) original) eqn:E;
        cbn [negb]; [|reflexivity].
      apply str_eqb_eq in E. now rewrite E.
    + rewrite negb_true_iff. apply str_eqb_neq.
Qed.


Lemma re_sub_pattern2 (s : str) :
  re_sub pattern2 replacement2 s = Ok (sub_scan regex2 template2 0 s).
Proof. reflexivity. Qed.


Lemma pattern2_scan_plain (content : str) :
  plain_literal content = true ->
  plain_literal (sub_scan regex2 template2 0 content) = true.
Proof.
  intros H. destruct (plain_literal_spec content H) as [Hne Hq].
  unfold plain_literal. apply andb_true_intro. split.
  - pose proof (sub_scan_nonempty 77 (List.tl regex2) 77
                  (List.tl template2) content Hne) as Hn.
    change (Chr 77 :: List.tl regex2) with regex2 in Hn.
    change (TChr 77 :: List.tl template2) with template2 in Hn.
    destruct (sub_scan regex2 template2 0 content);
      [congruence | reflexivity].
  - apply forallb_forall. intros x Hx. apply negb_true_iff, N.eqb_neq.
    intros ->.
    change regex2 with (Chr 77 :: List.tl regex2) in Hx.
    apply sub_scan_chars in Hx. destruct Hx as [Hx|Hx]; [contradiction|].
    revert Hx. apply mem_false. reflexivity.
Qed.



(** C7.  A text in which no structural pattern and no key of the table
    occurs comes back as it is, with the flag false, from [process] and
    from either script; splitting at newlines and joining again loses
    nothing. *)
Theorem C7_noop_without_occurrence (m : mode) (s : str) :
  no_structural_pattern s = true ->
  no_table_key TRANSLATIONS s = true ->
  process m s = Ok (s, false)
  /\ fix_file s = Ok (s, false)
  /\ translate_file s = (s, false)
  /\ join [NL] (split NL s) = s.
Proof.
  intros Hp Hk. apply no_table_key_effective in Hk.
  destruct (process_scripts s) as [H1 H2].
  rewrite <- H1. split; [now apply process_idle|].
  split; [now apply process_idle|].
  split; [|apply join_split].
  rewrite (process_idle LexicalOnly s Hp Hk) in H2. congruence.
Qed.

Lemma shorthand_result_no_lbrace : ~ In LBRACE shorthand_result.
Proof. apply mem_false. reflexivity. Qed.

Lemma render_pattern1_lbrace (gaps caps : list str) :
  In LBRACE (render regex1 gaps caps).
Proof.
  unfold regex1. cbn [render]. do 7 right. rewrite in_app_iff.
  right. left. reflexivity.
Qed.

(** C8 (as amended).  The construct of the scenario, with any white space
    at the places where the pattern has [\s*] (behind [Message], the opening
    brace, [role:], either comma and [content:], and before the closing
    brace), is rewritten to [Message::text(Role::User, DQ hi DQ)] and
    reported as changed. *)
Theorem C8_shorthand_scenario (gaps : list str) :
  all_space gaps = true ->
  fix_message_construction (shorthand_construct gaps User hi)
  = Ok shorthand_result
  /\ fix_file (shorthand_construct gaps User hi) = Ok (shorthand_result, true)
  /\ process StructuralOnly (shorthand_construct gaps User hi)
     = Ok (shorthand_result, true)
  /\ process StructuralThenLexical (shorthand_construct gaps User hi)
     = Ok (shorthand_result, true).
Proof.
  intros Hg. unfold shorthand_construct.
  assert (Hfix : fix_message_construction (render regex1 gaps [User; hi])
                 = Ok shorthand_result).
  { rewrite fix_message_construction_scan.
    rewrite (sub_scan_render regex1 template1 gaps [User; hi]
               77 (tl regex1)); [| reflexivity | reflexivity |].
    - vm_compute. reflexivity.
    - rewrite regex1_split. apply fits_quoted; auto. }
  assert (Hne : str_eqb shorthand_result (render regex1 gaps [User; hi])
                = false).
  { apply str_eqb_neq. intros E.
    apply shorthand_result_no_lbrace. rewrite E.
    apply render_pattern1_lbrace. }
  assert (Hne' : str_eqb (render regex1 gaps [User; hi]) shorthand_result
                 = false).
  { apply str_eqb_neq. apply str_eqb_neq in Hne. congruence. }
  repeat split.
  - exact Hfix.
  - unfold fix_file. rewrite Hfix. cbn [bind]. now rewrite Hne'.
  - unfold process. rewrite Hfix. cbn [bind]. now rewrite Hne.
  - unfold process. rewrite Hfix. cbn [bind].
    replace (translate_content shorthand_result) with shorthand_result
      by (vm_compute; reflexivity).
    now rewrite Hne.
Qed.

(** C9.  The structural rewriter returns a string for every string: the
    group references of its templates exist in its patterns, so the error
    of [re.sub] is out of reach; the lexical rewriter has no failing step. *)
Theorem C9_transformations_total (s : str) :
  (exists r, fix_message_construction s = Ok r)
  /\ (forall e, fix_message_construction s <> Raise e)
  /\ (forall pattern repl,
         In (pattern, repl) rules ->
         exists p t,
           re_parse pattern = Some p /\ template_parse repl = Some t
           /\ bad_reference (groups p) t = None)
  /\ (exists r, translate_line s = r)
  /\ (forall m, exists r, process m s = Ok r).
Proof.
  repeat split.
  - apply fix_message_construction_total.
  - intros e. rewrite fix_message_construction_scan. discriminate.
  - intros pattern repl [E|[E|[E|[]]]]; injection E as <- <-.
    + exists regex1, template1. repeat split.
    + exists regex2, template2. repeat split.
    + exists regex3, template3. repeat split.
  - eauto.
  - intros m. destruct (process_total m s) as (r & Hr). eauto.
Qed.

Lemma unmatched_literal_spec (content : str) :
  unmatched_literal content = true ->
  content = []
  \/ (In DQ content /\ ~ In LBRACE content /\ ~ In RBRACE content).
Proof.
  unfold unmatched_literal. intros H. apply orb_prop in H.
  destruct H as [H|H].
  - left. destruct content; [reflexivity | discriminate].
  - right. apply andb_prop in H. destruct H as [H H3].
    apply andb_prop in H. destruct H as [H1 H2].
    apply negb_true_iff, mem_false in H2, H3.
    repeat split; auto.
    destruct (mem DQ content) eqn:E; [|discriminate].
    unfold mem in E. apply existsb_exists in E.
    destruct E as (x & Hx & E). apply N.eqb_eq in E. now subst x.
Qed.

Lemma quoted_construct_untouched (tail : regex) (gaps : list str)
    (role content : str) :
  tail = default_tail \/ tail = explicit_tail ->
  all_space gaps = true -> role_name role = true ->
  unmatched_literal content = true ->
  fix_message_construction
    (render (message_head ++ quoted_literal ++ tail) gaps [role; content])
  = Ok (render (message_head ++ quoted_literal ++ tail) gaps [role; content]).
Proof.
  intros Ht Hg Hr Hu.
  assert (Hside : only_space_stars tail = true /\ caps_fit tail [] = true
                  /\ groups tail = O /\ mem DQ (literals tail) = false
                  /\ classes_exclude DQ tail = true
                  /\ mem LBRACE (literals tail) = false
                  /\ classes_exclude LBRACE tail = true)
    by (destruct Ht as [-> | ->]; repeat split; reflexivity).
  destruct Hside as (S1 & S2 & S3 & S4 & S5 & S6 & S7).
  apply unmatched_literal_spec in Hu.
  apply fix_message_construction_absent.
  - destruct Hu as [-> | (Hq & Hl & Hrb)].
    + rewrite regex1_split. intros H.
      apply (quoted_in_quoted tail) in H; auto.
      destruct H as [H _]. now apply H.
    + apply quoted_many_quotes; auto;
        solve [apply mem_true_In; reflexivity | vm_compute; lia].
  - destruct Hu as [-> | (Hq & Hl & Hrb)].
    + intros H. apply (pattern2_in_quoted tail) in H; auto.
      revert H. apply (occurs_needs LBRACE); [|simpl; tauto].
      apply mem_true_In. reflexivity.
    + apply quoted_many_quotes; auto;
        solve [apply mem_true_In; reflexivity | vm_compute; lia].
  - destruct Hu as [-> | (Hq & Hl & Hrb)].
    + rewrite regex3_split. intros H.
      apply (quoted_in_quoted tail) in H; auto.
      destruct H as [H _]. now apply H.
    + apply quoted_many_quotes; auto;
        solve [apply mem_true_In; reflexivity | vm_compute; lia].
Qed.

(** What the quoted patterns capture: a role name and a plain literal. *)
Lemma quoted_captures (tail : regex) (m : str) (caps : list str) :
  groups tail = O -> caps_fit tail [] = true ->
  Matches (message_head ++ quoted_literal ++ tail) m caps ->
  exists role literal,
    caps = [role; literal] /\ role_name role = true
    /\ plain_literal literal = true.
Proof.
  intros Hn Hc HM.
  pose proof (Matches_groups _ _ _ HM) as Hlen.
  pose proof (Matches_caps_fit _ _ _ HM) as Hfit.
  unfold groups in Hlen, Hn. rewrite !filter_app, !length_app, Hn in Hlen.
  cbn in Hlen.
  destruct caps as [|role [|literal [|? ?]]]; try discriminate.
  exists role, literal. split; [reflexivity|].
  unfold message_head, quoted_literal in Hfit.
  cbn [app caps_fit hd tl] in Hfit.
  apply andb_prop in Hfit. destruct Hfit as [Hr Hfit].
  apply andb_prop in Hfit. destruct Hfit as [Hl _].
  split; [exact Hr | exact Hl].
Qed.

(** C10 (as amended).  The capture of the quoted patterns is one or more
    characters other than the double quote, so a construct of either quoted
    form whose literal is empty, or holds a double quote and no brace, is
    left as it is by the structural rewriter. *)
Theorem C10_unmatched_literal_untouched :
  (forall s caps rest,
      re_match regex1 s = Some (caps, rest)
      \/ re_match regex3 s = Some (caps, rest) ->
      exists role literal,
        caps = [role; literal] /\ role_name role = true
        /\ plain_literal literal = true)
  /\ (forall gaps role content,
         all_space gaps = true -> role_name role = true ->
         unmatched_literal content = true ->
         fix_message_construction (shorthand_construct gaps role content)
         = Ok (shorthand_construct gaps role content)
         /\ fix_message_construction (explicit_construct gaps role content)
            = Ok (explicit_construct gaps role content)).
Proof.
  split.
  - intros s caps rest [H|H]; apply re_match_sound in H;
      destruct H as (m & _ & HM).
    + rewrite regex1_split in HM.
      now apply (quoted_captures default_tail m caps).
    + rewrite regex3_split in HM.
      now apply (quoted_captures explicit_tail m caps).
  - intros gaps role content Hg Hr Hu.
    unfold shorthand_construct, explicit_construct.
    rewrite regex1_split, regex3_split.
    split; apply quoted_construct_untouched; auto.
Qed.

End EngineProperties.

(** * Properties beyond the claims: the structural rewriter *)

Section RewriterProperties.

Context {ud : UnicodeData}.

Lemma Matches_weight_le (w : codepoint -> Z) (p : regex) (m : str)
    (gs : list str) :
  (forall c, (0 <= w c)%Z) ->
  Matches p m gs ->
  (weight w (literals p) + weight w (concat gs) <= weight w m)%Z.
Proof.
  intros Hw HM. induction HM as [|c p m gs HM IH|k p x m gs Hx HM IH
                                  |k p x m gs Hne Hx HM IH].
  - cbn. lia.
  - change (literals (Chr c :: p)) with (c :: literals p).
    rewrite !weight_cons. lia.
  - change (literals (Star k :: p)) with (literals p).
    rewrite weight_app. pose proof (weight_nonneg w x Hw). lia.
  - change (literals (Group k :: p)) with (literals p).
    cbn [concat]. rewrite !weight_app. lia.
Qed.

Lemma Matches_weight_eq (w : codepoint -> Z) (p : regex) (m : str)
    (gs : list str) :
  only_space_stars p = true ->
  (forall c, is_space c = true -> w c = 0%Z) ->
  Matches p m gs ->
  weight w m = (weight w (literals p) + weight w (concat gs))%Z.
Proof.
  intros Hp Hw HM. induction HM as [|c p m gs HM IH|k p x m gs Hx HM IH
                                     |k p x m gs Hne Hx HM IH].
  - reflexivity.
  - change (literals (Chr c :: p)) with (c :: literals p).
    rewrite !weight_cons, IH; [lia | exact Hp].
  - change (literals (Star k :: p)) with (literals p).
    cbn [only_space_stars forallb] in Hp. apply andb_prop in Hp.
    destruct Hp as [Hk Hp]. rewrite weight_app, IH by exact Hp.
    rewrite (weight_zero w x); [lia|].
    intros c Hc. apply Hw. destruct k; try discriminate.
    rewrite forallb_forall in Hx. now apply Hx.
  - change (literals (Group k :: p)) with (literals p).
    cbn [concat]. rewrite !weight_app, IH; [lia | exact Hp].
Qed.

(** The weight of a text after [re.sub], when every replacement weighs
    at least [k] less than what it replaces. *)
Lemma sub_scan_weight (w : codepoint -> Z) (c : codepoint) (p : regex)
    (t : template) (k : Z) :
  (0 <= k)%Z ->
  (forall m gs, Matches (Chr c :: p) m gs ->
                (weight w (expand t gs) + k <= weight w m)%Z) ->
  forall s,
    sub_scan (Chr c :: p) t 0 s = s
    \/ (weight w (sub_scan (Chr c :: p) t 0 s) + k <= weight w s)%Z.
Proof.
  intros Hk HM s. remember (List.length s) as n eqn:Hn. revert s Hn.
  induction n as [n IH] using lt_wf_ind. intros s ->.
  destruct s as [|x s'].
  - left. now apply sub_scan_end.
  - destruct (re_match (Chr c :: p) (x :: s')) as [[caps rest]|] eqn:E.
    + destruct (re_match_sound _ _ _ _ E) as (m & Hs & Hm).
      pose proof (Matches_nonempty _ _ _ _ Hm) as Hne.
      rewrite Hs in E |- *. rewrite (sub_scan_hit _ _ _ _ _ Hne E).
      right. rewrite !weight_app.
      specialize (HM m caps Hm).
      assert (Hlen : (List.length rest < List.length (x :: s'))%nat).
      { rewrite Hs, length_app. destruct m; [congruence | cbn; lia]. }
      destruct (IH _ Hlen rest eq_refl) as [-> | H]; lia.
    + rewrite (sub_scan_miss _ _ _ _ E).
      destruct (IH (List.length s') (Nat.lt_succ_diag_r _) s' eq_refl)
        as [-> | H]; [now left | right].
      rewrite !weight_cons. lia.
Qed.

Lemma sub_scan_weight_eq (w : codepoint -> Z) (c : codepoint) (p : regex)
    (t : template) :
  (forall m gs, Matches (Chr c :: p) m gs ->
                weight w (expand t gs) = weight w m) ->
  forall s, weight w (sub_scan (Chr c :: p) t 0 s) = weight w s.
Proof.
  intros HM s.
  destruct (sub_scan_weight w c p t 0 (Z.le_refl 0)) with (s := s)
    as [-> | H1]; [| reflexivity |].
  { intros m gs Hm. rewrite (HM m gs Hm). lia. }
  destruct (sub_scan_weight (fun x => (- w x)%Z) c p t 0 (Z.le_refl 0))
    with (s := s) as [-> | H2]; [| reflexivity |].
  { intros m gs Hm. rewrite !weight_opp, (HM m gs Hm). lia. }
  rewrite !weight_opp in H2. lia.
Qed.

(** What a match and its replacement weigh, for a pattern with two
    groups and a template that refers to each once. *)
Lemma two_groups (p : regex) (m : str) (gs : list str) :
  groups p = 2%nat -> Matches p m gs -> exists a b, gs = [a; b].
Proof.
  intros Hg HM. apply Matches_groups in HM. rewrite Hg in HM.
  destruct gs as [|a [|b [|? ?]]]; try discriminate. now exists a, b.
Qed.

Lemma replacement_weight_le (w : codepoint -> Z) (p : regex) (t : template)
    (m : str) (gs : list str) :
  (forall c, (0 <= w c)%Z) ->
  groups p = 2%nat -> refs t = [1; 2]%nat ->
  Matches p m gs ->
  (weight w (expand t gs)
   + (weight w (literals p) - weight w (template_chars t)) <= weight w m)%Z.
Proof.
  intros Hw Hg Hr HM. destruct (two_groups p m gs Hg HM) as (a & b & ->).
  rewrite expand_weight, Hr.
  pose proof (Matches_weight_le w p m [a; b] Hw HM) as H.
  cbn [map concat nth Nat.sub] in *. lia.
Qed.

Lemma replacement_weight_eq (w : codepoint -> Z) (p : regex) (t : template)
    (m : str) (gs : list str) :
  only_space_stars p = true ->
  (forall c, is_space c = true -> w c = 0%Z) ->
  groups p = 2%nat -> refs t = [1; 2]%nat ->
  weight w (literals p) = weight w (template_chars t) ->
  Matches p m gs ->
  weight w (expand t gs) = weight w m.
Proof.
  intros Hp Hw Hg Hr Hlit HM.
  destruct (two_groups p m gs Hg HM) as (a & b & ->).
  rewrite expand_weight, Hr.
  rewrite (Matches_weight_eq w p m [a; b] Hp Hw HM).
  cbn [map concat nth Nat.sub] in *. lia.
Qed.

Lemma regex_heads :
  regex1 = Chr 77 :: List.tl regex1 /\ regex2 = Chr 77 :: List.tl regex2
  /\ regex3 = Chr 77 :: List.tl regex3.
Proof. repeat split. Qed.

(** Each of the three substitutions leaves the text as it is or makes it
    at least 39 characters shorter. *)
Lemma sub_scan_shortens (p : regex) (t : template) (s : str) :
  In (p, t) [(regex1, template1); (regex2, template2); (regex3, template3)] ->
  sub_scan p t 0 s = s
  \/ (List.length (sub_scan p t 0 s) + 39 <= List.length s)%nat.
Proof.
  intros Hin.
  assert (H : exists c p', p = Chr c :: p' /\ groups p = 2%nat
                           /\ refs t = [1; 2]%nat
                           /\ (39 <= weight (fun _ => 1%Z) (literals p)
                                     - weight (fun _ => 1%Z) (template_chars t))%Z).
  { destruct Hin as [E|[E|[E|[]]]]; injection E as <- <-;
      eexists _, _; (split; [reflexivity|]); repeat split;
      vm_compute; discriminate. }
  destruct H as (c & p' & -> & Hg & Hr & Hk).
  destruct (sub_scan_weight (fun _ => 1%Z) c p' t 39) with (s := s)
    as [E | E]; [lia | | now left |].
  - intros m gs HM.
    pose proof (replacement_weight_le (fun _ => 1%Z) _ t m gs
                  (fun _ => Z.le_0_1) Hg Hr HM). lia.
  - right. rewrite !weight_length in E. lia.
Qed.

Lemma fix_shortens (s : str) :
  exists r,
    fix_message_construction s = Ok r
    /\ (r = s \/ (List.length r + 39 <= List.length s)%nat).
Proof.
  eexists. split; [apply fix_message_construction_scan|].
  set (r1 := sub_scan regex1 template1 0 s).
  set (r2 := sub_scan regex2 template2 0 r1).
  set (r3 := sub_scan regex3 template3 0 r2).
  assert (D1 : r1 = s \/ (List.length r1 + 39 <= List.length s)%nat)
    by (apply sub_scan_shortens; cbn; auto).
  assert (D2 : r2 = r1 \/ (List.length r2 + 39 <= List.length r1)%nat)
    by (apply sub_scan_shortens; cbn; auto).
  assert (D3 : r3 = r2 \/ (List.length r3 + 39 <= List.length r2)%nat)
    by (apply sub_scan_shortens; cbn; auto).
  clearbody r1 r2 r3.
  destruct D1 as [E1|H1], D2 as [E2|H2], D3 as [E3|H3];
    try (left; congruence); right; subst; lia.
Qed.

(** X2. The rewriter never makes a text longer: it returns the text as it
    is, or a text at least 39 characters shorter, and only then is the file
    written. *)
Theorem rewriting_shortens (s : str) :
  exists r,
    fix_message_construction s = Ok r
    /\ (r = s \/ (List.length r + 39 <= List.length s)%nat)
    /\ (fix_file s = Ok (s, false)
        \/ (fix_file s = Ok (r, true)
            /\ (List.length r + 39 <= List.length s)%nat)).
Proof.
  destruct (fix_shortens s) as (r & Hr & Hd). exists r.
  split; [exact Hr|]. split; [exact Hd|].
  unfold fix_file. rewrite Hr. cbn [bind].
  destruct Hd as [-> | Hlen].
  - left. now rewrite str_eqb_refl.
  - right. rewrite (proj2 (str_eqb_neq s r)); [now split|].
    intros ->. lia.
Qed.

Lemma fix_repeatedly_stable (n : nat) (s : str) :
  fix_message_construction s = Ok s -> fix_repeatedly n s = Ok s.
Proof.
  intros H. induction n as [|n IH]; [reflexivity|].
  cbn [fix_repeatedly]. rewrite H. exact IH.
Qed.

(** X3. Running the rewriter again and again comes to rest: a text of fewer
    than 39 (n + 1) characters is left as it is by every run after the first
    [n]. *)
Theorem rewriting_reruns_settle (n : nat) (s : str) :
  (List.length s < 39 * (n + 1))%nat ->
  exists r, fix_repeatedly n s = Ok r /\ fix_message_construction r = Ok r.
Proof.
  revert s. induction n as [|n IH]; intros s Hlen.
  - exists s. split; [reflexivity|].
    destruct (fix_shortens s) as (r & Hr & [-> | H]); [exact Hr | lia].
  - destruct (fix_shortens s) as (r & Hr & [-> | H]).
    + exists s. split; [now apply fix_repeatedly_stable | exact Hr].
    + destruct (IH r) as (r' & H1 & H2); [lia|].
      exists r'. split; [|exact H2].
      cbn [fix_repeatedly]. rewrite Hr. exact H1.
Qed.

Lemma is_space_weightless (w : codepoint -> Z) (marks : str) :
  forallb (fun c => negb (is_space c)) marks = true ->
  (forall c, ~ In c marks -> w c = 0%Z) ->
  forall c, is_space c = true -> w c = 0%Z.
Proof.
  intros Hm Hw c Hc. apply Hw. intros Hin.
  rewrite forallb_forall in Hm. apply Hm in Hin.
  now rewrite Hc in Hin.
Qed.

Lemma count_weight_off (x c : codepoint) : ~ In c [x] -> count_weight x c = 0%Z.
Proof.
  intros H. unfold count_weight. destruct (N.eqb_spec c x) as [->|]; [|reflexivity].
  exfalso. apply H. now left.
Qed.

Lemma balance_weight_off (o e c : codepoint) :
  ~ In c [o; e] -> balance_weight o e c = 0%Z.
Proof.
  intros H. unfold balance_weight.
  destruct (N.eqb_spec c o) as [->|]; [exfalso; apply H; now left|].
  destruct (N.eqb_spec c e) as [->|]; [exfalso; apply H; right; now left|].
  reflexivity.
Qed.

(** A weight that white space does not bear and that the literal text of
    each pattern and of its replacement bear alike is kept by the
    rewriter. *)
Lemma rewriting_keeps_weight (w : codepoint -> Z) (s : str) :
  (forall c, is_space c = true -> w c = 0%Z) ->
  Forall (fun pt => weight w (literals (fst pt))
                    = weight w (template_chars (snd pt)))
    [(regex1, template1); (regex2, template2); (regex3, template3)] ->
  weight w (sub_scan regex3 template3 0
              (sub_scan regex2 template2 0
                 (sub_scan regex1 template1 0 s)))
  = weight w s.
Proof.
  intros Hw Hlit.
  apply Forall_cons_iff in Hlit. destruct Hlit as [H1 Hlit].
  apply Forall_cons_iff in Hlit. destruct Hlit as [H2 Hlit].
  apply Forall_cons_iff in Hlit. destruct Hlit as [H3 _].
  cbn [fst snd] in *.
  destruct regex_heads as (E1 & E2 & E3).
  rewrite E3 at 1. rewrite sub_scan_weight_eq.
  2:{ intros m gs HM. rewrite <- E3 in HM.
      now apply (replacement_weight_eq w regex3 template3). }
  rewrite E2 at 1. rewrite sub_scan_weight_eq.
  2:{ intros m gs HM. rewrite <- E2 in HM.
      now apply (replacement_weight_eq w regex2 template2). }
  rewrite E1 at 1. rewrite sub_scan_weight_eq; [reflexivity|].
  intros m gs HM. rewrite <- E1 in HM.
  now apply (replacement_weight_eq w regex1 template1).
Qed.

(** X4. The rewriter keeps the number of double quotes and the balance of
    braces and of parentheses: what it takes away opens as often as it
    closes. *)
Theorem rewriting_keeps_balance (s : str) :
  exists r,
    fix_message_construction s = Ok r
    /\ count DQ r = count DQ s
    /\ balance LBRACE RBRACE r = balance LBRACE RBRACE s
    /\ balance LPAREN RPAREN r = balance LPAREN RPAREN s.
Proof.
  eexists. split; [apply fix_message_construction_scan|].
  split; [|split].
  - apply Nat2Z.inj. rewrite <- !weight_count.
    apply rewriting_keeps_weight.
    + apply (is_space_weightless _ [DQ]); [reflexivity|].
      intros c. apply count_weight_off.
    + repeat constructor.
  - rewrite <- !weight_balance by discriminate.
    apply rewriting_keeps_weight.
    + apply (is_space_weightless _ [LBRACE; RBRACE]); [reflexivity|].
      intros c. apply balance_weight_off.
    + repeat constructor.
  - rewrite <- !weight_balance by discriminate.
    apply rewriting_keeps_weight.
    + apply (is_space_weightless _ [LPAREN; RPAREN]); [reflexivity|].
      intros c. apply balance_weight_off.
    + repeat constructor.
Qed.

Lemma starts_with_run_Matches (w : str) :
  forall p m gs,
    starts_with_run w p = true -> Matches p m gs -> exists b, m = w ++ b.
Proof.
  induction w as [|c w IH]; intros p m gs Hs HM; [now exists m|].
  destruct p as [|[x| |] p]; try discriminate.
  cbn [starts_with_run] in Hs. apply andb_prop in Hs. destruct Hs as [Hc Hs].
  apply N.eqb_eq in Hc. subst x.
  apply Matches_chr_inv in HM. destruct HM as (m' & -> & HM).
  destruct (IH _ _ _ Hs HM) as (b & ->). now exists b.
Qed.

Lemma Matches_tail_inv (a : atom) (p : regex) (m : str) (gs : list str) :
  Matches (a :: p) m gs ->
  exists m1 m2 gs', m = m1 ++ m2 /\ Matches p m2 gs'.
Proof.
  intros HM. inversion HM; subst.
  - now exists [c], m0, gs.
  - now exists w, m0, gs.
  - now exists w, m0, gs0.
Qed.

Lemma has_run_Matches (w : str) (p : regex) :
  forall m gs,
    has_run w p = true -> Matches p m gs -> exists a b, m = a ++ w ++ b.
Proof.
  induction p as [|x p IH]; intros m gs Hr HM; cbn [has_run] in Hr;
    apply orb_prop in Hr; destruct Hr as [Hr|Hr]; try discriminate.
  - destruct (starts_with_run_Matches w _ _ _ Hr HM) as (b & ->).
    now exists [], b.
  - destruct (starts_with_run_Matches w _ _ _ Hr HM) as (b & ->).
    now exists [], b.
  - destruct (Matches_tail_inv _ _ _ _ HM) as (m1 & m2 & gs' & -> & HM').
    destruct (IH _ _ Hr HM') as (a & b & ->).
    exists (m1 ++ a), b. now rewrite <- app_assoc.
Qed.

Lemma has_run_occurs (w : str) (p : regex) (s : str) :
  has_run w p = true -> str_contains w s = false -> ~ occurs p s.
Proof.
  intros Hr Hc (pre & m & gs & post & -> & HM).
  destruct (has_run_Matches w p m gs Hr HM) as (a & b & ->).
  replace (pre ++ (a ++ w ++ b) ++ post)
    with ((pre ++ a) ++ w ++ (b ++ post)) in Hc
    by (now rewrite <- !app_assoc).
  rewrite str_contains_app in Hc. discriminate.
Qed.

(** X1. A text that lacks one of the literal words of the patterns is
    returned as it is, and its file is not written. *)
Theorem text_without_keyword_is_untouched (k s : str) :
  In k keywords -> str_contains k s = false ->
  fix_message_construction s = Ok s /\ fix_file s = Ok (s, false).
Proof.
  intros Hk Hc.
  assert (Hr : has_run k regex1 = true /\ has_run k regex2 = true
               /\ has_run k regex3 = true).
  { cbn [keywords In] in Hk.
    repeat (destruct Hk as [<- | Hk]; [repeat split; reflexivity|]).
    destruct Hk. }
  destruct Hr as (H1 & H2 & H3).
  assert (Hfix : fix_message_construction s = Ok s)
    by (apply fix_message_construction_absent;
        eapply has_run_occurs; eassumption).
  split; [exact Hfix|].
  unfold fix_file. rewrite Hfix. cbn [bind]. now rewrite str_eqb_refl.
Qed.

(** ** The text around a construct *)

Lemma ends_with_chr_literal (e : codepoint) (p : regex) :
  ends_with_chr e p = true -> In e (literals p).
Proof.
  induction p as [|a p IH]; [discriminate|].
  destruct p as [|b p].
  - destruct a as [x| |]; try discriminate.
    cbn [ends_with_chr]. intros H. apply N.eqb_eq in H. subst x. now left.
  - intros H.
    assert (H' : ends_with_chr e (b :: p) = true)
      by (destruct a as [x| |]; exact H).
    specialize (IH H'). unfold literals in *. cbn [flat_map].
    rewrite in_app_iff. now right.
Qed.

Lemma no_match_without (e : codepoint) (p : regex) (post : str) :
  In e (literals p) -> ~ In e post ->
  forall caps s, (forall x, In x s -> In x post) -> match_here p caps s = None.
Proof.
  intros He Hpost caps s Hs.
  destruct (match_here p caps s) as [[caps' rest]|] eqn:E; [|reflexivity].
  apply match_here_sound in E. destruct E as (m & gs & -> & _ & HM).
  exfalso. apply Hpost, Hs. rewrite in_app_iff. left.
  now apply (Matches_literal e p m gs).
Qed.

Lemma rep_dead {R : Type} (inclass : codepoint -> bool)
    (cont : str -> str -> option R) :
  forall s taken,
    (forall taken' s', (forall x, In x s' -> In x s) -> cont taken' s' = None) ->
    rep inclass cont taken s = None.
Proof.
  induction s as [|c s IH]; intros taken H; cbn [rep].
  - now apply H.
  - assert (Hs : rep inclass cont (taken ++ [c]) s = None).
    { apply IH. intros taken' s' Hs'. apply H.
      intros x Hx. right. now apply Hs'. }
    rewrite Hs. destruct (inclass c); now apply H.
Qed.

Lemma rep_suffix (inclass : codepoint -> bool)
    (cont cont' : str -> str -> option (list str * str)) (post : str) :
  (forall taken s,
      cont taken (s ++ post) = followed_by post (cont' taken s)) ->
  (forall taken s, (forall x, In x s -> In x post) -> cont taken s = None) ->
  forall s taken,
    rep inclass cont taken (s ++ post)
    = followed_by post (rep inclass cont' taken s).
Proof.
  intros H1 H2. induction s as [|c s IH]; intros taken.
  - cbn [app rep]. rewrite <- (H1 taken []). cbn [app].
    rewrite (H2 taken post) by auto. now apply rep_dead.
  - cbn [app rep]. rewrite IH.
    change (c :: s ++ post) with ((c :: s) ++ post). rewrite H1.
    destruct (inclass c); [|reflexivity].
    now destruct (rep inclass cont' (taken ++ [c]) s) as [[? ?]|].
Qed.

(** A pattern that ends in a character which the text [post] lacks
    matches in front of [post] as it does without it. *)
Lemma match_here_suffix (e : codepoint) (post : str) :
  ~ In e post ->
  forall p, ends_with_chr e p = true ->
  forall caps s,
    match_here p caps (s ++ post) = followed_by post (match_here p caps s).
Proof.
  intros Hpost. induction p as [|a p IH]; [discriminate|].
  intros He caps s. destruct p as [|b p].
  - destruct a as [x| |]; try discriminate.
    cbn [ends_with_chr] in He. apply N.eqb_eq in He. subst x.
    destruct s as [|y s]; cbn [app match_here].
    + destruct post as [|y post]; [reflexivity|].
      destruct (N.eqb_spec y e) as [->|]; [|reflexivity].
      exfalso. apply Hpost. now left.
    + now destruct (y =? e).
  - assert (He' : ends_with_chr e (b :: p) = true)
      by (destruct a as [x| |]; exact He).
    specialize (IH He').
    pose proof (ends_with_chr_literal e _ He') as Hlit.
    destruct a as [c|k|k].
    + destruct s as [|y s].
      * cbn [app]. rewrite (no_match_without e (Chr c :: b :: p) post); auto.
        unfold literals in *. cbn [flat_map]. rewrite in_app_iff. now right.
      * cbn [app match_here]. destruct (y =? c); [apply IH | reflexivity].
    + cbn [match_here]. apply rep_suffix.
      * intros _ s'. apply IH.
      * intros _ s' Hs'. now apply (no_match_without e (b :: p) post).
    + cbn [match_here]. apply rep_suffix.
      * intros [|t taken] s'; [reflexivity | apply IH].
      * intros [|t taken] s' Hs'; [reflexivity|].
        now apply (no_match_without e (b :: p) post).
Qed.

Lemma sub_scan_suffix (e c : codepoint) (p : regex) (t : template)
    (post : str) :
  ~ In e post -> ends_with_chr e (Chr c :: p) = true ->
  forall s,
    sub_scan (Chr c :: p) t 0 (s ++ post)
    = sub_scan (Chr c :: p) t 0 s ++ post.
Proof.
  intros Hpost He s. remember (List.length s) as n eqn:Hn. revert s Hn.
  induction n as [n IH] using lt_wf_ind. intros s ->.
  pose proof (match_here_suffix e post Hpost _ He [] s) as Hm.
  fold (re_match (Chr c :: p) (s ++ post)) in Hm.
  fold (re_match (Chr c :: p) s) in Hm.
  destruct s as [|x s'].
  - cbn [app]. rewrite (sub_scan_end (Chr c :: p) t) by reflexivity.
    apply sub_scan_absent. apply (occurs_needs e); [|exact Hpost].
    now apply ends_with_chr_literal.
  - destruct (re_match (Chr c :: p) (x :: s')) as [[caps rest]|] eqn:E.
    + destruct (re_match_sound _ _ _ _ E) as (m & Hs & HM).
      pose proof (Matches_nonempty _ _ _ _ HM) as Hne.
      assert (Hlen : (List.length rest < List.length (x :: s'))%nat).
      { rewrite Hs, length_app. destruct m; [congruence | cbn; lia]. }
      cbn [followed_by option_map fst snd] in Hm.
      rewrite Hs in E, Hm |- *. rewrite <- app_assoc in Hm |- *.
      rewrite (sub_scan_hit _ _ _ _ _ Hne Hm).
      rewrite (sub_scan_hit _ _ _ _ _ Hne E).
      rewrite (IH _ Hlen rest eq_refl). now rewrite app_assoc.
    + cbn [followed_by option_map] in Hm.
      change ((x :: s') ++ post) with (x :: s' ++ post) in *.
      rewrite (sub_scan_miss _ _ _ _ Hm), (sub_scan_miss _ _ _ _ E).
      cbn [app]. f_equal.
      apply (IH (List.length s') (Nat.lt_succ_diag_r _) s' eq_refl).
Qed.

Lemma sub_scan_prefix (c : codepoint) (p : regex) (t : template)
    (pre s : str) :
  ~ In c pre ->
  sub_scan (Chr c :: p) t 0 (pre ++ s) = pre ++ sub_scan (Chr c :: p) t 0 s.
Proof.
  induction pre as [|x pre IH]; intros Hpre; [reflexivity|].
  cbn [app]. rewrite sub_scan_miss.
  - f_equal. apply IH. intros H. apply Hpre. now right.
  - unfold re_match. cbn [match_here].
    destruct (N.eqb_spec x c) as [->|]; [|reflexivity].
    exfalso. apply Hpre. now left.
Qed.

Lemma sub_scan_frame (p : regex) (t : template) (pre s post : str) :
  In (p, t) [(regex1, template1); (regex2, template2); (regex3, template3)] ->
  ~ In CAPITAL_M pre -> ~ In RBRACE post ->
  sub_scan p t 0 (pre ++ s ++ post) = pre ++ sub_scan p t 0 s ++ post.
Proof.
  intros Hin Hpre Hpost.
  assert (H : exists p', p = Chr CAPITAL_M :: p'
                         /\ ends_with_chr RBRACE p = true).
  { destruct Hin as [E|[E|[E|[]]]]; injection E as <- <-;
      eexists; split; reflexivity. }
  destruct H as (p' & -> & He).
  rewrite sub_scan_prefix by exact Hpre.
  now rewrite (sub_scan_suffix RBRACE) by assumption.
Qed.

(** X5. The rewriter works on a text as it does on the text alone, when what
    stands before it has no capital M and what stands behind it no closing
    brace: both come back as they are. *)
Theorem rewriting_is_local (pre s post : str) :
  mem CAPITAL_M pre = false -> mem RBRACE post = false ->
  exists r,
    fix_message_construction s = Ok r
    /\ fix_message_construction (pre ++ s ++ post) = Ok (pre ++ r ++ post).
Proof.
  intros Hpre Hpost. apply mem_false in Hpre, Hpost.
  eexists. split; [apply fix_message_construction_scan|].
  rewrite fix_message_construction_scan. f_equal.
  rewrite (sub_scan_frame regex1 template1) by (cbn; auto).
  rewrite (sub_scan_frame regex2 template2) by (cbn; auto).
  now rewrite (sub_scan_frame regex3 template3) by (cbn; auto).
Qed.

(** ** The greedy reading of a filled pattern *)

Lemma rep_greedy {R : Type} (inclass : codepoint -> bool)
    (cont : str -> str -> option R) (w s : str) (r : R) :
  forallb inclass w = true ->
  match s with [] => True | c :: _ => inclass c = false end ->
  forall taken,
    cont (taken ++ w) s = Some r ->
    rep inclass cont taken (w ++ s) = Some r.
Proof.
  intros Hw Hs. induction w as [|c w IH]; intros taken Hc.
  - rewrite app_nil_r in Hc. cbn [app].
    destruct s as [|c s]; cbn [rep]; [exact Hc|]. now rewrite Hs.
  - cbn [forallb] in Hw. apply andb_prop in Hw. destruct Hw as [Hc' Hw].
    cbn [app rep]. rewrite Hc'.
    rewrite (IH Hw (taken ++ [c])); [reflexivity|].
    now rewrite <- app_assoc.
Qed.

Lemma stops_spec (k : cclass) (s : str) :
  stops k s = true ->
  match s with [] => True | c :: _ => in_class k c = false end.
Proof. destruct s as [|c s]; [easy|]. cbn [stops]. apply negb_true_iff. Qed.

Lemma match_here_greedy (p : regex) (rest : str) :
  forall gaps caps caps0,
    fits p gaps caps = true -> greedy p gaps caps rest = true ->
    match_here p caps0 (render p gaps caps ++ rest)
    = Some (caps0 ++ firstn (groups p) caps, rest).
Proof.
  induction p as [|[c|k|k] p IH]; intros gaps caps caps0 Hf Hg.
  - cbn. now rewrite app_nil_r.
  - cbn [render app match_here]. rewrite N.eqb_refl. now apply IH.
  - cbn [fits] in Hf. apply andb_prop in Hf. destruct Hf as [Hw Hf].
    cbn [greedy] in Hg. apply andb_prop in Hg. destruct Hg as [Hs Hg].
    cbn [render match_here]. rewrite <- app_assoc.
    apply rep_greedy; [exact Hw | now apply stops_spec |].
    now apply IH.
  - cbn [fits] in Hf. cbn [greedy] in Hg.
    apply andb_prop in Hg. destruct Hg as [Hs Hg].
    destruct caps as [|w caps]; [discriminate|]. cbn [hd tl] in *.
    destruct w as [|x w]; [discriminate|].
    apply andb_prop in Hf. destruct Hf as [Hw Hf].
    cbn [render hd tl match_here]. rewrite <- app_assoc.
    apply rep_greedy; [exact Hw | now apply stops_spec |].
    change ([] ++ x :: w) with (x :: w). cbv beta iota.
    rewrite IH by assumption.
    change (groups (Group k :: p)) with (S (groups p)).
    cbn [firstn]. now rewrite <- app_assoc.
Qed.

Lemma separated_greedy (p : regex) :
  forall gaps caps,
    caps_fit p caps = true -> separated p caps = true ->
    greedy p gaps caps [] = true.
Proof.
  induction p as [|[c|k|k] p IH]; intros gaps caps Hc Hs; [reflexivity | | |].
  - now apply IH.
  - cbn [separated] in Hs. apply andb_prop in Hs. destruct Hs as [Hf Hs].
    cbn [greedy]. rewrite IH by assumption. rewrite andb_true_r.
    destruct p as [|[x|k'|k'] p]; try discriminate.
    + exact Hf.
    + cbn [follows] in Hf. cbn [render].
      destruct (hd [] caps) as [|y w]; [discriminate | exact Hf].
  - cbn [separated] in Hs. apply andb_prop in Hs. destruct Hs as [Hf Hs].
    cbn [caps_fit] in Hc. apply andb_prop in Hc. destruct Hc as [_ Hc].
    cbn [greedy]. rewrite IH by assumption. rewrite andb_true_r.
    destruct p as [|[x|k'|k'] p]; try discriminate.
    + exact Hf.
    + cbn [follows] in Hf. cbn [render].
      destruct (hd [] (tl caps)) as [|y w]; [discriminate | exact Hf].
Qed.

Lemma role_name_spec (role : str) :
  role_name role = true ->
  role <> [] /\ forallb is_word role = true.
Proof.
  unfold role_name. intros H. apply andb_prop in H. destruct H as [H1 H2].
  split; [|exact H2]. now destruct role.
Qed.

Lemma word_chars (role : str) (x : codepoint) :
  role_name role = true -> is_word x = false -> ~ In x role.
Proof.
  intros Hr Hx Hin. apply role_name_spec in Hr. destruct Hr as [_ Hr].
  rewrite forallb_forall in Hr. apply Hr in Hin. congruence.
Qed.

Lemma bare_fits (gaps : list str) (role variable : str) :
  all_space gaps = true -> role_name role = true ->
  variable_name variable = true ->
  fits regex2 gaps [role; variable] = true
  /\ greedy regex2 gaps [role; variable] [] = true.
Proof.
  intros Hg Hr Hv. unfold variable_name in Hv.
  apply andb_prop in Hv. destruct Hv as [Hv Hv1].
  assert (Hc : caps_fit regex2 [role; variable] = true).
  { unfold role_name in Hr, Hv. unfold regex2. cbn [caps_fit hd tl].
    change (in_class Word) with is_word. now rewrite Hr, Hv. }
  split.
  - apply fits_intro; [reflexivity | exact Hg | exact Hc].
  - apply separated_greedy; [exact Hc|].
    destruct variable as [|c variable]; [discriminate|].
    unfold regex2. cbn [separated follows hd tl].
    change (in_class Space c) with (is_space c). rewrite Hv1.
    reflexivity.
Qed.

(** The text of the second replacement holds no brace. *)
Lemma message_text_bare_braces (role variable : str) :
  role_name role = true -> role_name variable = true ->
  ~ In LBRACE (message_text_bare role variable).
Proof.
  intros Hr Hv Hin. apply expand_chars in Hin.
  destruct Hin as [Hin | (g & Hg' & Hin)].
  - revert Hin. apply mem_false. reflexivity.
  - destruct Hg' as [<- | [<- | []]];
      revert Hin; apply word_chars; auto.
Qed.

(** The second substitution on a construct of its pattern. *)
Lemma bare_variable_construct_scan (gaps : list str) (role variable : str) :
  all_space gaps = true -> role_name role = true ->
  variable_name variable = true ->
  sub_scan regex2 template2 0 (bare_variable_construct gaps role variable)
  = message_text_bare role variable.
Proof.
  intros Hg Hr Hv. unfold bare_variable_construct, message_text_bare.
  destruct (bare_fits gaps role variable Hg Hr Hv) as [Hf Hgr].
  pose proof (render_Matches regex2 gaps [role; variable] Hf) as HM.
  apply (sub_scan_whole regex2 template2 _ [role; variable]).
  - apply Matches_nonempty in HM. exact HM.
  - pose proof (match_here_greedy regex2 [] gaps [role; variable] []
                  Hf Hgr) as H.
    rewrite app_nil_r in H. exact H.
  - reflexivity.
Qed.

Lemma bare_variable_construct_quotes (gaps : list str)
    (role variable : str) :
  all_space gaps = true -> role_name role = true ->
  variable_name variable = true ->
  ~ In DQ (bare_variable_construct gaps role variable).
Proof.
  intros Hg Hr Hv.
  destruct (bare_fits gaps role variable Hg Hr Hv) as [Hf _].
  pose proof (render_Matches regex2 gaps [role; variable] Hf) as HM.
  apply (Matches_excludes DQ regex2 _ _ eq_refl eq_refl HM).
Qed.

(** X6. A construct of the second pattern, with any white space where the
    pattern allows it, a role and the name of a variable, is rewritten to
    [Message::text(Role::role, variable)]. *)
Theorem bare_variable_construct_collapses (gaps : list str)
    (role variable : str) :
  all_space gaps = true -> role_name role = true ->
  variable_name variable = true ->
  fix_message_construction (bare_variable_construct gaps role variable)
  = Ok (message_text_bare role variable).
Proof.
  intros Hg Hr Hv.
  assert (Hvw : role_name variable = true)
    by (unfold variable_name in Hv; now apply andb_prop in Hv).
  rewrite fix_message_construction_scan.
  rewrite (sub_scan_absent regex1).
  2:{ apply (occurs_needs DQ); [apply mem_true_In; reflexivity|].
      now apply bare_variable_construct_quotes. }
  rewrite bare_variable_construct_scan by assumption.
  apply f_equal, sub_scan_absent. apply (occurs_needs LBRACE).
  - apply mem_true_In. reflexivity.
  - now apply message_text_bare_braces.
Qed.

(** ** Constructs of the first pattern *)

Lemma message_text_split (role content : str) :
  message_text role content
  = expand (firstn 23 template1) [role] ++ DQ :: content ++ [DQ; RPAREN].
Proof.
  unfold message_text, expand, template1. cbn [flat_map firstn nth Nat.sub app].
  rewrite <- app_assoc. reflexivity.
Qed.

Lemma text_head_chars (role : str) (x : codepoint) :
  role_name role = true -> is_word x = false ->
  mem x (template_chars (firstn 23 template1)) = false ->
  ~ In x (expand (firstn 23 template1) [role]).
Proof.
  intros Hr Hw Hx Hin. apply expand_chars in Hin.
  destruct Hin as [Hin | (g & [<- | []] & Hin)].
  - apply mem_false in Hx. now apply Hx.
  - revert Hin. now apply word_chars.
Qed.

(** The second substitution, on the text of the first replacement, works
    inside the literal only. *)
Lemma pattern2_scan_text (role content : str) :
  role_name role = true -> ~ In DQ content ->
  sub_scan regex2 template2 0 (message_text role content)
  = message_text role (sub_scan regex2 template2 0 content).
Proof.
  intros Hr Hc. rewrite !message_text_split.
  set (hd := expand (firstn 23 template1) [role]).
  assert (Hhd1 : ~ In DQ hd) by (apply text_head_chars; auto).
  assert (Hhd2 : ~ In LBRACE hd) by (apply text_head_chars; auto).
  assert (Hmiss : forall X, sub_scan regex2 template2 0 (DQ :: X)
                            = DQ :: sub_scan regex2 template2 0 X)
    by (intros X; now apply sub_scan_miss).
  change regex2 with (Chr 77 :: List.tl regex2) at 1.
  rewrite (sub_scan_barrier 77 (List.tl regex2)) by (reflexivity || exact Hhd1).
  change (Chr 77 :: List.tl regex2) with regex2.
  rewrite (sub_scan_absent regex2 _ hd).
  2:{ apply (occurs_needs LBRACE); [|exact Hhd2].
      apply mem_true_In. reflexivity. }
  rewrite Hmiss. f_equal. f_equal.
  change (content ++ [DQ; RPAREN]) with (content ++ DQ :: [RPAREN]).
  change regex2 with (Chr 77 :: List.tl regex2) at 1.
  rewrite (sub_scan_barrier 77 (List.tl regex2)) by (reflexivity || exact Hc).
  change (Chr 77 :: List.tl regex2) with regex2.
  rewrite Hmiss. reflexivity.
Qed.

Lemma quoted_pattern_not_in_text (tail : regex) (role content : str) :
  tail = default_tail \/ tail = explicit_tail ->
  role_name role = true -> ~ In DQ content ->
  ~ occurs (message_head ++ quoted_literal ++ tail)
      (message_text role content).
Proof.
  intros Ht Hr Hc. rewrite message_text_split.
  change (content ++ [DQ; RPAREN]) with (content ++ DQ :: [RPAREN]).
  intros H. apply occurs_quoted in H; auto.
  - destruct H as (_ & T & post & gt & E & HT).
    destruct Ht as [-> | ->]; apply Matches_chr_inv in HT;
      destruct HT as (m' & -> & _); discriminate E.
  - destruct Ht as [-> | ->]; reflexivity.
  - destruct Ht as [-> | ->]; reflexivity.
  - apply text_head_chars; auto.
  - intros [E|[]]. discriminate E.
Qed.

Lemma pattern3_not_in_text (role content : str) :
  role_name role = true -> ~ In DQ content ->
  ~ occurs regex3 (message_text role content).
Proof.
  intros Hr Hc. rewrite regex3_split.
  apply quoted_pattern_not_in_text; auto.
Qed.

(** The rewriter on a construct of the first pattern: the first
    substitution collapses the construct, the second works on the literal. *)
Lemma shorthand_construct_scan (gaps : list str) (role content : str) :
  all_space gaps = true -> role_name role = true ->
  plain_literal content = true ->
  fix_message_construction (shorthand_construct gaps role content)
  = Ok (message_text role (sub_scan regex2 template2 0 content)).
Proof.
  intros Hg Hr Hl.
  destruct (plain_literal_spec content Hl) as [Hne Hdq].
  unfold shorthand_construct. rewrite fix_message_construction_scan.
  rewrite (sub_scan_render regex1 template1 gaps [role; content]
             77 (List.tl regex1)); [| reflexivity | reflexivity |].
  2:{ rewrite regex1_split. apply fits_quoted; auto. }
  change (expand template1 (firstn (groups regex1) [role; content]))
    with (message_text role content).
  rewrite pattern2_scan_text by auto.
  apply f_equal, sub_scan_absent, pattern3_not_in_text; [exact Hr|].
  pose proof (pattern2_scan_plain content Hl) as Hp.
  now apply plain_literal_spec in Hp.
Qed.

(** X7. A construct of the first pattern, with any white space where the
    pattern allows it, a role and a plain literal, is rewritten to
    [Message::text(Role::role, DQ literal' DQ)], where [literal'] is the
    literal after the second substitution: the literal itself when the
    second pattern does not occur in it. *)
Theorem shorthand_construct_collapses (gaps : list str)
    (role content : str) :
  all_space gaps = true -> role_name role = true ->
  plain_literal content = true ->
  exists content',
    re_sub pattern2 replacement2 content = Ok content'
    /\ fix_message_construction (shorthand_construct gaps role content)
       = Ok (message_text role content')
    /\ (re_search regex2 content = false -> content' = content).
Proof.
  intros Hg Hr Hl. eexists. split; [apply re_sub_pattern2|]. split.
  - now apply shorthand_construct_scan.
  - intros H. apply sub_scan_absent. now apply re_search_false.
Qed.

(** ** The [main] of the rewriter *)

Lemma fix_loop_spec (entries : directory) :
  exists entries',
    (forall stdout n,
        fix_loop entries stdout n
        = Ok (entries',
              stdout ++ printed (map fixed_line
                                   (changed_names entries entries')),
              (n + List.length (changed_names entries entries'))%nat))
    /\ Forall2 rewritten_entry entries entries'
    /\ changed_names entries entries'
       = written_names fix_message_construction entries.
Proof.
  induction entries as [|[name content] entries IH].
  - exists []. repeat split; [|constructor].
    intros stdout n. cbn. now rewrite app_nil_r, Nat.add_0_r.
  - destruct IH as (entries' & Hloop & Hall & Hnames).
    rewrite written_names_cons.
    assert (Hkeep : forall stdout n,
               (r <- fix_loop entries stdout n ;;
                Ok ((name, content) :: fst (fst r), snd (fst r), snd r))
               = Ok ((name, content) :: entries',
                     stdout ++ printed (map fixed_line
                                          (changed_names entries entries')),
                     (n + List.length (changed_names entries entries'))%nat)).
    { intros stdout n. rewrite Hloop. reflexivity. }
    destruct (is_rs name) eqn:Ers; cbn [andb].
    + destruct (fix_shortens content) as (r & Hr & [-> | Hlen]).
      * exists ((name, content) :: entries').
        rewrite changed_names_same, Hr, str_eqb_refl. cbn [negb].
        repeat split; [| |exact Hnames].
        -- intros stdout n. cbn [fix_loop]. rewrite Ers, Hr. cbn [bind].
           rewrite str_eqb_refl. apply Hkeep.
        -- constructor; [|exact Hall]. unfold rewritten_entry.
           cbn [fst snd]. rewrite Ers. repeat split; [exact Hr | now left].
      * assert (Hne : r <> content) by (intros ->; lia).
        exists ((name, r) :: entries').
        rewrite changed_names_new by exact Hne. rewrite Hr.
        rewrite (proj2 (str_eqb_neq content r)) by congruence.
        cbn [negb]. repeat split; [| |now f_equal].
        -- intros stdout n. cbn [fix_loop]. rewrite Ers, Hr. cbn [bind].
           rewrite (proj2 (str_eqb_neq content r)) by congruence.
           cbn [negb]. rewrite Hloop. cbn [bind fst snd map List.length].
           rewrite print_printed. do 2 f_equal. lia.
        -- constructor; [|exact Hall]. unfold rewritten_entry.
           cbn [fst snd]. rewrite Ers. repeat split; [exact Hr | now right].
    + exists ((name, content) :: entries').
      rewrite changed_names_same. repeat split; [| |exact Hnames].
      * intros stdout n. cbn [fix_loop]. rewrite Ers. apply Hkeep.
      * constructor; [|exact Hall]. unfold rewritten_entry.
        cbn [fst snd]. rewrite Ers. repeat split. now left.
Qed.

(** X8. [main] of the rewriter writes the files it reports and no other. A
    file whose name ends in [.rs] holds afterwards the rewritten text, any
    other file the text it had; the names printed are, in order, those of
    the [.rs] files whose rewritten text differs from their text, which are
    the files whose text has changed, and the count printed is their number;
    a text that has changed has become shorter. Without a directory
    [examples] it prints one line and exits with status 1. *)
Theorem fix_main_reports_what_it_writes (entries : directory) :
  fix_main None = Ok (None, printed [missing_text], SystemExit 1)
  /\ exists entries',
      fix_main (Some entries)
      = Ok (Some entries',
            printed ([start_text; []]
                     ++ map fixed_line (changed_names entries entries')
                     ++ [[]; fixed_summary
                               (List.length (changed_names entries entries'))]),
            Returned)
      /\ Forall2 rewritten_entry entries entries'
      /\ changed_names entries entries'
         = written_names fix_message_construction entries.
Proof.
  split; [reflexivity|].
  destruct (fix_loop_spec entries) as (entries' & Hloop & Hall & Hnames).
  exists entries'. split; [|split; assumption].
  unfold fix_main. cbv zeta. rewrite Hloop.
  cbn [bind fst snd Nat.add]. do 2 f_equal.
  unfold print. rewrite !printed_app. cbn [printed flat_map app].
  rewrite <- !app_assoc. reflexivity.
Qed.

Lemma count_weight_nonneg (x c : codepoint) : (0 <= count_weight x c)%Z.
Proof. unfold count_weight. destruct (c =? x); lia. Qed.

Lemma sub_scan_count (x : codepoint) (p : regex) (t : template) (s : str) :
  In (p, t) [(regex1, template1); (regex2, template2); (regex3, template3)] ->
  mem x (template_chars template1) = false ->
  (count x (sub_scan p t 0 s) <= count x s)%nat.
Proof.
  intros Hin Hx.
  assert (H : exists c p', p = Chr c :: p' /\ groups p = 2%nat
                           /\ refs t = [1; 2]%nat
                           /\ forall y, In y (template_chars t) ->
                                        In y (template_chars template1)).
  { destruct Hin as [E|[E|[E|[]]]]; injection E as <- <-;
      eexists _, _; (split; [reflexivity|]); repeat split; auto.
    intros y Hy. apply mem_true_In.
    cbn in Hy. repeat (destruct Hy as [<- | Hy]; [reflexivity|]).
    destruct Hy. }
  destruct H as (c & p' & -> & Hg & Hr & Hsub).
  assert (Ht : weight (count_weight x) (template_chars t) = 0%Z).
  { rewrite weight_count. apply mem_false in Hx.
    replace (count x (template_chars t)) with O; [reflexivity|].
    symmetry. apply count_zero. intros H. apply Hx. now apply Hsub. }
  destruct (sub_scan_weight (count_weight x) c p' t 0 (Z.le_refl 0))
    with (s := s) as [-> | H]; [| lia |].
  - intros m gs HM.
    pose proof (replacement_weight_le (count_weight x) _ t m gs
                  (count_weight_nonneg x) Hg Hr HM) as H.
    pose proof (weight_nonneg (count_weight x) (literals (Chr c :: p'))
                  (count_weight_nonneg x)). lia.
  - rewrite !weight_count in H. lia.
Qed.

(** X14.  The rewriter adds no character but those of its replacement
    text: of a character that the text [Message::text(Role::, DQ DQ)] does
    not hold, a line break for one, the result has no more than the input. *)
Theorem rewriting_adds_no_other_character (x : codepoint) (s : str) :
  mem x (template_chars template1) = false ->
  exists r,
    fix_message_construction s = Ok r /\ (count x r <= count x s)%nat.
Proof.
  intros Hx. eexists. split; [apply fix_message_construction_scan|].
  pose proof (sub_scan_count x regex1 template1 s) as H1.
  pose proof (sub_scan_count x regex2 template2
                (sub_scan regex1 template1 0 s)) as H2.
  pose proof (sub_scan_count x regex3 template3
                (sub_scan regex2 template2 0
                   (sub_scan regex1 template1 0 s))) as H3.
  cbn [In] in H1, H2, H3.
  specialize (H1 (or_introl eq_refl) Hx).
  specialize (H2 (or_intror (or_introl eq_refl)) Hx).
  specialize (H3 (or_intror (or_intror (or_introl eq_refl))) Hx).
  lia.
Qed.

(** ** Running the engine on its own output *)













End RewriterProperties.

(** * Concrete instances *)

Local Open Scope string_scope.






(** C6, witness: the two lines [a] and [b] and the key that spans them. *)
Lemma C6_lines_witness :
  translate_content_with [(u "a
b", u "X")] (u "a
b") = u "a
b"
  /\ split NL (translate_content (u "创建
的")) = [u "Create"; []].
Proof.
  pose proof (C6_lines_are_isolated [] (u "a
b")) as H1.
  pose proof (C6_lines_are_isolated [] (u "创建
的")) as H2.
  split.
  - apply (proj1 (proj2 (proj2 (proj2 (proj2 H1))))).
    vm_compute. tauto.
  - rewrite (proj2 (proj2 (proj2 (proj2 (proj2 (proj2 H2)))))).
    vm_compute. reflexivity.
Defined.

(** C7, witness: a line of Rust without construct or key. *)
Lemma C7_noop_witness :
  process (ud := cjk_table) StructuralThenLexical (u "fn main() {}")
  = Ok (u "fn main() {}", false).
Proof.
  apply (C7_noop_without_occurrence (ud := cjk_table) StructuralThenLexical
           (u "fn main() {}")); vm_compute; reflexivity.
Defined.

(** C8, counterexample.  White space between the role and the comma that
    follows it: no pattern matches and the text stays as it is. *)
Lemma C8_space_before_comma_unmatched :
  (forall ud : UnicodeData, fix_message_construction spaced_comma_sample
              = Ok spaced_comma_sample)
  /\ (forall ud : UnicodeData, process StructuralOnly spaced_comma_sample
                 = Ok (spaced_comma_sample, false))
  /\ spaced_comma_sample <> shorthand_result.
Proof.
  split; [|split]; by_computation.
Qed.

(** C8, witness: the scenario as the specification writes it, and with
    newlines and no space at all. *)
Lemma C8_shorthand_witness :
  shorthand_construct single_spaces User hi = shorthand_sample
  /\ process (ud := cjk_table) StructuralOnly shorthand_sample
     = Ok (shorthand_result, true)
  /\ fix_message_construction (ud := cjk_table)
       (shorthand_construct [[]; [10; 32]; []; [32; 32]; [9]; [10]; []]
          User hi)
     = Ok shorthand_result.
Proof.
  split; [reflexivity|]. split.
  - exact (proj1 (proj2 (proj2
             (C8_shorthand_scenario (ud := cjk_table) single_spaces eq_refl)))).
  - exact (proj1 (C8_shorthand_scenario (ud := cjk_table)
                    [[]; [10; 32]; []; [32; 32]; [9]; [10]; []] eq_refl)).
Defined.

(** C10, counterexample.  A construct whose literal holds an escaped double
    quote followed by the rest of the shorthand: the first pattern matches
    up to the brace inside the literal and the text is rewritten. *)
Lemma C10_quoted_content_rewritten :
  mem DQ escaped_quote_literal = true
  /\ (forall ud : UnicodeData,
         fix_message_construction
           (shorthand_construct single_spaces User escaped_quote_literal)
         = Ok escaped_quote_result)
  /\ escaped_quote_result
     <> shorthand_construct single_spaces User escaped_quote_literal.
Proof.
  split; [|split]; by_computation.
Qed.

(** C10, witness: the empty literal of the claim, and a literal with an
    escaped double quote. *)
Lemma C10_unmatched_literal_witness :
  fix_message_construction (ud := cjk_table)
    (u ("Message { role: Role::User, content: " ++ dq ++ dq
        ++ ".to_string(), ..Default::default() }"))
  = Ok (u ("Message { role: Role::User, content: " ++ dq ++ dq
           ++ ".to_string(), ..Default::default() }"))
  /\ fix_message_construction (ud := cjk_table)
       (u ("Message { role: Role::User, content: " ++ dq ++ "a" ++ bs ++ dq ++ "b"
           ++ dq ++ ".to_string(), ..Default::default() }"))
     = Ok (u ("Message { role: Role::User, content: " ++ dq ++ "a" ++ bs ++ dq
              ++ "b" ++ dq ++ ".to_string(), ..Default::default() }")).
Proof.
  split.
  - exact (proj1 (proj2 (C10_unmatched_literal_untouched (ud := cjk_table))
                    single_spaces User [] eq_refl eq_refl eq_refl)).
  - exact (proj1 (proj2 (C10_unmatched_literal_untouched (ud := cjk_table))
                    single_spaces User escaped_quote_short
                    eq_refl eq_refl eq_refl)).
Defined.

(** * Instances of the further properties *)

Local Open Scope string_scope.

(** X1, witness. A text without the word [Message]. *)
Lemma text_without_keyword_witness :
  fix_message_construction (ud := cjk_table) (u "fn main() {}")
  = Ok (u "fn main() {}")
  /\ fix_file (ud := cjk_table) (u "fn main() {}")
     = Ok (u "fn main() {}", false).
Proof.
  apply (text_without_keyword_is_untouched (ud := cjk_table)
           (u "Message") (u "fn main() {}")).
  - left. reflexivity.
  - vm_compute. reflexivity.
Defined.

(** X3, witness. The chained construct, of 143 characters, after three runs. *)
Lemma rewriting_reruns_witness :
  exists r,
    fix_repeatedly (ud := cjk_table) 3 chained_sample = Ok r
    /\ fix_message_construction (ud := cjk_table) r = Ok r.
Proof.
  apply (rewriting_reruns_settle (ud := cjk_table) 3 chained_sample).
  apply Nat.ltb_lt. vm_compute. reflexivity.
Defined.

(** X5, witness. The scenario of the specification inside a statement of
    Rust. *)
Lemma rewriting_is_local_witness :
  exists r,
    fix_message_construction (ud := cjk_table) shorthand_sample = Ok r
    /\ fix_message_construction (ud := cjk_table)
         (u "let m = " ++ shorthand_sample ++ u "; // done")%list
       = Ok (u "let m = " ++ r ++ u "; // done")%list.
Proof.
  apply (rewriting_is_local (ud := cjk_table)
           (u "let m = ") shorthand_sample (u "; // done"));
    vm_compute; reflexivity.
Defined.

(** X6, witness. The construct with the variable [text]. *)
Lemma bare_variable_construct_witness :
  bare_variable_construct single_spaces User (u "text") = bare_sample
  /\ fix_message_construction (ud := cjk_table) bare_sample
     = Ok (u "Message::text(Role::User, text)").
Proof.
  split; [reflexivity|].
  exact (bare_variable_construct_collapses (ud := cjk_table)
           single_spaces User (u "text") eq_refl eq_refl eq_refl).
Defined.

(** X7, witness. The role [Assistant] with a literal that holds a construct
    of the second pattern. *)
Lemma shorthand_construct_witness :
  exists content',
    re_sub (ud := cjk_table) pattern2 replacement2 bare_construct
    = Ok content'
    /\ fix_message_construction (ud := cjk_table)
         (shorthand_construct single_spaces (u "Assistant") bare_construct)
       = Ok (message_text (u "Assistant") content')
    /\ (re_search (ud := cjk_table) regex2 bare_construct = false ->
        content' = bare_construct).
Proof.
  exact (shorthand_construct_collapses (ud := cjk_table)
           single_spaces (u "Assistant") bare_construct
           eq_refl eq_refl eq_refl).
Defined.

(** X9, witness. A comment in English. *)
Lemma ascii_text_witness :
  translate_line (u "// Create OpenAI client") = u "// Create OpenAI client"
  /\ translate_file (u "// Create OpenAI client")
     = (u "// Create OpenAI client", false).
Proof.
  exact (ascii_text_is_untouched (u "// Create OpenAI client") eq_refl).
Defined.

(** X11, witness. The line of three characters that one run does not settle. *)
Lemma translation_reruns_witness :
  translate_file (translate_repeatedly 3 (u "创的建"))
  = (translate_repeatedly 3 (u "创的建"), false).
Proof.
  apply (translation_reruns_settle 3 (u "创的建")).
  apply Nat.leb_le. vm_compute. reflexivity.
Defined.

(** [main] of the rewriter on a directory of three files: the first holds
    the scenario of the specification, the second holds it under a name
    that does not end in [.rs], the third holds no construct. *)
Example fix_main_on_three_files :
  fix_main (ud := cjk_table)
    (Some [(u "a.rs", shorthand_sample); (u "notes.txt", shorthand_sample);
           (u "b.rs", u "fn main() {}")])
  = Ok (Some [(u "a.rs", shorthand_result); (u "notes.txt", shorthand_sample);
              (u "b.rs", u "fn main() {}")],
        printed [start_text; []; fixed_line (u "a.rs"); [];
                 fixed_summary 1],
        Returned).
Proof. vm_compute. reflexivity. Qed.

(** [main] of the translation on a tree of three files. *)
Example translate_main_on_three_files :
  translate_main
    (Some [(u "src/lib.rs", u "// 创建OpenAI客户端");
           (u "src/notes.md", u "// 创建OpenAI客户端");
           (u "src/v2/mod.rs", u "// Create OpenAI client")])
  = (Some [(u "src/lib.rs", u "// Create OpenAI client");
           (u "src/notes.md", u "// 创建OpenAI客户端");
           (u "src/v2/mod.rs", u "// Create OpenAI client")],
     printed [translated_line (u "src/lib.rs"); translated_summary 1 2]).
Proof. vm_compute. reflexivity. Qed.

(** X14, witness.  The line breaks of a construct written over three
    lines. *)
Lemma rewriting_adds_no_line_break_witness :
  exists r,
    fix_message_construction (ud := cjk_table)
      (shorthand_construct [[]; [NL; 32]; []; [NL; 32]; []; [32]; [NL]]
         User hi)
    = Ok r
    /\ Nat.le (count NL r)
         (count NL (shorthand_construct
                      [[]; [NL; 32]; []; [NL; 32]; []; [32]; [NL]]
                      User hi)).
Proof.
  exact (rewriting_adds_no_other_character (ud := cjk_table) NL
           (shorthand_construct [[]; [NL; 32]; []; [NL; 32]; []; [32]; [NL]]
              User hi) eq_refl).
Defined.
